(** * Numerical-Integration: the numeric engine of the calculator

    A shallow embedding of [IntegrationMethods.jsx] (the quadrature rules and
    their registry), of [processCustomFunction] in [Utils] (the
    text-to-function compiler), of the polynomial entries of
    [Constants.jsx] and of the handlers of [NumericalIntegrationCalculator]:
    the result records built by [performCalculations], the convergence sweep,
    the selection of methods and the processing of a custom function.

    JavaScript numbers are kept behind an interface ([Number]) with two
    instances: IEEE-754 binary64 (Rocq's primitive floats, what the browser
    computes) and the extended reals (the same special values [NaN] and
    [Infinity], but arithmetic on finite values is exact). *)

From Stdlib Require Import ZArith Zquot List String Ascii Bool Lia.
From Stdlib Require Import Reals Lra.
From Stdlib Require Import Floats Uint63.
Import ListNotations.

Set Implicit Arguments.

Local Open Scope string_scope.
Local Open Scope Z_scope.

(** ** Exceptions and completions *)

(** What a JavaScript call can do besides returning: throw.  [Error] is an
    [Error] object created by a [throw new Error(message)] of the modelled
    code; [Uncaught] is whatever the integrand threw, propagating through the
    rule (only its [message] is ever read). *)
Inductive exn : Type :=
| Error (message : string)
| Uncaught (message : string).

Definition message_of (e : exn) : string :=
  match e with
  | Error m => m
  | Uncaught m => m
  end.

Inductive completion (A : Type) : Type :=
| Return (v : A)
| Throw (e : exn).

Arguments Return {A} v.
Arguments Throw {A} e.

Definition bind {A B : Type} (c : completion A) (k : A -> completion B) : completion B :=
  match c with
  | Return v => k v
  | Throw e => Throw e
  end.

Declare Scope js_scope.
Delimit Scope js_scope with js.
Notation "x <- c ;; k" := (bind c (fun x => k))
  (at level 61, c at next level, right associativity) : js_scope.

(** [for (let i = lo; i < hi; i++) acc = body(i, acc)], stopping at the first
    throw.  [for_range k i] runs the [k] iterations [i], [i+1], ... *)
Fixpoint for_range {A : Type} (k : nat) (i : Z) (body : Z -> A -> completion A) (acc : A)
  : completion A :=
  match k with
  | O => Return acc
  | S k' => bind (body i acc) (fun acc' => for_range k' (i + 1) body acc')
  end.

Definition for_loop {A : Type} (lo hi : Z) (body : Z -> A -> completion A) (acc : A)
  : completion A :=
  for_range (Z.to_nat (hi - lo)) lo body acc.

(** ** JavaScript numbers *)

(** The operations of the host the engine uses on numbers.  An interval count
    or a loop counter is an integer ([Z]) and enters arithmetic through
    [of_Z]; [Math_pow] is [Math.pow] at a literal exponent 2, 3, 4 or 5. *)
Class Number : Type := {
  num : Type;
  of_Z : Z -> num;
  nadd : num -> num -> num;
  nsub : num -> num -> num;
  nmul : num -> num -> num;
  ndiv : num -> num -> num;
  nlt : num -> num -> bool;
  Math_abs : num -> num;
  Math_sqrt : num -> num;
  Math_max : num -> num -> num;
  Math_pow : num -> N -> num;
  isFinite : num -> bool;
  isNaN : num -> bool;
  ToBoolean : num -> bool;
  NaN : num
}.

Declare Scope num_scope.
Delimit Scope num_scope with num.
Infix "+" := nadd : num_scope.
Infix "-" := nsub : num_scope.
Infix "*" := nmul : num_scope.
Infix "/" := ndiv : num_scope.
Infix "<?" := nlt : num_scope.

(** *** IEEE-754 binary64 *)

Module Binary64.

(** An integer as a double: exact for magnitudes below 2^53, which covers
    every interval count and loop counter of the engine. *)
Definition of_Z (z : Z) : float :=
  match z with
  | Z0 => PrimFloat.zero
  | Zpos _ => PrimFloat.of_uint63 (Uint63.of_Z z)
  | Zneg _ => PrimFloat.opp (PrimFloat.of_uint63 (Uint63.of_Z (Z.opp z)))
  end.

(** [Math.max] of two arguments: [NaN] if either is. *)
Definition max (x y : float) : float :=
  if PrimFloat.is_nan x then x
  else if PrimFloat.is_nan y then y
  else if PrimFloat.ltb x y then y else x.

(** [Math.pow(x, k)] for a small literal [k], by repeated multiplication. *)
Definition pow (x : float) (k : N) : float :=
  N.iter k (fun acc => PrimFloat.mul acc x) PrimFloat.one.

Definition to_boolean (x : float) : bool :=
  negb (PrimFloat.is_nan x || PrimFloat.is_zero x).

End Binary64.

#[export] Instance binary64 : Number := {|
  num := float;
  of_Z := Binary64.of_Z;
  nadd := PrimFloat.add;
  nsub := PrimFloat.sub;
  nmul := PrimFloat.mul;
  ndiv := PrimFloat.div;
  nlt := PrimFloat.ltb;
  Math_abs := PrimFloat.abs;
  Math_sqrt := PrimFloat.sqrt;
  Math_max := Binary64.max;
  Math_pow := Binary64.pow;
  isFinite := PrimFloat.is_finite;
  isNaN := PrimFloat.is_nan;
  ToBoolean := Binary64.to_boolean;
  NaN := PrimFloat.nan
|}.

(** *** Extended reals *)

(** The special values of a JavaScript number with exact arithmetic on the
    finite ones: no rounding and no overflow, zero is unsigned, and a
    division of a non-zero number by zero is an infinity as in IEEE-754. *)
Module ExtendedReal.

Inductive xreal : Type :=
| Fin (r : R)
| PInf
| NInf
| NotANumber.

Definition opp (x : xreal) : xreal :=
  match x with
  | Fin r => Fin (- r)
  | PInf => NInf
  | NInf => PInf
  | NotANumber => NotANumber
  end.

(** The infinity with the sign of [r], [NaN] for zero. *)
Definition signed_inf (r : R) : xreal :=
  if Rlt_dec 0 r then PInf else if Rlt_dec r 0 then NInf else NotANumber.

Definition add (x y : xreal) : xreal :=
  match x, y with
  | NotANumber, _ | _, NotANumber => NotANumber
  | Fin a, Fin b => Fin (a + b)
  | PInf, NInf | NInf, PInf => NotANumber
  | PInf, _ | _, PInf => PInf
  | NInf, _ | _, NInf => NInf
  end.

Definition sub (x y : xreal) : xreal := add x (opp y).

Definition mul (x y : xreal) : xreal :=
  match x, y with
  | NotANumber, _ | _, NotANumber => NotANumber
  | Fin a, Fin b => Fin (a * b)
  | Fin a, PInf | PInf, Fin a => signed_inf a
  | Fin a, NInf | NInf, Fin a => opp (signed_inf a)
  | PInf, PInf | NInf, NInf => PInf
  | PInf, NInf | NInf, PInf => NInf
  end.

Definition div (x y : xreal) : xreal :=
  match x, y with
  | NotANumber, _ | _, NotANumber => NotANumber
  | Fin a, Fin b => if Req_dec_T b 0 then signed_inf a else Fin (a / b)
  | Fin _, PInf | Fin _, NInf => Fin 0
  | PInf, Fin b => if Rlt_dec b 0 then NInf else PInf
  | NInf, Fin b => if Rlt_dec b 0 then PInf else NInf
  | _, _ => NotANumber
  end.

Definition ltb (x y : xreal) : bool :=
  match x, y with
  | NotANumber, _ | _, NotANumber => false
  | Fin a, Fin b => if Rlt_dec a b then true else false
  | _, NInf => false
  | NInf, _ => true
  | PInf, _ => false
  | Fin _, PInf => true
  end.

Definition abs (x : xreal) : xreal :=
  match x with
  | Fin r => Fin (Rabs r)
  | PInf | NInf => PInf
  | NotANumber => NotANumber
  end.

Definition sqrt (x : xreal) : xreal :=
  match x with
  | Fin r => if Rlt_dec r 0 then NotANumber else Fin (R_sqrt.sqrt r)
  | PInf => PInf
  | NInf | NotANumber => NotANumber
  end.

Definition max (x y : xreal) : xreal :=
  match x, y with
  | NotANumber, _ | _, NotANumber => NotANumber
  | _, _ => if ltb x y then y else x
  end.

Definition pow (x : xreal) (k : N) : xreal :=
  N.iter k (fun acc => mul acc x) (Fin 1).

Definition is_finite (x : xreal) : bool :=
  match x with
  | Fin _ => true
  | _ => false
  end.

Definition is_nan (x : xreal) : bool :=
  match x with
  | NotANumber => true
  | _ => false
  end.

Definition to_boolean (x : xreal) : bool :=
  match x with
  | Fin r => if Req_dec_T r 0 then false else true
  | PInf | NInf => true
  | NotANumber => false
  end.

End ExtendedReal.

#[export] Instance exact : Number := {|
  num := ExtendedReal.xreal;
  of_Z := fun z => ExtendedReal.Fin (IZR z);
  nadd := ExtendedReal.add;
  nsub := ExtendedReal.sub;
  nmul := ExtendedReal.mul;
  ndiv := ExtendedReal.div;
  nlt := ExtendedReal.ltb;
  Math_abs := ExtendedReal.abs;
  Math_sqrt := ExtendedReal.sqrt;
  Math_max := ExtendedReal.max;
  Math_pow := ExtendedReal.pow;
  isFinite := ExtendedReal.is_finite;
  isNaN := ExtendedReal.is_nan;
  ToBoolean := ExtendedReal.to_boolean;
  NaN := ExtendedReal.NotANumber
|}.

(** ** IntegrationMethods.jsx *)

Section Integrand.
Context {N : Number}.

(** A JavaScript function of one number, as the rules use it: a call returns a
    number or throws. *)
Inductive outcome : Type :=
| Yields (y : num)
| Raises (message : string).

Definition integrand : Type := num -> outcome.

(** [func(x)] inside a rule. *)
Definition call (func : integrand) (x : num) : completion num :=
  match func x with
  | Yields y => Return y
  | Raises m => Throw (Uncaught m)
  end.

(** A decimal literal [p/q] of the source, e.g. [0.5] or [1.96]: the quotient of
    two exact integers is correctly rounded, as the literal is. *)
Definition literal (p q : Z) : num := (of_Z p / of_Z q)%num.

(** The loop shared by every [estimate...Derivative]:
    [for (let x = x0; x < bound; x += h) { try { d = term(x); if (isFinite(d))
    max = Math.max(max, d) } catch (e) {} }].  In floating point [x += h] may
    leave [x] unchanged, so the loop is run on fuel: [None] is a loop still
    running when the fuel is spent. *)
Fixpoint derivative_scan (fuel : nat) (term : num -> completion num)
  (x bound h maxDeriv : num) : option num :=
  match fuel with
  | O => None
  | S fuel' =>
      if (x <? bound)%num then
        let maxDeriv' :=
          match term x with
          | Return d => if isFinite d then Math_max maxDeriv d else maxDeriv
          | Throw _ => maxDeriv
          end in
        derivative_scan fuel' term (x + h)%num bound h maxDeriv'
      else Some maxDeriv
  end.

(** [Math.abs((func(x + h) - 2 * func(x) + func(x - h)) / (h * h))] *)
Definition second_difference (func : integrand) (h x : num) : completion num :=
  (f1 <- call func (x + h)%num ;;
   f0 <- call func x ;;
   f2 <- call func (x - h)%num ;;
   Return (Math_abs ((f1 - of_Z 2 * f0 + f2) / (h * h))%num))%js.

(** [estimateSecondDerivative(func, a, b)] with [h = (b - a) / steps]: the three
    rules carry the same method and differ in [steps] only. *)
Definition estimateSecondDerivative_with (steps : Z) (fuel : nat) (func : integrand)
  (a b : num) : option num :=
  let h := ((b - a) / of_Z steps)%num in
  derivative_scan fuel (second_difference func h) (a + h)%num (b - h)%num h (of_Z 0).

End Integrand.

(** The base class: [integrate] must be overridden, [getErrorEstimate] is [null]
    and [getVisualizationData] is empty unless a rule says otherwise. *)
Module IntegrationMethod.
Section WithNumber.
Context {N : Number}.

Definition integrate (func : integrand) (a b : num) (n : Z) : completion num :=
  Throw (Error "integrate method must be implemented").

Definition getErrorEstimate (func : integrand) (a b : num) (n : Z) : option num :=
  None.

End WithNumber.
End IntegrationMethod.

Module TrapezoidalRule.
Section WithNumber.
Context {N : Number}.

Definition integrate (func : integrand) (a b : num) (n : Z) : completion num :=
  let h := ((b - a) / of_Z n)%num in
  (fa <- call func a ;;
   fb <- call func b ;;
   sum <- for_loop 1 n
            (fun i sum => y <- call func (a + of_Z i * h)%num ;; Return (sum + y)%num)
            ((fa + fb) / of_Z 2)%num ;;
   Return (sum * h)%num)%js.

Definition estimateSecondDerivative : nat -> integrand -> num -> num -> option num :=
  estimateSecondDerivative_with 1000.

Definition getErrorEstimate (fuel : nat) (func : integrand) (a b : num) (n : Z)
  : option (option num) :=
  match estimateSecondDerivative fuel func a b with
  | None => None
  | Some secondDerivApprox =>
      Some (Some (Math_abs
        ((Math_pow (b - a) 3 * secondDerivApprox) / (of_Z 12 * of_Z n * of_Z n))%num))
  end.

End WithNumber.
End TrapezoidalRule.

Module SimpsonsRule1By3.
Section WithNumber.
Context {N : Number}.

(** Helper method for the pure Simpson's 1/3 rule calculation. *)
Definition simpsonRule (func : integrand) (a b : num) (n : Z) : completion num :=
  let h := ((b - a) / of_Z n)%num in
  (fa <- call func a ;;
   fb <- call func b ;;
   sum <- for_loop 1 n
            (fun i sum =>
               let x := (a + of_Z i * h)%num in
               y <- call func x ;;
               Return (sum + (if Z.rem i 2 =? 0 then of_Z 2 else of_Z 4) * y)%num)
            (fa + fb)%num ;;
   Return ((sum * h) / of_Z 3)%num)%js.

Definition integrate (func : integrand) (a b : num) (n : Z) : completion num :=
  if Z.rem n 2 =? 0 then
    simpsonRule func a b n
  else
    let h := ((b - a) / of_Z n)%num in
    let splitPoint := (b - h)%num in
    (simpsonPart <- simpsonRule func a splitPoint (n - 1) ;;
     fs <- call func splitPoint ;;
     fb <- call func b ;;
     let trapPart := ((h / of_Z 2) * (fs + fb))%num in
     Return (simpsonPart + trapPart)%num)%js.

Definition estimateSecondDerivative : nat -> integrand -> num -> num -> option num :=
  estimateSecondDerivative_with 100.

(** [Math.abs((func(x + 2*h) - 4*func(x + h) + 6*func(x) - 4*func(x - h)
    + func(x - 2*h)) / Math.pow(h, 4))] *)
Definition fourth_difference (func : integrand) (h x : num) : completion num :=
  (f2 <- call func (x + of_Z 2 * h)%num ;;
   f1 <- call func (x + h)%num ;;
   f0 <- call func x ;;
   g1 <- call func (x - h)%num ;;
   g2 <- call func (x - of_Z 2 * h)%num ;;
   Return (Math_abs
     ((f2 - of_Z 4 * f1 + of_Z 6 * f0 - of_Z 4 * g1 + g2) / Math_pow h 4)%num))%js.

Definition estimateFourthDerivative (fuel : nat) (func : integrand) (a b : num)
  : option num :=
  let h := ((b - a) / of_Z 1000)%num in
  derivative_scan fuel (fourth_difference func h)
    (a + of_Z 2 * h)%num (b - of_Z 2 * h)%num h (of_Z 0).

Definition getErrorEstimate (fuel : nat) (func : integrand) (a b : num) (n : Z)
  : option (option num) :=
  if Z.rem n 2 =? 0 then
    match estimateFourthDerivative fuel func a b with
    | None => None
    | Some fourthDerivApprox =>
        Some (Some (Math_abs
          ((Math_pow (b - a) 5 * fourthDerivApprox) / (of_Z 180 * Math_pow (of_Z n) 4))%num))
    end
  else
    let h := ((b - a) / of_Z n)%num in
    let splitPoint := (b - h)%num in
    match estimateFourthDerivative fuel func a splitPoint with
    | None => None
    | Some fourth =>
        let simpsonError :=
          (fourth * Math_pow (splitPoint - a) 5
           / (of_Z 180 * Math_pow (of_Z n - of_Z 1) 4))%num in
        match estimateSecondDerivative fuel func splitPoint b with
        | None => None
        | Some second =>
            let trapError := (second * Math_pow h 2 / of_Z 12)%num in
            Some (Some (Math_abs simpsonError + Math_abs trapError)%num)
        end
    end.

End WithNumber.
End SimpsonsRule1By3.

Module MidpointRule.
Section WithNumber.
Context {N : Number}.

Definition integrate (func : integrand) (a b : num) (n : Z) : completion num :=
  let h := ((b - a) / of_Z n)%num in
  (sum <- for_loop 0 n
            (fun i sum =>
               let midpoint := (a + (of_Z i + literal 5 10) * h)%num in
               y <- call func midpoint ;;
               Return (sum + y)%num)
            (of_Z 0) ;;
   Return (sum * h)%num)%js.

Definition estimateSecondDerivative : nat -> integrand -> num -> num -> option num :=
  estimateSecondDerivative_with 1000.

Definition getErrorEstimate (fuel : nat) (func : integrand) (a b : num) (n : Z)
  : option (option num) :=
  match estimateSecondDerivative fuel func a b with
  | None => None
  | Some secondDerivApprox =>
      Some (Some (Math_abs
        ((Math_pow (b - a) 3 * secondDerivApprox) / (of_Z 24 * of_Z n * of_Z n))%num))
  end.

End WithNumber.
End MidpointRule.

Module MonteCarloIntegration.
Section WithNumber.
Context {N : Number}.

(** An element [{ x, y }] of [samples]. *)
Record sample : Type := { sample_x : num; sample_y : num }.

(** The field [this.lastSamples]: [None] while it is [undefined]. *)
Definition instance : Type := option (list sample).

(** [random i] is what the [i]-th call of [Math.random()] made by this
    invocation returns.  The second component is [this.lastSamples] when the
    call is over: the assignment follows the loop, so a throw leaves the field
    as it was. *)
Definition integrate (random : nat -> num) (this : instance)
  (func : integrand) (a b : num) (n : Z) : completion num * instance :=
  let loop :=
    for_loop 0 n
      (fun i '(sum, samples) =>
         let x := (a + random (Z.to_nat i) * (b - a))%num in
         y <- call func x ;;
         Return ((sum + y)%num, (samples ++ [{| sample_x := x; sample_y := y |}])%list))%js
      (of_Z 0, []) in
  match loop with
  | Return (sum, samples) => (Return ((sum / of_Z n) * (b - a))%num, Some samples)
  | Throw e => (Throw e, this)
  end.

Definition getVisualizationData (this : instance) : list sample :=
  match this with
  | Some samples => samples
  | None => []
  end.

(** An array is truthy even when empty, so only the [undefined] field makes
    [!this.lastSamples] hold. *)
Definition getErrorEstimate (this : instance) (func : integrand) (a b : num) (n : Z)
  : option num :=
  match this with
  | None => None
  | Some lastSamples =>
      let mean :=
        (fold_left (fun sum s => sum + sample_y s) lastSamples (of_Z 0) / of_Z n)%num in
      let variance :=
        (fold_left (fun sum s => sum + Math_pow (sample_y s - mean) 2) lastSamples (of_Z 0)
         / (of_Z n - of_Z 1))%num in
      let standardError := (Math_sqrt (variance / of_Z n) * (b - a))%num in
      Some (literal 196 100 * standardError)%num
  end.

End WithNumber.
End MonteCarloIntegration.

Module SimpsonsRule3By8.
Section WithNumber.
Context {N : Number}.

Definition too_few_intervals : string :=
  "Simpson's 3/8 rule requires at least 3 intervals.".

Definition integrate (func : integrand) (a b : num) (n : Z) : completion num :=
  if n <? 3 then Throw (Error too_few_intervals)
  else
    let remainder := Z.rem n 3 in
    let total := of_Z 0 in
    let h := ((b - a) / of_Z n)%num in
    let mainN := n - remainder in
    (total <-
       (if mainN >=? 3 then
          fa <- call func a ;;
          fm <- call func (a + of_Z mainN * h)%num ;;
          sum <- for_loop 1 mainN
                   (fun i sum =>
                      let x := (a + of_Z i * h)%num in
                      if Z.rem i 3 =? 0 then
                        y <- call func x ;; Return (sum + of_Z 2 * y)%num
                      else
                        y <- call func x ;; Return (sum + of_Z 3 * y)%num)
                   (fa + fm)%num ;;
          Return (total + (of_Z 3 * h / of_Z 8) * sum)%num
        else Return total) ;;
     total <-
       (if remainder >? 0 then
          let remA := (a + of_Z mainN * h)%num in
          let remB := b in
          fa <- call func remA ;;
          fb <- call func remB ;;
          remSum <- for_loop 1 remainder
                      (fun i remSum =>
                         y <- call func (remA + of_Z i * h)%num ;;
                         Return (remSum + y)%num)
                      ((fa + fb) / of_Z 2)%num ;;
          Return (total + remSum * h)%num
        else Return total) ;;
     Return total)%js.

End WithNumber.
End SimpsonsRule3By8.

(** ** The objects of the registry *)

Section Registry.
Context {N : Number}.

(** The class an object was constructed from: method calls dispatch on it. *)
Inductive rule_class : Type :=
| Trapezoidal
| Simpson1By3
| Simpson3By8
| Midpoint
| MonteCarlo.

(** An instance of a subclass of [IntegrationMethod]: the three fields the
    constructor sets, and [lastSamples], which only Monte Carlo ever writes. *)
Record method : Type := {
  class_of : rule_class;
  name : string;
  description : string;
  color : string;
  lastSamples : MonteCarloIntegration.instance
}.

Definition new_TrapezoidalRule : method :=
  {| class_of := Trapezoidal;
     name := "Trapezoidal Rule";
     description := "Approximates area using trapezoids";
     color := "#3b82f6";
     lastSamples := None |}.

Definition new_SimpsonsRule1By3 : method :=
  {| class_of := Simpson1By3;
     name := "Simpson's 1/3";
     description := "Uses quadratic polynomials for better accuracy";
     color := "#ef4444";
     lastSamples := None |}.

Definition new_MidpointRule : method :=
  {| class_of := Midpoint;
     name := "Midpoint Rule";
     description := "Uses rectangle with height at midpoint";
     color := "#10b981";
     lastSamples := None |}.

Definition new_MonteCarloIntegration : method :=
  {| class_of := MonteCarlo;
     name := "Monte Carlo";
     description := "Uses random sampling for integration";
     color := "#f59e0b";
     lastSamples := None |}.

Definition new_SimpsonsRule3By8 : method :=
  {| class_of := Simpson3By8;
     name := "Simpson's 3/8";
     description := "Uses cubic polynomials, best for intervals multiple of 3";
     color := "#a21caf";
     lastSamples := None |}.

Definition set_lastSamples (m : method) (s : MonteCarloIntegration.instance) : method :=
  {| class_of := class_of m;
     name := name m;
     description := description m;
     color := color m;
     lastSamples := s |}.

(** [m.integrate(func, a, b, n)]: the value or the exception, and the object
    after the call. *)
Definition integrate (random : nat -> num) (m : method)
  (func : integrand) (a b : num) (n : Z) : completion num * method :=
  match class_of m with
  | Trapezoidal => (TrapezoidalRule.integrate func a b n, m)
  | Simpson1By3 => (SimpsonsRule1By3.integrate func a b n, m)
  | Simpson3By8 => (SimpsonsRule3By8.integrate func a b n, m)
  | Midpoint => (MidpointRule.integrate func a b n, m)
  | MonteCarlo =>
      let '(r, s) := MonteCarloIntegration.integrate random (lastSamples m) func a b n in
      (r, set_lastSamples m s)
  end.

(** [m.getErrorEstimate(func, a, b, n)]: [None] when the fuel does not see the
    derivative scan end, else the number or [null]. *)
Definition getErrorEstimate (fuel : nat) (m : method)
  (func : integrand) (a b : num) (n : Z) : option (option num) :=
  match class_of m with
  | Trapezoidal => TrapezoidalRule.getErrorEstimate fuel func a b n
  | Simpson1By3 => SimpsonsRule1By3.getErrorEstimate fuel func a b n
  | Simpson3By8 => Some (IntegrationMethod.getErrorEstimate func a b n)
  | Midpoint => MidpointRule.getErrorEstimate fuel func a b n
  | MonteCarlo =>
      Some (MonteCarloIntegration.getErrorEstimate (lastSamples m) func a b n)
  end.

(** Registry for all available methods; the Midpoint entry is commented out
    in the source. *)
Definition integrationMethods : list method :=
  [ new_TrapezoidalRule;
    new_SimpsonsRule1By3;
    new_SimpsonsRule3By8;
    new_MonteCarloIntegration ].

(** [integrationMethods.find(m => m.name === methodName)] *)
Definition find_method (registry : list method) (methodName : string) : option method :=
  find (fun m => String.eqb (name m) methodName) registry.

End Registry.

(** ** Utils: processCustomFunction *)

(** Strings are sequences of code units; the model keeps the code units below
    256, which Rocq's [ascii] holds. *)
Module Text.

Definition code (c : ascii) : nat := nat_of_ascii c.

(** [\s], and what [trim] strips: tab, line feed, vertical tab, form feed,
    carriage return, space and the no-break space. *)
Definition is_space (c : ascii) : bool :=
  let k := code c in
  ((9 <=? k) && (k <=? 13) || (k =? 32) || (k =? 160))%nat.

(** [\d] *)
Definition is_digit (c : ascii) : bool :=
  let k := code c in ((48 <=? k) && (k <=? 57))%nat.

(** [\w]: a letter, a digit or the underscore. *)
Definition is_word (c : ascii) : bool :=
  let k := code c in
  ((65 <=? k) && (k <=? 90) || (97 <=? k) && (k <=? 122) || is_digit c || (k =? 95))%nat.

Definition lower (c : ascii) : ascii :=
  let k := code c in
  if ((65 <=? k) && (k <=? 90) || (192 <=? k) && (k <=? 222) && negb (k =? 215))%nat
  then ascii_of_nat (k + 32) else c.

Fixpoint toLowerCase (s : string) : string :=
  match s with
  | EmptyString => EmptyString
  | String c s' => String (lower c) (toLowerCase s')
  end.

Fixpoint trimStart (s : string) : string :=
  match s with
  | EmptyString => EmptyString
  | String c s' => if is_space c then trimStart s' else s
  end.

Fixpoint reverse_onto (s acc : string) : string :=
  match s with
  | EmptyString => acc
  | String c s' => reverse_onto s' (String c acc)
  end.

Definition reverse (s : string) : string := reverse_onto s EmptyString.

Definition trim (s : string) : string :=
  reverse (trimStart (reverse (trimStart s))).

(** *** Global replacement *)

(** What a pattern does at one position: [Some (text, len)] when it matches
    the next [len] (at least one) code units, [text] being what replaces them.
    A matcher sees the code unit before the position (for [\b]) and the rest of
    the subject. *)
Definition matcher : Type := option ascii -> string -> option (string * nat).

(** [subject.replace(/pattern/g, ...)]: matches are looked for from left to
    right in the subject itself and do not overlap; [skip] counts the code
    units the last match still covers. *)
Fixpoint replace_from (m : matcher) (prev : option ascii) (skip : nat) (s : string)
  : string :=
  match s with
  | EmptyString => EmptyString
  | String c s' =>
      match skip with
      | S k => replace_from m (Some c) k s'
      | O =>
          match m prev s with
          | Some (text, len) => text ++ replace_from m (Some c) (Nat.pred len) s'
          | None => String c (replace_from m (Some c) 0%nat s')
          end
      end
  end.

Definition replace_all (m : matcher) (s : string) : string :=
  replace_from m None 0%nat s.

(** [rest] starts with [w]: what is left after it. *)
Fixpoint strip_prefix (w rest : string) : option string :=
  match w, rest with
  | EmptyString, _ => Some rest
  | String a w', String b rest' => if Ascii.eqb a b then strip_prefix w' rest' else None
  | String _ _, EmptyString => None
  end.

(** A position is a [\b] next to a word character when the neighbour on the
    other side is missing or is not a word character. *)
Definition not_word (c : option ascii) : bool :=
  match c with
  | None => true
  | Some c => negb (is_word c)
  end.

Definition next_unit (s : string) : option ascii :=
  match s with
  | EmptyString => None
  | String c _ => Some c
  end.

(** [/\bw\b/g] for a [w] made of word characters. *)
Definition whole_word (w text : string) : matcher :=
  fun prev rest =>
    match strip_prefix w rest with
    | Some after =>
        if not_word prev && not_word (next_unit after)
        then Some (text, String.length w) else None
    | None => None
    end.

(** [/w/g] for a literal [w]. *)
Definition literally (w text : string) : matcher :=
  fun _ rest =>
    match strip_prefix w rest with
    | Some _ => Some (text, String.length w)
    | None => None
    end.

Fixpoint leading_spaces (s : string) : nat :=
  match s with
  | EmptyString => 0%nat
  | String c s' => if is_space c then S (leading_spaces s') else 0%nat
  end.

(** [/\s+/g] replaced by the empty string. *)
Definition spaces : matcher :=
  fun _ rest =>
    match leading_spaces rest with
    | O => None
    | len => Some (EmptyString, len)
    end.

Fixpoint drop (k : nat) (s : string) : string :=
  match k, s with
  | O, _ => s
  | S k', String _ s' => drop k' s'
  | S _, EmptyString => EmptyString
  end.

(** [/e\s*\^/g] replaced by [Math.exp]. *)
Definition e_caret : matcher :=
  fun _ rest =>
    match rest with
    | String "e" after =>
        let k := leading_spaces after in
        match drop k after with
        | String "^" _ => Some ("Math.exp", (2 + k)%nat)
        | _ => None
        end
    | _ => None
    end.

(** [/(p)(q)/g] replaced by ['$1*$2'], for two one-character classes. *)
Definition between (p q : ascii -> bool) : matcher :=
  fun _ rest =>
    match rest with
    | String c1 (String c2 _) =>
        if p c1 && q c2
        then Some (String c1 (String "*" (String c2 EmptyString)), 2%nat)
        else None
    | _ => None
    end.

Definition is_char (c : ascii) : ascii -> bool := Ascii.eqb c.

End Text.

Module Utils.
Import Text.

(** The rewriting of [processCustomFunction], from [toLowerCase] to the last
    [replace], in the order of the source. *)
Definition normalize (rawFunction : string) : string :=
  let processed := toLowerCase rawFunction in
  let processed := replace_all spaces processed in
  let processed := replace_all (whole_word "e" "Math.E") processed in
  let processed := replace_all (whole_word "pi" "Math.PI") processed in
  let processed := replace_all e_caret processed in
  let processed := replace_all (literally "^" "**") processed in
  let processed := replace_all (whole_word "ln" "NATURAL_LOG") processed in
  let processed := replace_all (whole_word "log" "Math.log10") processed in
  let processed := replace_all (literally "NATURAL_LOG" "Math.log") processed in
  let processed := replace_all (whole_word "sin" "Math.sin") processed in
  let processed := replace_all (whole_word "cos" "Math.cos") processed in
  let processed := replace_all (whole_word "tan" "Math.tan") processed in
  let processed := replace_all (whole_word "csc" "(1/Math.sin)") processed in
  let processed := replace_all (whole_word "sec" "(1/Math.cos)") processed in
  let processed := replace_all (whole_word "cot" "(1/Math.tan)") processed in
  let processed := replace_all (whole_word "asin" "Math.asin") processed in
  let processed := replace_all (whole_word "arcsin" "Math.asin") processed in
  let processed := replace_all (whole_word "acos" "Math.acos") processed in
  let processed := replace_all (whole_word "arccos" "Math.acos") processed in
  let processed := replace_all (whole_word "atan" "Math.atan") processed in
  let processed := replace_all (whole_word "arctan" "Math.atan") processed in
  let processed := replace_all (whole_word "sinh" "Math.sinh") processed in
  let processed := replace_all (whole_word "cosh" "Math.cosh") processed in
  let processed := replace_all (whole_word "tanh" "Math.tanh") processed in
  let processed := replace_all (whole_word "sqrt" "Math.sqrt") processed in
  let processed := replace_all (whole_word "abs" "Math.abs") processed in
  let processed := replace_all (between is_digit (is_char "x")) processed in
  let processed := replace_all (between (is_char "x") is_digit) processed in
  let processed := replace_all (between (is_char ")") (is_char "x")) processed in
  let processed := replace_all (between (is_char ")") (is_char "(")) processed in
  let processed := replace_all (between (is_char "x") (is_char "(")) processed in
  processed.

(** A JavaScript value as the validation reads it: [typeof v === 'number']
    or anything else. *)
Inductive js_value {N : Number} : Type :=
| VNumber (v : num)
| VOther.

Section Compile.
Context {N : Number}.

(** The host's [new Function(parameter, body)]: a syntax error with its
    message, or a callable; a call of the callable returns a value or throws
    ([None]; the validation drops what was thrown). *)
Variable new_Function : string -> string -> string + (num -> option js_value).

(** The template literal handed to [new Function]. *)
Definition testFunc_body (processed : string) : string :=
  "
      try {
        return " ++ processed ++ ";
      } catch (error) {
        throw new Error('Invalid function evaluation: ' + error.message);
      }
    ".

Definition testPoints : list num :=
  [literal 1 10; of_Z 1; of_Z 2; of_Z 3; of_Z 5].

(** [typeof testVal === 'number' && isFinite(testVal) && !isNaN(testVal)],
    [false] as well when the call threw. *)
Definition valid_probe (testFunc : num -> option js_value) (x : num) : bool :=
  match testFunc x with
  | Some (VNumber testVal) => isFinite testVal && negb (isNaN testVal)
  | Some VOther => false
  | None => false
  end.

(** The loop over [testPoints]: every point is tried, [hasValidPoints] is set
    by any valid one. *)
Definition hasValidPoints (testFunc : num -> option js_value) : bool :=
  fold_left (fun found x => if valid_probe testFunc x then true else found)
    testPoints false.

Record compiled : Type := { processed : option string; error : string }.

Definition no_valid_results : string :=
  "Function does not produce valid numeric results. Check your syntax and domain.".

(** [e.message || 'Invalid function syntax'] *)
Definition message_or_default (message : string) : string :=
  if String.eqb message "" then "Invalid function syntax" else message.

Definition processCustomFunction (rawFunction : string) : compiled :=
  if String.eqb (trim rawFunction) "" then
    {| processed := None; error := "" |}
  else
    let text := normalize rawFunction in
    match new_Function "x" (testFunc_body text) with
    | inl syntax_error =>
        {| processed := None; error := message_or_default syntax_error |}
    | inr testFunc =>
        if hasValidPoints testFunc
        then {| processed := Some text; error := "" |}
        else {| processed := None; error := message_or_default no_valid_results |}
    end.

End Compile.

End Utils.

(** ** Constants.jsx: predefined functions *)

Module Constants.
Section WithNumber.
Context {N : Number}.

Record entry : Type := {
  func : integrand;
  display : string;
  exact : num -> num -> num;
  description : string
}.

(** The entries of [predefinedFunctions] whose [func] and [exact] stay within
    the arithmetic of [Number] (the polynomial ones); the entries built on
    [Math.sin], [Math.exp], [Math.log], [Math.atan] and [Math.asin] are not
    modelled, and the calculator below takes the table as a parameter. *)
Definition predefinedFunctions : list (string * entry) :=
  [ ("x^2",
     {| func := fun x => Yields (x * x)%num;
        display := "x²";
        exact := fun a b => ((Math_pow b 3 - Math_pow a 3) / of_Z 3)%num;
        description := "Simple quadratic function - good for testing" |});
    ("x^3",
     {| func := fun x => Yields (x * x * x)%num;
        display := "x³";
        exact := fun a b => ((Math_pow b 4 - Math_pow a 4) / of_Z 4)%num;
        description := "Cubic function - tests higher-order accuracy" |});
    ("x^4 - 2x^2 + 3",
     {| func := fun x => Yields (Math_pow x 4 - of_Z 2 * Math_pow x 2 + of_Z 3)%num;
        display := "x⁴ - 2x² + 3";
        exact := fun a b =>
          ((Math_pow b 5 - Math_pow a 5) / of_Z 5
           - of_Z 2 * (Math_pow b 3 - Math_pow a 3) / of_Z 3
           + of_Z 3 * (b - a))%num;
        description := "Quartic polynomial - common in beam bending and statics" |}) ].

(** [table[key]]: [None] for [undefined]. *)
Fixpoint lookup (table : list (string * entry)) (key : string) : option entry :=
  match table with
  | [] => None
  | (k, e) :: rest => if String.eqb k key then Some e else lookup rest key
  end.

End WithNumber.
End Constants.

(** ** NumericalIntegrationCalculator: performCalculations *)

Module Calculator.
Section WithNumber.
Context {N : Number}.

(** The table imported from [Constants]. *)
Variable predefinedFunctions : list (string * Constants.entry).

(** The state of the component that a calculation reads.  [currentFunc] is the
    memoised function: the selected entry's [func], or the compiled custom
    text. *)
Record state : Type := {
  selectedFunction : string;
  customFunction : string;
  currentFunc : integrand;
  lowerLimit : num;
  upperLimit : num;
  intervals : Z;
  selectedMethods : list string
}.

(** One element of [results]; [None] is [null], and an absent
    [calculationError] is [None] too. *)
Record RuleResult : Type := {
  method_name : string;
  value : num;
  result_color : string;
  error : option num;
  errorEstimate : option num;
  relativeError : option num;
  calculationError : option string
}.

(** [predefinedFunctions[selectedFunction] && !customFunction ?
    predefinedFunctions[selectedFunction].exact(lowerLimit, upperLimit) : null] *)
Definition exactValue (st : state) : option num :=
  match Constants.lookup predefinedFunctions (selectedFunction st) with
  | Some e =>
      if String.eqb (customFunction st) ""
      then Some (Constants.exact e (lowerLimit st) (upperLimit st))
      else None
  | None => None
  end.

(** [exactValue ? then_(exactValue) : null]: the test is JavaScript's
    truthiness, which [null], [0] and [NaN] all fail. *)
Definition if_truthy (exactValue : option num) (then_ : num -> num) : option num :=
  match exactValue with
  | Some ev => if ToBoolean ev then Some (then_ ev) else None
  | None => None
  end.

(** The callback mapped over the selected methods: the result record and the
    method object after the calls; [None] when the fuel does not see
    [getErrorEstimate] end. *)
Definition calculate (fuel : nat) (random : nat -> num) (st : state) (m : method)
  : option (RuleResult * method) :=
  match integrate random m (currentFunc st) (lowerLimit st) (upperLimit st) (intervals st) with
  | (Return value, m') =>
      let exactValue := exactValue st in
      match getErrorEstimate fuel m' (currentFunc st) (lowerLimit st) (upperLimit st)
              (intervals st) with
      | None => None
      | Some estimate =>
          Some ({| method_name := name m;
                   value := value;
                   result_color := color m;
                   error := if_truthy exactValue (fun ev => Math_abs (value - ev)%num);
                   errorEstimate := estimate;
                   relativeError :=
                     if_truthy exactValue
                       (fun ev => (Math_abs ((value - ev) / ev) * of_Z 100)%num);
                   calculationError := None |}, m')
      end
  | (Throw e, m') =>
      Some ({| method_name := name m;
               value := NaN;
               result_color := color m;
               error := None;
               errorEstimate := None;
               relativeError := None;
               calculationError := Some (message_of e) |}, m')
  end.

(** [selectedMethods.includes(method.name)] *)
Definition includes (names : list string) (s : string) : bool :=
  existsb (String.eqb s) names.

(** [integrationMethods.filter(...).map(...)] over the objects of the
    registry, which the calls may update. *)
Fixpoint calculate_all (fuel : nat) (random : nat -> num) (st : state)
  (registry : list method) : option (list RuleResult * list method) :=
  match registry with
  | [] => Some ([], [])
  | m :: rest =>
      if includes (selectedMethods st) (name m) then
        match calculate fuel random st m with
        | None => None
        | Some (r, m') =>
            match calculate_all fuel random st rest with
            | None => None
            | Some (rs, rest') => Some (r :: rs, m' :: rest')
            end
        end
      else
        match calculate_all fuel random st rest with
        | None => None
        | Some (rs, rest') => Some (rs, m :: rest')
        end
  end.

(** What [performCalculations] leaves behind: the alert of an empty selection
    (the results are not touched), or the new results.  The convergence sweep
    it schedules afterwards is [Component.generateConvergenceData] below. *)
Inductive calculation : Type :=
| Alert (text : string)
| Results (results : list RuleResult).

Definition performCalculations (fuel : nat) (random : nat -> num) (st : state)
  (registry : list method) : option (calculation * list method) :=
  match selectedMethods st with
  | [] => Some (Alert "Please select at least one integration method.", registry)
  | _ =>
      match calculate_all fuel random st registry with
      | None => None
      | Some (results, registry') => Some (Results results, registry')
      end
  end.

End WithNumber.
End Calculator.

(** ** NumericalIntegrationCalculator: the other handlers *)

Module Component.
Section WithNumber.
Context {N : Number}.

(** [setSelectedMethods(prev => prev.includes(methodName)
      ? prev.filter(m => m !== methodName) : [...prev, methodName])] *)
Definition toggleMethod (prev : list string) (methodName : string) : list string :=
  if Calculator.includes prev methodName
  then filter (fun m => negb (String.eqb m methodName)) prev
  else (prev ++ [methodName])%list.

(** A JavaScript object with number-valued properties, in insertion order;
    a convergence point starts as [{ intervals: n }]. *)
Definition object : Type := list (string * num).

(** [point[key] = v]: an existing property keeps its place. *)
Fixpoint assign (point : object) (key : string) (v : num) : object :=
  match point with
  | [] => [(key, v)]
  | (k, w) :: rest =>
      if String.eqb k key then (k, v) :: rest else (k, w) :: assign rest key v
  end.

(** [point[key]]: [None] for [undefined]. *)
Fixpoint get (point : object) (key : string) : option num :=
  match point with
  | [] => None
  | (k, w) :: rest => if String.eqb k key then Some w else get rest key
  end.

(** [integrationMethods.find(m => m.name === methodName)] followed, when an
    object is found, by [method.integrate(func, a, b, n)] on that very object:
    [None] when nothing is found, else what the call did; the registry is
    returned with the found object as the call left it. *)
Fixpoint integrate_found (random : nat -> num) (registry : list method)
  (methodName : string) (func : integrand) (a b : num) (n : Z)
  : option (completion num) * list method :=
  match registry with
  | [] => (None, [])
  | m :: rest =>
      if String.eqb (name m) methodName then
        let '(r, m') := integrate random m func a b n in (Some r, m' :: rest)
      else
        let '(r, rest') := integrate_found random rest methodName func a b n in
        (r, m :: rest')
  end.

(** The body of [selectedMethods.forEach] for one name: the [try] assigns the
    value when [integrate] returns and skips the name when it throws.
    [random methodName] holds the draws of [Math.random()] for this call. *)
Definition sweep_method (random : string -> nat -> num) (st : Calculator.state) (n : Z)
  (acc : object * list method) (methodName : string) : object * list method :=
  let '(point, registry) := acc in
  match integrate_found (random methodName) registry methodName
          (Calculator.currentFunc st) (Calculator.lowerLimit st)
          (Calculator.upperLimit st) n with
  | (Some (Return v), registry') => (assign point methodName v, registry')
  | (Some (Throw _), registry') => (point, registry')
  | (None, registry') => (point, registry')
  end.

(** One iteration of the sweep: the point for [n]. *)
Definition sweep_point (random : string -> nat -> num) (st : Calculator.state) (n : Z)
  (registry : list method) : object * list method :=
  fold_left (sweep_method random st n) (Calculator.selectedMethods st)
    ([("intervals", of_Z n)], registry).

(** [for (let n = n0; ...; n += 2) data.push(point)], [k] iterations. *)
Fixpoint sweep (k : nat) (random : Z -> string -> nat -> num) (st : Calculator.state)
  (n : Z) (registry : list method) : list object * list method :=
  match k with
  | O => ([], registry)
  | S k' =>
      let '(point, registry') := sweep_point (random n) st n registry in
      let '(data, registry'') := sweep k' random st (n + 2) registry' in
      (point :: data, registry'')
  end.

(** [generateConvergenceData]: nothing happens ([None]) while the results of
    the last calculation are empty; otherwise [for (let n = 2; n <= 50;
    n += 2)] runs its 25 iterations and the data is stored.  [random n name]
    holds the draws for the call at the interval count [n] on the method
    [name]. *)
Definition generateConvergenceData (random : Z -> string -> nat -> num)
  (calculationResults : list Calculator.RuleResult) (st : Calculator.state)
  (registry : list method) : option (list object * list method) :=
  match calculationResults with
  | [] => None
  | _ => Some (sweep 25 random st 2 registry)
  end.

(** The state that [handleProcessFunction] writes. *)
Record function_state : Type := {
  processedFunction : option string;
  functionError : string;
  customFunction : string;
  shouldCalculate : bool
}.

(** [handleProcessFunction]: [if (result.processed)] is false for [null] and
    for the empty string. *)
Definition handleProcessFunction
  (new_Function : string -> string -> string + (num -> option Utils.js_value))
  (rawFunction : string) : function_state :=
  let result := Utils.processCustomFunction new_Function rawFunction in
  {| processedFunction := Utils.processed result;
     functionError := Utils.error result;
     customFunction :=
       match Utils.processed result with
       | Some text => if String.eqb text "" then "" else text
       | None => ""
       end;
     shouldCalculate := true |}.

(** The test of [currentFunc]: when [customFunction && !functionError] holds
    the custom text is compiled and used; when it fails (or the compilation
    throws) the selected predefined function is. *)
Definition uses_custom_function (fs : function_state) : bool :=
  negb (String.eqb (customFunction fs) "") && String.eqb (functionError fs) "".

End WithNumber.
End Component.

(** * The vocabulary of the properties *)

(** A string of white space only (the empty string included). *)
Fixpoint blank (s : string) : bool :=
  match s with
  | EmptyString => true
  | String c s' => Text.is_space c && blank s'
  end.

(** The integers [i], [i + 1], ... ([k] of them), and the integers [lo], ...,
    [hi - 1] that [for (let i = lo; i < hi; i++)] runs through. *)
Fixpoint count_from (k : nat) (i : Z) : list Z :=
  match k with
  | O => []
  | S k' => i :: count_from k' (i + 1)
  end.

Definition range (lo hi : Z) : list Z := count_from (Z.to_nat (hi - lo)) lo.

Section Vocabulary.
Context {N : Number}.

(** The integrand returns at [x]. *)
Definition defined_at (func : integrand) (x : num) : Prop :=
  exists y, func x = Yields y.

(** A completion that returns. *)
Definition returns {A : Type} (c : completion A) : Prop :=
  exists v, c = Return v.

(** A completion whose only way to throw is an exception of the integrand. *)
Definition throws_only_uncaught {A : Type} (c : completion A) : Prop :=
  forall e, c = Throw e -> exists m, e = Uncaught m.

(** The points at which [SimpsonsRule3By8.integrate] calls the integrand once
    [n] has passed the guard: the main block, then the remainder panel. *)
Definition simpson38_nodes (a b : num) (n : Z) : list num :=
  let remainder := Z.rem n 3 in
  let h := ((b - a) / of_Z n)%num in
  let mainN := n - remainder in
  ((if mainN >=? 3
    then a :: (a + of_Z mainN * h)%num
           :: map (fun i => (a + of_Z i * h)%num) (range 1 mainN)
    else [])
   ++
   (if remainder >? 0
    then let remA := (a + of_Z mainN * h)%num in
         remA :: b :: map (fun i => (remA + of_Z i * h)%num) (range 1 remainder)
    else []))%list.

(** The integrand returns a finite number at every point of a list. *)
Definition finite_on (func : integrand) (nodes : list num) : Prop :=
  Forall (fun x => exists y, func x = Yields y /\ isFinite y = true) nodes.

(** The points at which each [integrate] calls the integrand, in the words of
    its loop. *)
Definition simpsonRule_nodes (a b : num) (n : Z) : list num :=
  let h := ((b - a) / of_Z n)%num in
  a :: b :: map (fun i => (a + of_Z i * h)%num) (range 1 n).

Definition trapezoidal_nodes (a b : num) (n : Z) : list num :=
  let h := ((b - a) / of_Z n)%num in
  a :: b :: map (fun i => (a + of_Z i * h)%num) (range 1 n).

Definition midpoint_nodes (a b : num) (n : Z) : list num :=
  let h := ((b - a) / of_Z n)%num in
  map (fun i => (a + (of_Z i + literal 5 10) * h)%num) (range 0 n).

Definition simpson13_nodes (a b : num) (n : Z) : list num :=
  if Z.rem n 2 =? 0 then simpsonRule_nodes a b n
  else
    let h := ((b - a) / of_Z n)%num in
    let splitPoint := (b - h)%num in
    (simpsonRule_nodes a splitPoint (n - 1) ++ [splitPoint; b])%list.

Definition monte_carlo_nodes (random : nat -> num) (a b : num) (n : Z) : list num :=
  map (fun i => (a + random (Z.to_nat i) * (b - a))%num) (range 0 n).
(** A function that never throws, as an integrand. *)
Definition total (f : num -> num) : integrand := fun x => Yields (f x).

(** The sum of [term i] over the indices [i] of a list. *)
Definition sum_over (indices : list Z) (term : Z -> num) : num :=
  fold_right (fun i acc => (term i + acc)%num) (of_Z 0) indices.

(** The classical composite Simpson 1/3 formula in the words of the
    specification, [(h/3) * (f(a) + f(b) + 4 * (sum of f(x_i) over odd i)
    + 2 * (sum of f(x_i) over even i, 0 < i < n))] with [h = (b - a) / n] and
    [x_i = a + i * h]: the reference the source's loop is compared with. *)
Definition classical_simpson (f : num -> num) (a b : num) (n : Z) : num :=
  let h := ((b - a) / of_Z n)%num in
  let x := fun i => (a + of_Z i * h)%num in
  ((h / of_Z 3)
   * (f a + f b
      + of_Z 4 * sum_over (filter Z.odd (range 1 n)) (fun i => f (x i))
      + of_Z 2 * sum_over (filter Z.even (range 1 n)) (fun i => f (x i))))%num.

End Vocabulary.

(** A function of the reals as a function of the extended reals ([NaN]
    outside the reals). *)
Definition real_function (g : R -> R) : @num exact -> @num exact :=
  fun x =>
    match x with
    | ExtendedReal.Fin r => ExtendedReal.Fin (g r)
    | _ => ExtendedReal.NotANumber
    end.

(** An integrand that is a function of the reals [g] on the reals. *)
Definition real_valued (func : @integrand exact) (g : R -> R) : Prop :=
  forall r, func (ExtendedReal.Fin r) = Yields (ExtendedReal.Fin (g r)).

(** An integrand that is finite wherever it is called: the square of a real,
    0 elsewhere. *)
Definition square_or_zero : @integrand exact :=
  fun x =>
    @Yields exact
      match x with
      | ExtendedReal.Fin r => ExtendedReal.Fin (r * r)
      | _ => ExtendedReal.Fin 0
      end.

(** A completion that returns a finite number. *)
Definition returns_finite (c : completion (@num exact)) : Prop :=
  exists r : R, c = Return (ExtendedReal.Fin r).

(** The sum of [term j] over a list of indices, in the reals. *)
Definition Rsum (term : Z -> R) (indices : list Z) : R :=
  fold_right (fun j acc => (term j + acc)%R) 0%R indices.

(** The weight of the inner node [j] in [simpsonRule]. *)
Definition simpson_weight (j : Z) : R := if Z.rem j 2 =? 0 then 2%R else 4%R.

Section ResultVocabulary.
Context {N : Number}.

(** A result record is either a value with no failure marker, or the failure
    marker with [NaN] and no figures. *)
Definition well_formed (r : Calculator.RuleResult) : Prop :=
  Calculator.calculationError r = None
  \/ (Calculator.value r = NaN /\ Calculator.error r = None
      /\ Calculator.errorEstimate r = None /\ Calculator.relativeError r = None).

(** The objects of the registry whose name is selected, in the order of the
    registry. *)
Definition selected (st : Calculator.state) (registry : list method) : list method :=
  filter (fun m => Calculator.includes (Calculator.selectedMethods st) (name m)) registry.

End ResultVocabulary.

Section ConvergenceVocabulary.
Context {N : Number}.

(** The interval counts of the convergence sweep: 2, 4, ..., 50. *)
Definition sweep_counts : list Z := map (fun k => 2 * (Z.of_nat k + 1)) (seq 0 25).

(** What the convergence chart has to show for a name at the interval count
    [n]: the value of the registered method of that name when the name is
    selected and [integrate] returns, and nothing otherwise. *)
Definition plotted (random : string -> nat -> num) (st : Calculator.state) (n : Z)
  (registry : list method) (methodName : string) : option num :=
  if Calculator.includes (Calculator.selectedMethods st) methodName then
    match find_method registry methodName with
    | Some m =>
        match fst (integrate (random methodName) m (Calculator.currentFunc st)
                     (Calculator.lowerLimit st) (Calculator.upperLimit st) n) with
        | Return v => Some v
        | Throw _ => None
        end
    | None => None
    end
  else None.

(** Two registries that hold objects of the same names and classes, in the
    same order. *)
Definition same_rules (registry registry' : list method) : Prop :=
  Forall2 (fun m m' => name m' = name m /\ class_of m' = class_of m) registry registry'.

End ConvergenceVocabulary.

(** Every code unit of a string passes a test. *)
Fixpoint every (P : ascii -> bool) (s : string) : bool :=
  match s with
  | EmptyString => true
  | String c s' => P c && every P s'
  end.

(** A string without its white space. *)
Fixpoint squeeze (s : string) : string :=
  match s with
  | EmptyString => EmptyString
  | String c s' => if Text.is_space c then squeeze s' else String c (squeeze s')
  end.

(** No two neighbours in a string are related by [R]. *)
Fixpoint no_pair (R : ascii -> ascii -> bool) (s : string) : bool :=
  match s with
  | EmptyString => true
  | String c s' =>
      match s' with
      | String d _ => negb (R c d)
      | EmptyString => true
      end && no_pair R s'
  end.

(** A matcher that puts only code units passing [P] into a text whose code
    units pass [P]. *)
Definition inserts_only (P : ascii -> bool) (m : Text.matcher) : Prop :=
  forall prev rest text len,
    every P rest = true -> m prev rest = Some (text, len) -> every P text = true.

(** A matcher that never replaces a match by the empty string. *)
Definition inserts_text (m : Text.matcher) : Prop :=
  forall prev rest text len, m prev rest = Some (text, len) -> text <> "".

(** The neighbours that one of the five implicit products of the compiler
    would join: a code unit passing [p] followed by one passing [q]. *)
Definition joins (p q : ascii -> bool) : ascii -> ascii -> bool :=
  fun c d => p c && q d.

(** The polynomial [c0 + c1 x + c2 x^2 + c3 x^3 + c4 x^4] and its integral
    from [a] to [b]. *)
Definition quartic (c0 c1 c2 c3 c4 : R) : R -> R :=
  fun x => (c0 + c1 * x + c2 * x ^ 2 + c3 * x ^ 3 + c4 * x ^ 4)%R.

Definition quartic_integral (c0 c1 c2 c3 c4 a b : R) : R :=
  (c0 * (b - a) + c1 * (b ^ 2 - a ^ 2) / 2 + c2 * (b ^ 3 - a ^ 3) / 3
   + c3 * (b ^ 4 - a ^ 4) / 4 + c4 * (b ^ 5 - a ^ 5) / 5)%R.

(** The weight of the inner node [j] in the main block of Simpson 3/8. *)
Definition simpson38_weight (j : Z) : R := if Z.rem j 3 =? 0 then 2%R else 3%R.



(** A rule, as a function of the two limits, whose result changes sign when
    the limits are exchanged. *)
Definition flips (rule : @num exact -> @num exact -> completion (@num exact)) (a b : R)
  : Prop :=
  exists v : R,
    rule (ExtendedReal.Fin a) (ExtendedReal.Fin b) = Return (ExtendedReal.Fin v)
    /\ rule (ExtendedReal.Fin b) (ExtendedReal.Fin a) = Return (ExtendedReal.Fin (- v)).

(** * Properties *)

(** ** The registry *)

(** C1, as amended.  The registry that callers import holds a usable object
    for each of the identifiers Trapezoidal Rule, Simpson's 1/3, Simpson's 3/8
    and Monte Carlo: the lookup finds the object, and its [integrate] is the
    method of its class.  The Midpoint identifier is not registered (its entry
    is commented out in the source): the lookup finds nothing, although the
    class is implemented and an object built from it integrates. *)
Theorem registry_holds_four_rules_and_no_midpoint :
  forall (N : Number) (random : nat -> num) (func : integrand) (a b : num) (n : Z),
    map name integrationMethods
      = ["Trapezoidal Rule"; "Simpson's 1/3"; "Simpson's 3/8"; "Monte Carlo"]
    /\ (find_method integrationMethods "Trapezoidal Rule" = Some new_TrapezoidalRule
        /\ fst (integrate random new_TrapezoidalRule func a b n)
           = TrapezoidalRule.integrate func a b n)
    /\ (find_method integrationMethods "Simpson's 1/3" = Some new_SimpsonsRule1By3
        /\ fst (integrate random new_SimpsonsRule1By3 func a b n)
           = SimpsonsRule1By3.integrate func a b n)
    /\ (find_method integrationMethods "Simpson's 3/8" = Some new_SimpsonsRule3By8
        /\ fst (integrate random new_SimpsonsRule3By8 func a b n)
           = SimpsonsRule3By8.integrate func a b n)
    /\ (find_method integrationMethods "Monte Carlo" = Some new_MonteCarloIntegration
        /\ fst (integrate random new_MonteCarloIntegration func a b n)
           = fst (MonteCarloIntegration.integrate random None func a b n))
    /\ (find_method integrationMethods (name new_MidpointRule) = None
        /\ name new_MidpointRule = "Midpoint Rule"
        /\ fst (integrate random new_MidpointRule func a b n)
           = MidpointRule.integrate func a b n).
Proof.
  intros N random func a b n. repeat split.
  unfold integrate. cbn [class_of new_MonteCarloIntegration lastSamples].
  destruct (MonteCarloIntegration.integrate random None func a b n) as [r s].
  reflexivity.
Qed.

(** C1, as stated, fails: the Midpoint identifier selects no rule of the
    registry. *)
Lemma midpoint_is_not_registered :
  find_method (@integrationMethods binary64) "Midpoint Rule" = None.
Proof. reflexivity. Qed.

(** ** Monte Carlo: the sample cache *)

(** C9.  On a Monte Carlo object fresh from its constructor, on which
    [integrate] was never called, [getErrorEstimate] answers [null] whatever
    its arguments, and does so without running any loop (no fuel is needed). *)
Theorem monte_carlo_estimate_before_integrate :
  forall (N : Number) (fuel : nat) (func : integrand) (a b : num) (n : Z),
    lastSamples (@new_MonteCarloIntegration N) = None
    /\ MonteCarloIntegration.getErrorEstimate
         (lastSamples new_MonteCarloIntegration) func a b n = None
    /\ getErrorEstimate fuel new_MonteCarloIntegration func a b n = Some None.
Proof.
  intros. repeat split.
Qed.

(** ** The compiler *)

Section CompilerFacts.
Import Text Utils.
Context {N : Number}.


Lemma trimStart_blank : forall s, blank s = true -> trimStart s = EmptyString.
Proof.
  induction s as [|c s IH]; simpl; intro H.
  - reflexivity.
  - apply andb_true_iff in H as [Hc Hs]. rewrite Hc. auto.
Qed.

Lemma trim_blank : forall s, blank s = true -> trim s = EmptyString.
Proof.
  intros s H. unfold trim. rewrite (trimStart_blank s H). reflexivity.
Qed.

Lemma hasValidPoints_fold :
  forall (testFunc : num -> option js_value) (points : list num) (found : bool),
    fold_left (fun found x => if valid_probe testFunc x then true else found) points found
    = found || existsb (valid_probe testFunc) points.
Proof.
  intros testFunc points. induction points as [|x points IH]; intro found; simpl.
  - now rewrite orb_false_r.
  - rewrite IH. destruct (valid_probe testFunc x), found; reflexivity.
Qed.

Lemma hasValidPoints_exists :
  forall testFunc : num -> option js_value,
    hasValidPoints testFunc = true
    <-> exists x, In x testPoints /\ valid_probe testFunc x = true.
Proof.
  intro testFunc. unfold hasValidPoints. rewrite hasValidPoints_fold.
  change (false || existsb (valid_probe testFunc) testPoints)
    with (existsb (valid_probe testFunc) testPoints).
  apply existsb_exists.
Qed.

(** A probe is valid exactly when the call returns a number that is finite and
    not [NaN]. *)
Lemma valid_probe_iff :
  forall (testFunc : num -> option js_value) (x : num),
    valid_probe testFunc x = true
    <-> exists v, testFunc x = Some (VNumber v) /\ isFinite v = true /\ isNaN v = false.
Proof.
  intros testFunc x. unfold valid_probe. split.
  - destruct (testFunc x) as [[v|]|]; try discriminate.
    intro H. apply andb_true_iff in H as [Hf Hn]. apply negb_true_iff in Hn.
    exists v. auto.
  - intros [v [-> [Hf Hn]]]. now rewrite Hf, Hn.
Qed.

End CompilerFacts.

(** C10.  For an input that is empty or white space only, the compiler returns
    the record with no callable text and the empty error message, whatever the
    host's [Function] constructor would do: the constructor is not reached. *)
Theorem blank_input_is_neither_compiled_nor_an_error :
  forall (N : Number) (new_Function : string -> string -> string + (num -> option Utils.js_value))
         (rawFunction : string),
    blank rawFunction = true ->
    Utils.processCustomFunction new_Function rawFunction
    = {| Utils.processed := None; Utils.error := "" |}.
Proof.
  intros N new_Function rawFunction H. unfold Utils.processCustomFunction.
  rewrite (trim_blank _ H). reflexivity.
Qed.

(** C8, as amended.  For an input that is not blank (not empty once trimmed)
    and whose normalized text the host compiles to a callable, the compiler
    succeeds (returns the normalized text
    and no error message) exactly when at one of the probes 0.1, 1, 2, 3, 5 the
    callable returns a number that is finite and not [NaN]; a probe that throws
    or returns anything else only fails to count.  When no probe is valid the
    result has no text and carries the message [no_valid_results]. *)
Theorem compile_succeeds_iff_some_probe_is_valid :
  forall (N : Number) (new_Function : string -> string -> string + (num -> option Utils.js_value))
         (rawFunction : string) (testFunc : num -> option Utils.js_value),
    Text.trim rawFunction <> "" ->
    new_Function "x" (Utils.testFunc_body (Utils.normalize rawFunction)) = inr testFunc ->
    let result := Utils.processCustomFunction new_Function rawFunction in
    let some_probe_is_valid :=
      exists x v,
        In x [literal 1 10; of_Z 1; of_Z 2; of_Z 3; of_Z 5]
        /\ testFunc x = Some (Utils.VNumber v) /\ isFinite v = true /\ isNaN v = false in
    (result = {| Utils.processed := Some (Utils.normalize rawFunction); Utils.error := "" |}
     <-> some_probe_is_valid)
    /\ (~ some_probe_is_valid ->
        result = {| Utils.processed := None; Utils.error := Utils.no_valid_results |}).
Proof.
  intros N new_Function rawFunction testFunc Hraw Hnew result some_probe_is_valid.
  assert (Hiff : Utils.hasValidPoints testFunc = true <-> some_probe_is_valid).
  { rewrite hasValidPoints_exists. unfold some_probe_is_valid. split.
    - intros [x [Hin Hv]]. apply valid_probe_iff in Hv as [v Hv]. exists x, v. auto.
    - intros [x [v [Hin Hv]]]. exists x. split; [exact Hin|].
      apply valid_probe_iff. exists v. exact Hv. }
  assert (Hres : result =
            if Utils.hasValidPoints testFunc
            then {| Utils.processed := Some (Utils.normalize rawFunction); Utils.error := "" |}
            else {| Utils.processed := None; Utils.error := Utils.no_valid_results |}).
  { unfold result, Utils.processCustomFunction.
    destruct (String.eqb_spec (Text.trim rawFunction) "") as [E|_]; [contradiction|].
    rewrite Hnew. reflexivity. }
  rewrite Hres. destruct (Utils.hasValidPoints testFunc) eqn:Hp; split.
  - split; intro; [now apply Hiff | reflexivity].
  - intro Hno. exfalso. apply Hno. now apply Hiff.
  - split; [discriminate|]. intro Hs. apply Hiff in Hs. discriminate.
  - reflexivity.
Qed.

(** C8, as stated, fails at a non-empty input of white space: its normalized
    text is empty, the host compiles [return ;] to a callable that returns
    [undefined] at every probe, and the compiler answers with no text and the
    empty message, which is not a domain error carrying a message. *)
Lemma white_space_input_is_no_domain_error :
  let returns_undefined : @num binary64 -> option Utils.js_value := fun _ => Some Utils.VOther in
  let host : string -> string -> string + (@num binary64 -> option Utils.js_value) :=
    fun _ _ => inr returns_undefined in
  String.eqb " " "" = false
  /\ Utils.normalize " " = ""
  /\ host "x" (Utils.testFunc_body (Utils.normalize " ")) = inr returns_undefined
  /\ Utils.hasValidPoints returns_undefined = false
  /\ Utils.processCustomFunction host " " = {| Utils.processed := None; Utils.error := "" |}.
Proof.
  repeat split.
Qed.

(** C7.  The compiler's output on the shorthand [e^]: the whole-word rewrite
    of the constant [e] runs first and turns the [e] of [e^] into [Math.E],
    which the case-sensitive [/e\s*\^/] no longer matches; the generic rewrite
    of [^] then makes the text a power of the constant, and no call of
    [Math.exp] appears. *)
Theorem e_caret_becomes_a_power_of_the_constant :
  Utils.normalize "e^x" = "Math.E**x"
  /\ Utils.normalize "e^(2x)" = "Math.E**(2*x)"
  /\ Utils.normalize "3*e ^ x" = "3*Math.E**x".
Proof.
  repeat split; vm_compute; reflexivity.
Qed.

(** ** How a rule completes *)

Section CompletionFacts.
Context {N : Number}.


Lemma call_defined : forall func x, defined_at func x -> returns (call func x).
Proof.
  intros func x [y Hy]. exists y. unfold call. now rewrite Hy.
Qed.

Lemma call_throws_only_uncaught : forall func x, throws_only_uncaught (call func x).
Proof.
  intros func x e. unfold call. destruct (func x) as [y|m]; [discriminate|].
  intro H. injection H as <-. now exists m.
Qed.

Lemma Return_throws_only_uncaught : forall (A : Type) (v : A),
  throws_only_uncaught (Return v).
Proof. intros A v e H. discriminate. Qed.

Lemma Return_returns : forall (A : Type) (v : A), returns (Return v).
Proof. intros A v. now exists v. Qed.

Lemma bind_returns : forall (A B : Type) (c : completion A) (k : A -> completion B),
  returns c -> (forall v, returns (k v)) -> returns (bind c k).
Proof.
  intros A B c k [v ->] Hk. apply Hk.
Qed.

Lemma bind_throws_only_uncaught :
  forall (A B : Type) (c : completion A) (k : A -> completion B),
    throws_only_uncaught c -> (forall v, throws_only_uncaught (k v)) ->
    throws_only_uncaught (bind c k).
Proof.
  intros A B c k Hc Hk e. destruct c as [v|e']; simpl.
  - apply Hk.
  - intro H. injection H as <-. now apply Hc.
Qed.

Lemma for_range_returns :
  forall (A : Type) (body : Z -> A -> completion A) (k : nat) (i : Z) (acc : A),
    (forall j acc', i <= j < i + Z.of_nat k -> returns (body j acc')) ->
    returns (for_range k i body acc).
Proof.
  intros A body k. induction k as [|k IH]; intros i acc H; simpl.
  - apply Return_returns.
  - apply bind_returns.
    + apply H. lia.
    + intro v. apply IH. intros j acc' Hj. apply H. lia.
Qed.

Lemma for_loop_returns :
  forall (A : Type) (body : Z -> A -> completion A) (lo hi : Z) (acc : A),
    (forall j acc', lo <= j < hi -> returns (body j acc')) ->
    returns (for_loop lo hi body acc).
Proof.
  intros A body lo hi acc H. unfold for_loop. apply for_range_returns.
  intros j acc' Hj. apply H. lia.
Qed.

Lemma for_range_throws_only_uncaught :
  forall (A : Type) (body : Z -> A -> completion A) (k : nat) (i : Z) (acc : A),
    (forall j acc', throws_only_uncaught (body j acc')) ->
    throws_only_uncaught (for_range k i body acc).
Proof.
  intros A body k. induction k as [|k IH]; intros i acc H; simpl.
  - apply Return_throws_only_uncaught.
  - apply bind_throws_only_uncaught; [apply H|]. intro v. now apply IH.
Qed.



Lemma in_count_from : forall k i j, i <= j < i + Z.of_nat k -> In j (count_from k i).
Proof.
  induction k as [|k IH]; intros i j Hj; simpl.
  - lia.
  - destruct (Z.eq_dec i j) as [E|E]; [now left|right]. apply IH. lia.
Qed.

Lemma in_range : forall lo hi j, lo <= j < hi -> In j (range lo hi).
Proof.
  intros lo hi j Hj. unfold range. apply in_count_from. lia.
Qed.

End CompletionFacts.

(** ** Simpson's 3/8 *)

Section Simpson38Facts.
Context {N : Number}.


Lemma simpson38_guard :
  forall (func : integrand) (a b : num) (n : Z),
    n < 3 ->
    SimpsonsRule3By8.integrate func a b n = Throw (Error SimpsonsRule3By8.too_few_intervals).
Proof.
  intros func a b n Hn. unfold SimpsonsRule3By8.integrate.
  destruct (Z.ltb_spec n 3); [reflexivity|lia].
Qed.

Lemma simpson38_throws_only_uncaught :
  forall (func : integrand) (a b : num) (n : Z),
    3 <= n -> throws_only_uncaught (SimpsonsRule3By8.integrate func a b n).
Proof.
  intros func a b n Hn. unfold SimpsonsRule3By8.integrate.
  destruct (Z.ltb_spec n 3); [lia|].
  apply bind_throws_only_uncaught.
  - destruct (n - Z.rem n 3 >=? 3); [|apply Return_throws_only_uncaught].
    repeat (apply bind_throws_only_uncaught;
            [first [apply call_throws_only_uncaught | idtac] | intro]).
    + apply for_range_throws_only_uncaught. intros j acc'.
      destruct (Z.rem j 3 =? 0);
        (apply bind_throws_only_uncaught;
         [apply call_throws_only_uncaught | intro; apply Return_throws_only_uncaught]).
    + apply Return_throws_only_uncaught.
  - intro total. apply bind_throws_only_uncaught; [|intro; apply Return_throws_only_uncaught].
    destruct (Z.rem n 3 >? 0); [|apply Return_throws_only_uncaught].
    repeat (apply bind_throws_only_uncaught;
            [first [apply call_throws_only_uncaught | idtac] | intro]).
    + apply for_range_throws_only_uncaught. intros j acc'.
      apply bind_throws_only_uncaught;
        [apply call_throws_only_uncaught | intro; apply Return_throws_only_uncaught].
    + apply Return_throws_only_uncaught.
Qed.

Lemma simpson38_returns :
  forall (func : integrand) (a b : num) (n : Z),
    3 <= n ->
    Forall (defined_at func) (simpson38_nodes a b n) ->
    returns (SimpsonsRule3By8.integrate func a b n).
Proof.
  intros func a b n Hn Hdef. unfold SimpsonsRule3By8.integrate.
  destruct (Z.ltb_spec n 3); [lia|].
  rewrite Forall_forall in Hdef. unfold simpson38_nodes in Hdef.
  apply bind_returns.
  - destruct (n - Z.rem n 3 >=? 3); [|apply Return_returns].
    apply bind_returns; [apply call_defined, Hdef, in_or_app; left; simpl; auto|intro fa].
    apply bind_returns; [apply call_defined, Hdef, in_or_app; left; simpl; auto|intro fm].
    apply bind_returns; [|intro; apply Return_returns].
    apply for_loop_returns. intros j acc' Hj.
    assert (Hd : defined_at func (a + of_Z j * ((b - a) / of_Z n))%num).
    { apply Hdef, in_or_app. left. right. right.
      apply in_map_iff. exists j. split; [reflexivity|now apply in_range]. }
    destruct (Z.rem j 3 =? 0);
      (apply bind_returns; [now apply call_defined | intro; apply Return_returns]).
  - intro total. apply bind_returns; [|intro; apply Return_returns].
    destruct (Z.rem n 3 >? 0); [|apply Return_returns].
    apply bind_returns; [apply call_defined, Hdef, in_or_app; right; simpl; auto|intro fa].
    apply bind_returns; [apply call_defined, Hdef, in_or_app; right; simpl; auto|intro fb].
    apply bind_returns; [|intro; apply Return_returns].
    apply for_loop_returns. intros j acc' Hj.
    apply bind_returns; [|intro; apply Return_returns].
    apply call_defined, Hdef, in_or_app. right. right. right.
    apply in_map_iff. exists j. split; [reflexivity|now apply in_range].
Qed.

End Simpson38Facts.

(** C5.  [SimpsonsRule3By8.integrate] throws its own error (the parameter
    error, with the message [too_few_intervals]) exactly when [n < 3], before
    the integrand is touched; for [n >= 3] and an integrand that returns at
    every sampled node, it returns a value. *)
Theorem simpson38_parameter_error_iff :
  forall (N : Number) (func : integrand) (a b : num) (n : Z),
    ((exists message, SimpsonsRule3By8.integrate func a b n = Throw (Error message))
     <-> n < 3)
    /\ (n < 3 ->
        SimpsonsRule3By8.integrate func a b n
        = Throw (Error "Simpson's 3/8 rule requires at least 3 intervals."))
    /\ (3 <= n ->
        Forall (defined_at func) (simpson38_nodes a b n) ->
        exists v, SimpsonsRule3By8.integrate func a b n = Return v).
Proof.
  intros N func a b n. split; [split|split].
  - intros [message H]. destruct (Z.lt_ge_cases n 3) as [Hlt|Hge]; [exact Hlt|].
    destruct (simpson38_throws_only_uncaught func a b Hge H) as [m Hm]. discriminate.
  - intro Hlt. eexists. now apply simpson38_guard.
  - intro Hlt. now apply simpson38_guard.
  - intros Hge Hdef. now apply simpson38_returns.
Qed.

(** ** Simpson's 1/3 in exact arithmetic *)

Section ExactFacts.
Import ExtendedReal.

Lemma count_from_app : forall k1 k2 i,
  count_from (k1 + k2) i = (count_from k1 i ++ count_from k2 (i + Z.of_nat k1))%list.
Proof.
  induction k1 as [|k1 IH]; intros k2 i.
  - simpl. now rewrite Z.add_0_r.
  - cbn [count_from Nat.add app]. rewrite IH. do 3 f_equal. lia.
Qed.

Lemma Rsum_app : forall term l1 l2,
  Rsum term (l1 ++ l2) = (Rsum term l1 + Rsum term l2)%R.
Proof.
  intros term l1 l2. induction l1 as [|j l1 IH]; simpl.
  - lra.
  - rewrite IH. lra.
Qed.

(** A loop whose body adds a real term to a finite accumulator returns the
    finite sum. *)
Lemma for_range_exact :
  forall (body : Z -> @num exact -> completion (@num exact)) (term : Z -> R)
         (k : nat) (i : Z) (s : R),
    (forall j s', i <= j < i + Z.of_nat k -> body j (Fin s') = Return (Fin (s' + term j))) ->
    for_range k i body (Fin s) = Return (Fin (s + Rsum term (count_from k i))).
Proof.
  intros body term k. induction k as [|k IH]; intros i s H; simpl.
  - now rewrite Rplus_0_r.
  - rewrite H by lia. simpl. rewrite IH by (intros; apply H; lia).
    now rewrite Rplus_assoc.
Qed.

Lemma exact_div : forall x y : R,
  y <> 0%R -> @ndiv exact (Fin x) (Fin y) = Fin (x / y).
Proof.
  intros x y Hy. cbn. destruct (Req_dec_T y 0); [contradiction|reflexivity].
Qed.

Lemma simpsonRule_exact :
  forall (func : @integrand exact) (g : R -> R) (a b : R) (n : Z),
    real_valued func g -> n <> 0 ->
    let h := ((b - a) / IZR n)%R in
    SimpsonsRule1By3.simpsonRule func (Fin a) (Fin b) n
    = Return (Fin ((g a + g b
                    + Rsum (fun j => simpson_weight j * g (a + IZR j * h))%R (range 1 n))
                   * h / 3)).
Proof.
  intros func g a b n Hg Hn h. unfold SimpsonsRule1By3.simpsonRule.
  assert (Hh : @ndiv exact (@nsub exact (Fin b) (Fin a)) (of_Z n) = Fin h).
  { apply exact_div. intro E. apply Hn. now apply eq_IZR. }
  rewrite Hh. unfold call at 1 2. rewrite !Hg. cbn [bind].
  unfold for_loop. change (@nadd exact (Fin (g a)) (Fin (g b))) with (Fin (g a + g b)).
  rewrite for_range_exact with (term := (fun j => simpson_weight j * g (a + IZR j * h))%R).
  - cbn [bind]. cbn. destruct (Req_dec_T 3 0); [lra|]. reflexivity.
  - intros j s' _. unfold call. cbn. rewrite Hg. cbn. unfold simpson_weight.
    destruct (Z.rem j 2 =? 0); reflexivity.
Qed.

(** The weighted squares of the inner nodes [1], ..., [2k+1]. *)
Lemma square_sum : forall (h : R) (k : nat),
  Rsum (fun j => simpson_weight j * ((0 + IZR j * h) * (0 + IZR j * h)))%R
    (count_from (2 * k + 1) 1)
  = (4 * (INR k + 1) * (INR k + 1) * (2 * INR k + 1) * h * h)%R.
Proof.
  intros h k. induction k as [|k IH].
  - simpl. unfold simpson_weight. simpl. lra.
  - replace (2 * S k + 1)%nat with ((2 * k + 1) + 2)%nat by lia.
    rewrite count_from_app, Rsum_app, IH. cbn [count_from Rsum fold_right].
    replace (1 + Z.of_nat (2 * k + 1)) with (2 * (Z.of_nat k + 1)) by lia.
    unfold simpson_weight.
    replace (Z.rem (2 * (Z.of_nat k + 1)) 2) with 0
      by (symmetry; rewrite Z.mul_comm; apply Z.rem_mul; lia).
    replace (Z.rem (2 * (Z.of_nat k + 1) + 1) 2) with 1.
    2:{ symmetry. rewrite Z.rem_mod_nonneg by lia.
        rewrite Z.add_comm, Z.mul_comm, Z.mod_add by lia. reflexivity. }
    change (0 =? 0) with true. change (1 =? 0) with false. cbv iota.
    rewrite !plus_IZR, !mult_IZR, !plus_IZR, <- !INR_IZR_INZ, S_INR. ring.
Qed.

End ExactFacts.

(** C6.  In exact arithmetic, Simpson 1/3 on [f(x) = x * x] over [[0, 2]]
    returns exactly [8/3] for every even interval count [n >= 2]. *)
Theorem simpson13_is_exact_on_the_square :
  forall n : Z,
    2 <= n -> Z.even n = true ->
    SimpsonsRule1By3.integrate (N := exact) (total (fun x => x * x)%num)
      (of_Z 0) (of_Z 2) n
    = Return (ExtendedReal.Fin (8 / 3)).
Proof.
  intros n Hn Heven. unfold SimpsonsRule1By3.integrate.
  rewrite <- Zeven_rem, Heven.
  change (@of_Z exact 0) with (ExtendedReal.Fin 0).
  change (@of_Z exact 2) with (ExtendedReal.Fin 2).
  rewrite simpsonRule_exact with (g := fun r => (r * r)%R); [|intro r; reflexivity|lia].
  do 2 f_equal.
  assert (Hk : exists k : nat, n = 2 * (Z.of_nat k + 1)).
  { exists (Z.to_nat (n / 2 - 1)).
    rewrite Zeven_rem in Heven. apply Z.eqb_eq in Heven.
    pose proof (Z.rem_mod_nonneg n 2 ltac:(lia) ltac:(lia)) as Hm. rewrite Heven in Hm.
    pose proof (Z.div_mod n 2 ltac:(lia)).
    assert (1 <= n / 2) by (apply Z.div_le_lower_bound; lia). lia. }
  destruct Hk as [k ->]. unfold range.
  replace (Z.to_nat (2 * (Z.of_nat k + 1) - 1)) with (2 * k + 1)%nat by lia.
  rewrite square_sum. rewrite mult_IZR, plus_IZR, <- INR_IZR_INZ.
  pose proof (pos_INR k). field. lra.
Qed.

Section Simpson13Facts.
Import ExtendedReal.

(** The hybrid branch of [integrate], for any arithmetic and any integrand. *)
Lemma simpson13_odd_branch :
  forall (N : Number) (func : integrand) (a b : num) (n : Z),
    Z.odd n = true ->
    let h := ((b - a) / of_Z n)%num in
    SimpsonsRule1By3.integrate func a b n
    = (simpsonPart <- SimpsonsRule1By3.simpsonRule func a (b - h)%num (n - 1) ;;
       fs <- call func (b - h)%num ;;
       fb <- call func b ;;
       Return (simpsonPart + (h / of_Z 2) * (fs + fb))%num)%js.
Proof.
  intros N func a b n Hodd h. unfold SimpsonsRule1By3.integrate.
  rewrite Zodd_rem in Hodd. apply negb_true_iff in Hodd. now rewrite Hodd.
Qed.

Lemma sum_over_exact :
  forall (term : Z -> @num exact) (t : Z -> R) (l : list Z),
    (forall i, term i = Fin (t i)) ->
    sum_over l term = Fin (Rsum t l).
Proof.
  intros term t l H. induction l as [|i l IH].
  - reflexivity.
  - change (sum_over (i :: l) term) with (@nadd exact (term i) (sum_over l term)).
    rewrite IH, H. reflexivity.
Qed.

(** The loop's weights 4 and 2 are the odd and the even inner nodes. *)
Lemma weighted_split : forall (t : Z -> R) (l : list Z),
  Rsum (fun j => simpson_weight j * t j)%R l
  = (4 * Rsum t (filter Z.odd l) + 2 * Rsum t (filter Z.even l))%R.
Proof.
  intros t l. induction l as [|j l IH]; simpl.
  - lra.
  - rewrite IH. unfold simpson_weight. rewrite <- Zeven_rem, <- Z.negb_even.
    destruct (Z.even j); simpl; lra.
Qed.

Lemma signed_inf_zero : forall r : R, r = 0%R -> signed_inf r = NotANumber.
Proof.
  intros r ->. unfold signed_inf.
  destruct (Rlt_dec 0 0) as [H|_]; [lra|]. reflexivity.
Qed.

End Simpson13Facts.

(** C4.  For a function [g] of the reals, bounds [a], [b] and an odd interval
    count [n >= 1], Simpson 1/3 returns the classical composite Simpson value
    on the first [n - 1] subintervals, from [a] to [b - h] with
    [h = (b - a) / n], plus the trapezoidal panel [(h/2) * (f(b - h) + f(b))]
    on the last subinterval.  The arithmetic is exact; at [n = 1] the classical
    formula divides zero by zero and both sides are [NaN]. *)
Theorem simpson13_odd_is_simpson_plus_trapezoid :
  forall (g : R -> R) (a b : R) (n : Z),
    0 < n -> Z.odd n = true ->
    let f := real_function g in
    let a' := ExtendedReal.Fin a in
    let b' := ExtendedReal.Fin b in
    let h := ((b' - a') / of_Z n)%num in
    SimpsonsRule1By3.integrate (total f) a' b' n
    = Return (classical_simpson f a' (b' - h) (n - 1)
              + (h / of_Z 2) * (f (b' - h) + f b'))%num.
Proof.
  intros g a b n Hpos Hodd f a' b' h.
  rewrite simpson13_odd_branch by exact Hodd. fold h.
  assert (Hn : n <> 0) by lia.
  assert (Hh : h = ExtendedReal.Fin ((b - a) / IZR n)).
  { unfold h, a', b'. apply exact_div. intro E. apply Hn. now apply eq_IZR. }
  set (hr := ((b - a) / IZR n)%R) in *. rewrite Hh.
  change (@nsub exact b' (ExtendedReal.Fin hr)) with (ExtendedReal.Fin (b - hr)).
  assert (Hf : real_valued (total f) g) by (intro r; reflexivity).
  destruct (Z.eq_dec n 1) as [-> | Hn1].
  - (* one interval: the Simpson part is 0/0 *)
    assert (Hz : (b - hr + - a)%R = 0%R) by (unfold hr; simpl; field).
    unfold SimpsonsRule1By3.simpsonRule, classical_simpson, call, total, a', b'.
    cbn. destruct (Req_dec_T 0 0) as [_|E]; [|contradiction].
    rewrite (signed_inf_zero Hz). reflexivity.
  - (* at least three intervals: everything is finite *)
    assert (Hm : n - 1 <> 0) by lia.
    unfold a'. rewrite (simpsonRule_exact a (b - hr)%R Hf Hm). cbn [bind].
    unfold call, total, f, b'. cbn [bind real_function].
    unfold classical_simpson.
    assert (Hh' : @ndiv exact (@nsub exact (ExtendedReal.Fin (b - hr)) (ExtendedReal.Fin a))
                    (of_Z (n - 1))
                  = ExtendedReal.Fin ((b - hr - a) / IZR (n - 1))).
    { apply exact_div. intro E. apply Hm. now apply eq_IZR. }
    rewrite Hh'. set (h' := ((b - hr - a) / IZR (n - 1))%R).
    rewrite !sum_over_exact with (t := fun i => g (a + IZR i * h')%R)
      by (intro i; reflexivity).
    rewrite weighted_split. cbn.
    destruct (Req_dec_T 3 0) as [E|_]; [lra|].
    destruct (Req_dec_T 2 0) as [E|_]; [lra|].
    cbv [ExtendedReal.add ExtendedReal.mul]. do 2 f_equal. unfold h'. field.
    intro E. apply Hm. now apply eq_IZR.
Qed.

(** ** One interval *)

(** X6.  With [n = 1] the hybrid branch hands [simpsonRule] zero intervals over
    [[a, a]]: its step is [0/0], and the [NaN] absorbs the trapezoidal panel. *)
Theorem simpson13_one_interval_exact :
  forall (g : R -> R) (a b : R),
    SimpsonsRule1By3.integrate (total (real_function g))
      (ExtendedReal.Fin a) (ExtendedReal.Fin b) 1
    = Return ExtendedReal.NotANumber.
Proof.
  intros g a b. rewrite simpson13_odd_branch by reflexivity.
  assert (Hz : (b + - ((b + - a) / 1) + - a)%R = 0%R) by field.
  unfold SimpsonsRule1By3.simpsonRule, call, total.
  cbn. destruct (Req_dec_T 1 0) as [E|_]; [lra|].
  cbn. destruct (Req_dec_T 0 0) as [_|E]; [|contradiction].
  rewrite (signed_inf_zero Hz). reflexivity.
Qed.

(** C2, as stated, fails in binary64 in two ways, each with an integrand that
    is finite at every sampled node.  Simpson 1/3 accepts [n = 1] (nothing
    guards it) and returns [NaN] for [f(x) = x * x] on [[0, 2]].  And a sum of
    finite samples can overflow: the trapezoidal rule on the constant 2^1023
    returns [Infinity]. *)
Lemma finite_nodes_without_a_finite_result :
  let square := total (N := binary64) (fun x => x * x)%num in
  let huge := total (N := binary64) (fun _ => Math_pow (of_Z 2) 1023) in
  (finite_on square (simpson13_nodes (of_Z 0) (of_Z 2) 1)
   /\ SimpsonsRule1By3.integrate square (of_Z 0) (of_Z 2) 1 = Return NaN
   /\ @isFinite binary64 NaN = false)
  /\ (finite_on huge (trapezoidal_nodes (of_Z 0) (of_Z 2) 4)
      /\ exists v, TrapezoidalRule.integrate huge (of_Z 0) (of_Z 2) 4 = Return v
                   /\ isFinite v = false).
Proof.
  split; split.
  - repeat constructor; eexists; split; vm_compute; reflexivity.
  - split; vm_compute; reflexivity.
  - repeat constructor; eexists; split; vm_compute; reflexivity.
  - eexists. split; vm_compute; reflexivity.
Qed.

(** ** Finite results in exact arithmetic *)

Section ExactFinite.
Import ExtendedReal.

Lemma IZR_nonzero : forall n : Z, n <> 0 -> IZR n <> 0%R.
Proof. intros n Hn E. apply Hn. now apply eq_IZR. Qed.

Lemma call_finite_on :
  forall (func : @integrand exact) (nodes : list (@num exact)) (x : @num exact),
    finite_on func nodes -> In x nodes -> returns_finite (call func x).
Proof.
  intros func nodes x Hf Hin. unfold finite_on in Hf. rewrite Forall_forall in Hf.
  destruct (Hf x Hin) as [y [Hy Hfin]]. unfold call. rewrite Hy.
  destruct y as [r| | |]; try discriminate. now exists r.
Qed.

Lemma for_range_finite :
  forall (body : Z -> @num exact -> completion (@num exact)) (k : nat) (i : Z) (s : R),
    (forall j s', i <= j < i + Z.of_nat k -> returns_finite (body j (Fin s'))) ->
    returns_finite (for_range k i body (Fin s)).
Proof.
  intros body k. induction k as [|k IH]; intros i s H; simpl.
  - now exists s.
  - destruct (H i s ltac:(lia)) as [s1 ->]. simpl. apply IH. intros. apply H. lia.
Qed.

Lemma for_loop_finite :
  forall (body : Z -> @num exact -> completion (@num exact)) (lo hi : Z) (s : R),
    (forall j s', lo <= j < hi -> returns_finite (body j (Fin s'))) ->
    returns_finite (for_loop lo hi body (Fin s)).
Proof.
  intros body lo hi s H. unfold for_loop. apply for_range_finite.
  intros. apply H. lia.
Qed.

Lemma bind_finite :
  forall (c : completion (@num exact)) (k : @num exact -> completion (@num exact)),
    returns_finite c -> (forall r, returns_finite (k (Fin r))) ->
    returns_finite (bind c k).
Proof.
  intros c k [r ->] Hk. apply Hk.
Qed.

Lemma Return_finite : forall r : R, returns_finite (Return (Fin r)).
Proof. intro r. now exists r. Qed.

Lemma step_finite : forall (a b : R) (n : Z),
  n <> 0 -> @ndiv exact (@nsub exact (Fin b) (Fin a)) (of_Z n) = Fin ((b - a) / IZR n).
Proof.
  intros a b n Hn. apply exact_div. now apply IZR_nonzero.
Qed.

Lemma exact_div_Z : forall (x : R) (k : Z),
  k <> 0 -> @ndiv exact (Fin x) (Fin (IZR k)) = Fin (x / IZR k).
Proof.
  intros x k Hk. apply exact_div. now apply IZR_nonzero.
Qed.

Ltac fin_arith :=
  cbn [nadd nsub nmul of_Z exact
       ExtendedReal.add ExtendedReal.sub ExtendedReal.mul ExtendedReal.opp].

(** [In] of a node of the form [map f (range lo hi)]. *)
Ltac in_nodes :=
  repeat first
    [ left; reflexivity
    | apply in_map_iff; eexists; split; [reflexivity | apply in_range; lia]
    | right ].

Lemma trapezoidal_finite :
  forall (func : @integrand exact) (a b : R) (n : Z),
    finite_on func (trapezoidal_nodes (Fin a) (Fin b) n) -> 1 <= n ->
    returns_finite (TrapezoidalRule.integrate func (Fin a) (Fin b) n).
Proof.
  intros func a b n Hf Hn.
  pose proof (fun x => call_finite_on x Hf) as Hcall. clear Hf.
  unfold TrapezoidalRule.integrate, trapezoidal_nodes in *.
  rewrite step_finite in * by lia.
  apply bind_finite; [apply Hcall; in_nodes|intro fa].
  apply bind_finite; [apply Hcall; in_nodes|intro fb].
  fin_arith. rewrite (exact_div_Z _ (k := 2)) by lia.
  apply bind_finite; [|intro; apply Return_finite].
  apply for_loop_finite. intros j s' Hj.
  apply bind_finite; [apply Hcall; in_nodes|intro; apply Return_finite].
Qed.

Lemma midpoint_finite :
  forall (func : @integrand exact) (a b : R) (n : Z),
    finite_on func (midpoint_nodes (Fin a) (Fin b) n) -> 1 <= n ->
    returns_finite (MidpointRule.integrate func (Fin a) (Fin b) n).
Proof.
  intros func a b n Hf Hn.
  pose proof (fun x => call_finite_on x Hf) as Hcall. clear Hf.
  unfold MidpointRule.integrate, midpoint_nodes in *.
  rewrite step_finite in * by lia.
  apply bind_finite; [|intro; apply Return_finite].
  apply for_loop_finite. intros j s' Hj.
  apply bind_finite; [apply Hcall; in_nodes|].
  intro y. apply Return_finite.
Qed.

Lemma simpsonRule_finite :
  forall (func : @integrand exact) (a b : R) (n : Z),
    finite_on func (simpsonRule_nodes (Fin a) (Fin b) n) -> n <> 0 ->
    returns_finite (SimpsonsRule1By3.simpsonRule func (Fin a) (Fin b) n).
Proof.
  intros func a b n Hf Hn.
  pose proof (fun x => call_finite_on x Hf) as Hcall. clear Hf.
  unfold SimpsonsRule1By3.simpsonRule, simpsonRule_nodes in *.
  rewrite step_finite in * by lia.
  apply bind_finite; [apply Hcall; in_nodes|intro fa].
  apply bind_finite; [apply Hcall; in_nodes|intro fb].
  apply bind_finite.
  - apply for_loop_finite. intros j s' Hj.
    apply bind_finite; [apply Hcall; in_nodes|intro y].
    destruct (Z.rem j 2 =? 0); apply Return_finite.
  - intro s. fin_arith. rewrite (exact_div_Z _ (k := 3)) by lia. apply Return_finite.
Qed.

Lemma simpson13_finite :
  forall (func : @integrand exact) (a b : R) (n : Z),
    finite_on func (simpson13_nodes (Fin a) (Fin b) n) -> 2 <= n ->
    returns_finite (SimpsonsRule1By3.integrate func (Fin a) (Fin b) n).
Proof.
  intros func a b n Hf Hn. unfold SimpsonsRule1By3.integrate, simpson13_nodes in *.
  destruct (Z.rem n 2 =? 0) eqn:Hpar.
  - apply simpsonRule_finite; [exact Hf|lia].
  - assert (n <> 2) by (intros ->; discriminate).
    rewrite step_finite in * by lia.
    change (@nsub exact (Fin b) (Fin ((b - a) / IZR n))) with (Fin (b - (b - a) / IZR n)) in *.
    apply Forall_app in Hf as [Hsimpson Hpanel].
    pose proof (fun x => call_finite_on x Hpanel) as Hcall. clear Hpanel.
    apply bind_finite; [apply simpsonRule_finite; [exact Hsimpson|lia]|intro s].
    apply bind_finite; [apply Hcall; in_nodes|intro fs].
    apply bind_finite; [apply Hcall; in_nodes|intro fb].
    rewrite (exact_div_Z _ (k := 2)) by lia. apply Return_finite.
Qed.

Lemma simpson38_finite :
  forall (func : @integrand exact) (a b : R) (n : Z),
    finite_on func (simpson38_nodes (Fin a) (Fin b) n) -> 3 <= n ->
    returns_finite (SimpsonsRule3By8.integrate func (Fin a) (Fin b) n).
Proof.
  intros func a b n Hf Hn. unfold SimpsonsRule3By8.integrate, simpson38_nodes in *.
  destruct (Z.ltb_spec n 3); [lia|].
  rewrite step_finite in * by lia.
  apply Forall_app in Hf as [Hmain Hrem].
  apply bind_finite.
  - destruct (n - Z.rem n 3 >=? 3); [|apply Return_finite].
    pose proof (fun x => call_finite_on x Hmain) as Hcall.
    apply bind_finite; [apply Hcall; in_nodes|intro fa].
    apply bind_finite; [apply Hcall; in_nodes|intro fm].
    apply bind_finite.
    + apply for_loop_finite. intros j s' Hj.
      destruct (Z.rem j 3 =? 0);
        (apply bind_finite; [apply Hcall; in_nodes|intro; apply Return_finite]).
    + intro s. fin_arith. rewrite (exact_div_Z _ (k := 8)) by lia. apply Return_finite.
  - intro total. apply bind_finite; [|intro; apply Return_finite].
    destruct (Z.rem n 3 >? 0); [|apply Return_finite].
    pose proof (fun x => call_finite_on x Hrem) as Hcall.
    apply bind_finite; [apply Hcall; in_nodes|intro fa].
    apply bind_finite; [apply Hcall; in_nodes|intro fb].
    fin_arith. rewrite (exact_div_Z _ (k := 2)) by lia.
    apply bind_finite; [|intro; apply Return_finite].
    apply for_loop_finite. intros j s' Hj.
    apply bind_finite; [apply Hcall; in_nodes|intro; apply Return_finite].
Qed.

Lemma monte_carlo_loop_finite :
  forall (func : @integrand exact) (random : nat -> @num exact) (a b : @num exact),
    forall (k : nat) (i : Z) (s : R) (samples : list MonteCarloIntegration.sample),
    (forall j, i <= j < i + Z.of_nat k ->
               returns_finite (call func (a + random (Z.to_nat j) * (b - a))%num)) ->
    exists s' samples',
      for_range k i
        (fun i '(sum, samples) =>
           let x := (a + random (Z.to_nat i) * (b - a))%num in
           bind (call func x)
             (fun y => Return ((sum + y)%num,
                               (samples ++ [{| MonteCarloIntegration.sample_x := x;
                                               MonteCarloIntegration.sample_y := y |}])%list)))
        (Fin s, samples)
      = Return (Fin s', samples').
Proof.
  intros func random a b k. induction k as [|k IH]; intros i s samples H.
  - now exists s, samples.
  - destruct (H i ltac:(lia)) as [y Hy]. cbn [for_range]. cbv beta iota zeta.
    rewrite Hy. cbn [bind]. fin_arith.
    apply IH. intros j Hj. apply H. lia.
Qed.

Lemma monte_carlo_finite :
  forall (func : @integrand exact) (random : nat -> @num exact) (a b : R) (n : Z)
         (this : MonteCarloIntegration.instance),
    finite_on func (monte_carlo_nodes random (Fin a) (Fin b) n) -> 1 <= n ->
    exists r samples,
      MonteCarloIntegration.integrate random this func (Fin a) (Fin b) n
      = (Return (Fin r), Some samples).
Proof.
  intros func random a b n this Hf Hn.
  pose proof (fun x => call_finite_on x Hf) as Hcall. clear Hf.
  unfold MonteCarloIntegration.integrate, for_loop, monte_carlo_nodes in *.
  match goal with
  | |- context [match ?L with Return _ => _ | Throw _ => _ end] =>
      assert (HL : exists s' samples', L = Return (Fin s', samples'))
  end.
  { apply (@monte_carlo_loop_finite func random (Fin a) (Fin b)).
    intros j Hj. apply Hcall. in_nodes. }
  destruct HL as [s' [samples' ->]].
  change (@of_Z exact n) with (Fin (IZR n)).
  change (@nsub exact (Fin b) (Fin a)) with (Fin (b - a)).
  rewrite exact_div_Z by lia. eexists. eexists. reflexivity.
Qed.
End ExactFinite.

(** C2, as amended.  In exact arithmetic (no rounding, no overflow), for
    finite bounds and an interval count from the rule's minimum on (1 for the
    trapezoidal, midpoint and Monte Carlo rules, 2 for Simpson 1/3, 3 for
    Simpson 3/8), [integrate] returns a finite number whenever the integrand
    returns a finite number at every node the rule samples. *)
Theorem rules_return_finite_numbers_in_exact_arithmetic :
  forall (func : @integrand exact) (random : nat -> @num exact) (a b : R) (n : Z)
         (this : MonteCarloIntegration.instance),
    let a' := ExtendedReal.Fin a in
    let b' := ExtendedReal.Fin b in
    (1 <= n -> finite_on func (trapezoidal_nodes a' b' n) ->
     returns_finite (TrapezoidalRule.integrate func a' b' n))
    /\ (1 <= n -> finite_on func (midpoint_nodes a' b' n) ->
        returns_finite (MidpointRule.integrate func a' b' n))
    /\ (2 <= n -> finite_on func (simpson13_nodes a' b' n) ->
        returns_finite (SimpsonsRule1By3.integrate func a' b' n))
    /\ (3 <= n -> finite_on func (simpson38_nodes a' b' n) ->
        returns_finite (SimpsonsRule3By8.integrate func a' b' n))
    /\ (1 <= n -> finite_on func (monte_carlo_nodes random a' b' n) ->
        returns_finite (fst (MonteCarloIntegration.integrate random this func a' b' n))).
Proof.
  intros func random a b n this a' b'. repeat split; intros Hn Hf.
  - now apply trapezoidal_finite.
  - now apply midpoint_finite.
  - now apply simpson13_finite.
  - now apply simpson38_finite.
  - destruct (@monte_carlo_finite func random a b n this Hf Hn) as [r [samples H]].
    unfold a', b'. rewrite H. now exists r.
Qed.

(** ** The result records *)

(** C3.  With the predefined [x^3] on [[-1, 1]] the exact value is known and is
    0; Simpson 3/8 with four intervals succeeds with the value 0.046875, and
    the result record holds [null] for both the absolute and the relative
    error: the test [exactValue ? ... : null] takes the known 0 for an absent
    value. *)
Theorem known_zero_exact_value_omits_the_errors :
  let cube := total (N := binary64) (fun x => x * x * x)%num in
  let st :=
    {| Calculator.selectedFunction := "x^3";
       Calculator.customFunction := "";
       Calculator.currentFunc := cube;
       Calculator.lowerLimit := of_Z (-1);
       Calculator.upperLimit := of_Z 1;
       Calculator.intervals := 4;
       Calculator.selectedMethods := ["Simpson's 3/8"] |} in
  Calculator.exactValue Constants.predefinedFunctions st = Some (of_Z 0)
  /\ exists r,
       option_map fst
         (Calculator.performCalculations Constants.predefinedFunctions 0
            (fun _ => of_Z 0) st integrationMethods)
       = Some (Calculator.Results [r])
       /\ Calculator.method_name r = "Simpson's 3/8"
       /\ Calculator.calculationError r = None
       /\ Calculator.value r = (0.046875%float : @num binary64)
       /\ Calculator.error r = None
       /\ Calculator.relativeError r = None.
Proof.
  split; [vm_compute; reflexivity|].
  eexists. split; [vm_compute; reflexivity|]. repeat split.
Qed.

(** ** Instances of the conditional statements *)

(** C10 at the input of three spaces. *)
Lemma blank_input_witness :
  Utils.processCustomFunction (N := binary64)
    (fun _ _ => inr (fun x => Some (Utils.VNumber x))) "   "
  = {| Utils.processed := None; Utils.error := "" |}.
Proof.
  apply (@blank_input_is_neither_compiled_nor_an_error binary64
           (fun _ _ => inr (fun x => Some (Utils.VNumber x))) "   ").
  reflexivity.
Defined.

(** C8 at the input ["2x"], with a host that compiles every text to the
    doubling function: the probe 1 returns 2. *)
Lemma compile_succeeds_witness :
  Utils.processCustomFunction (N := binary64)
    (fun _ _ => inr (fun x => Some (Utils.VNumber (of_Z 2 * x)%num))) "2x"
  = {| Utils.processed := Some "2*x"; Utils.error := "" |}.
Proof.
  destruct (@compile_succeeds_iff_some_probe_is_valid binary64
              (fun _ _ => inr (fun x => Some (Utils.VNumber (of_Z 2 * x)%num))) "2x"
              (fun x => Some (Utils.VNumber (of_Z 2 * x)%num))) as [[_ H] _].
  - vm_compute. discriminate.
  - reflexivity.
  - apply H. exists (of_Z 1), (of_Z 2). repeat split.
    right. left. reflexivity.
Defined.

(** C6 at [n = 2]. *)
Lemma simpson13_square_witness :
  SimpsonsRule1By3.integrate (N := exact) (total (fun x => x * x)%num) (of_Z 0) (of_Z 2) 2
  = Return (ExtendedReal.Fin (8 / 3)).
Proof.
  apply (@simpson13_is_exact_on_the_square 2); [lia | reflexivity].
Defined.

(** C4 at [g(x) = x * x], [[0, 2]] and [n = 3]. *)
Lemma simpson13_odd_witness :
  let f := real_function (fun x => x * x)%R in
  let h := ((ExtendedReal.Fin 2 - ExtendedReal.Fin 0) / of_Z 3)%num in
  SimpsonsRule1By3.integrate (total f) (ExtendedReal.Fin 0) (ExtendedReal.Fin 2) 3
  = Return (classical_simpson f (ExtendedReal.Fin 0) (ExtendedReal.Fin 2 - h) 2
            + (h / of_Z 2) * (f (ExtendedReal.Fin 2 - h) + f (ExtendedReal.Fin 2)))%num.
Proof.
  apply (@simpson13_odd_is_simpson_plus_trapezoid (fun x => x * x)%R 0%R 2%R 3);
    [lia | reflexivity].
Defined.

(** ** The result record for a truthy exact value *)

(** X1.  When a method's [integrate] returns [v], its [getErrorEstimate] ends, and
    the exact value is known and truthy (neither 0 nor [NaN]), the result
    record carries the absolute error [|v - exact|] and the relative error
    [|(v - exact) / exact| * 100], and no failure marker. *)
Theorem truthy_exact_value_reports_both_errors :
  forall (N : Number) (table : list (string * Constants.entry)) (fuel : nat)
         (random : nat -> num) (st : Calculator.state) (m m' : method)
         (v ev : num) (estimate : option num),
    integrate random m (Calculator.currentFunc st) (Calculator.lowerLimit st)
      (Calculator.upperLimit st) (Calculator.intervals st) = (Return v, m') ->
    getErrorEstimate fuel m' (Calculator.currentFunc st) (Calculator.lowerLimit st)
      (Calculator.upperLimit st) (Calculator.intervals st) = Some estimate ->
    Calculator.exactValue table st = Some ev ->
    ToBoolean ev = true ->
    exists r,
      Calculator.calculate table fuel random st m = Some (r, m')
      /\ Calculator.value r = v
      /\ Calculator.error r = Some (Math_abs (v - ev))%num
      /\ Calculator.relativeError r = Some (Math_abs ((v - ev) / ev) * of_Z 100)%num
      /\ Calculator.errorEstimate r = estimate
      /\ Calculator.calculationError r = None.
Proof.
  intros N table fuel random st m m' v ev estimate Hint Hest Hexact Htruthy.
  unfold Calculator.calculate. rewrite Hint, Hest, Hexact.
  unfold Calculator.if_truthy. rewrite Htruthy.
  eexists. split; [reflexivity|]. repeat split.
Qed.

(** X1 at the predefined [x^3] on [[0, 1]] with Simpson 3/8 and four
    intervals, in binary64; the exact value is 0.25. *)
Lemma truthy_exact_value_witness :
  exists r,
    Calculator.calculate (N := binary64) Constants.predefinedFunctions 0 (fun _ => of_Z 0)
      {| Calculator.selectedFunction := "x^3";
         Calculator.customFunction := "";
         Calculator.currentFunc := total (fun x => x * x * x)%num;
         Calculator.lowerLimit := of_Z 0;
         Calculator.upperLimit := of_Z 1;
         Calculator.intervals := 4;
         Calculator.selectedMethods := ["Simpson's 3/8"] |}
      new_SimpsonsRule3By8
    = Some (r, new_SimpsonsRule3By8)
    /\ Calculator.calculationError r = None.
Proof.
  destruct (@truthy_exact_value_reports_both_errors binary64
              Constants.predefinedFunctions 0%nat (fun _ => of_Z 0)
              {| Calculator.selectedFunction := "x^3";
                 Calculator.customFunction := "";
                 Calculator.currentFunc := total (fun x => x * x * x)%num;
                 Calculator.lowerLimit := of_Z 0;
                 Calculator.upperLimit := of_Z 1;
                 Calculator.intervals := 4;
                 Calculator.selectedMethods := ["Simpson's 3/8"] |}
              new_SimpsonsRule3By8 new_SimpsonsRule3By8
              (0.2568359375%float : @num binary64) (0.25%float : @num binary64) None)
    as [r [H1 [_ [_ [_ [_ H2]]]]]]; try (vm_compute; reflexivity).
  exists r. split; assumption.
Defined.

(** C2 at Simpson 3/8 with seven intervals on [[0, 2]], for the integrand that
    squares a real and is 0 elsewhere. *)
Lemma finite_numbers_witness :
  returns_finite
    (SimpsonsRule3By8.integrate
       square_or_zero
       (ExtendedReal.Fin 0) (ExtendedReal.Fin 2) 7).
Proof.
  destruct (@rules_return_finite_numbers_in_exact_arithmetic
              square_or_zero
              (fun _ => ExtendedReal.Fin (1 / 2)) 0%R 2%R 7 None)
    as [_ [_ [_ [H _]]]].
  apply H; [lia|].
  apply Forall_forall. intros x _. destruct x; eexists; split; reflexivity.
Defined.

(** ** The specification's examples in binary64 *)

(** The square on [[0, 2]]: the trapezoidal and the midpoint rule with 1000
    intervals are within 1e-4 of 8/3, and Simpson 1/3 with 2, 4 and 10
    intervals returns the double nearest to 8/3. *)
Theorem square_examples_binary64 :
  let f := total (N := binary64) (fun x => x * x)%num in
  let within (c : completion (@num binary64)) :=
    match c with
    | Return v => (Math_abs (v - literal 8 3) <? literal 1 10000)%num
    | Throw _ => false
    end in
  within (TrapezoidalRule.integrate f (of_Z 0) (of_Z 2) 1000) = true
  /\ within (MidpointRule.integrate f (of_Z 0) (of_Z 2) 1000) = true
  /\ SimpsonsRule1By3.integrate f (of_Z 0) (of_Z 2) 2 = Return (literal 8 3)
  /\ SimpsonsRule1By3.integrate f (of_Z 0) (of_Z 2) 4 = Return (literal 8 3)
  /\ SimpsonsRule1By3.integrate f (of_Z 0) (of_Z 2) 10 = Return (literal 8 3).
Proof.
  repeat split; vm_compute; reflexivity.
Qed.

(** Simpson 3/8 on the cube over [[0, 1]] with three intervals returns 0.25,
    and with two intervals throws its parameter error. *)
Theorem simpson38_examples_binary64 :
  let f := total (N := binary64) (fun x => x * x * x)%num in
  SimpsonsRule3By8.integrate f (of_Z 0) (of_Z 1) 3 = Return (literal 1 4)
  /\ SimpsonsRule3By8.integrate f (of_Z 0) (of_Z 1) 2
     = Throw (Error SimpsonsRule3By8.too_few_intervals).
Proof.
  split; vm_compute; reflexivity.
Qed.

(** The normalization of the specification's sample inputs, and of the two
    logarithms. *)
Theorem normalize_examples :
  Utils.normalize "sin(x)" = "Math.sin(x)"
  /\ Utils.normalize "2x" = "2*x"
  /\ Utils.normalize "ln(x)" = "Math.log(x)"
  /\ Utils.normalize "log(x) + ln(x)" = "Math.log10(x)+Math.log(x)"
  /\ Utils.normalize "1/(x-x)" = "1/(x-x)"
  /\ Utils.normalize "3x(x+1)(x-1)x2" = "3*x*(x+1)*(x-1)*x*2".
Proof.
  repeat split; vm_compute; reflexivity.
Qed.

(** On a constant function the second-derivative scan of the trapezoidal rule
    ends within 1000 iterations and its bound is 0. *)
Theorem derivative_bound_of_a_constant_binary64 :
  TrapezoidalRule.estimateSecondDerivative (N := binary64) 1000
    (total (fun _ => of_Z 7)) (of_Z 0) (of_Z 2)
  = Some (of_Z 0).
Proof.
  vm_compute. reflexivity.
Qed.

(** ** The results of a calculation *)

Section CalculatorFacts.
Context {N : Number}.
Variable table : list (string * Constants.entry).

Lemma integrate_keeps_identity :
  forall (random : nat -> num) (m : method) (func : integrand) (a b : num) (n : Z),
    let m' := snd (integrate random m func a b n) in
    name m' = name m /\ class_of m' = class_of m
    /\ description m' = description m /\ color m' = color m.
Proof.
  intros random m func a b n. unfold integrate.
  destruct (class_of m) eqn:Hc; cbn; auto.
  destruct (MonteCarloIntegration.integrate random (lastSamples m) func a b n) as [r s].
  cbn. auto.
Qed.

Lemma calculate_keeps_identity :
  forall (fuel : nat) (random : nat -> num) (st : Calculator.state) (m m' : method)
         (r : Calculator.RuleResult),
    Calculator.calculate table fuel random st m = Some (r, m') ->
    name m' = name m /\ class_of m' = class_of m /\ Calculator.method_name r = name m.
Proof.
  intros fuel random st m m' r. unfold Calculator.calculate.
  pose proof (integrate_keeps_identity random m (Calculator.currentFunc st)
                (Calculator.lowerLimit st) (Calculator.upperLimit st)
                (Calculator.intervals st)) as H.
  destruct (integrate random m (Calculator.currentFunc st) (Calculator.lowerLimit st)
              (Calculator.upperLimit st) (Calculator.intervals st)) as [[v|e] m1].
  - cbn in H.
    destruct (getErrorEstimate fuel m1 (Calculator.currentFunc st)
                (Calculator.lowerLimit st) (Calculator.upperLimit st)
                (Calculator.intervals st)); [|discriminate].
    intro E. injection E as <- <-. cbn. tauto.
  - cbn in H. intro E. injection E as <- <-. cbn. tauto.
Qed.

Lemma calculate_well_formed :
  forall (fuel : nat) (random : nat -> num) (st : Calculator.state) (m m' : method)
         (r : Calculator.RuleResult),
    Calculator.calculate table fuel random st m = Some (r, m') -> well_formed r.
Proof.
  intros fuel random st m m' r. unfold Calculator.calculate, well_formed.
  destruct (integrate random m (Calculator.currentFunc st) (Calculator.lowerLimit st)
              (Calculator.upperLimit st) (Calculator.intervals st)) as [[v|e] m1].
  - destruct (getErrorEstimate fuel m1 (Calculator.currentFunc st)
                (Calculator.lowerLimit st) (Calculator.upperLimit st)
                (Calculator.intervals st)); [|discriminate].
    intro E. injection E as <- <-. now left.
  - intro E. injection E as <- <-. right. cbn. auto.
Qed.

Lemma calculate_all_spec :
  forall (fuel : nat) (random : nat -> num) (st : Calculator.state)
         (registry registry' : list method) (results : list Calculator.RuleResult),
    Calculator.calculate_all table fuel random st registry = Some (results, registry') ->
    Forall2 (fun m r => exists m', Calculator.calculate table fuel random st m = Some (r, m'))
      (selected st registry) results
    /\ map name registry' = map name registry
    /\ map class_of registry' = map class_of registry.
Proof.
  intros fuel random st registry. induction registry as [|m rest IH];
    intros registry' results H; cbn in H.
  - injection H as <- <-. cbn. repeat split. constructor.
  - unfold selected. cbn [filter].
    destruct (Calculator.includes (Calculator.selectedMethods st) (name m)).
    + destruct (Calculator.calculate table fuel random st m) as [[r m']|] eqn:Hc;
        [|discriminate].
      destruct (Calculator.calculate_all table fuel random st rest) as [[rs rest']|];
        [|discriminate].
      injection H as <- <-. destruct (IH _ _ eq_refl) as [H1 [H2 H3]].
      destruct (calculate_keeps_identity _ _ _ _ Hc) as [Hn [Hcl _]].
      repeat split.
      * constructor; [now exists m'|exact H1].
      * cbn. now rewrite Hn, H2.
      * cbn. now rewrite Hcl, H3.
    + destruct (Calculator.calculate_all table fuel random st rest) as [[rs rest']|];
        [|discriminate].
      injection H as <- <-. destruct (IH _ _ eq_refl) as [H1 [H2 H3]].
      repeat split; [exact H1 | cbn; now rewrite H2 | cbn; now rewrite H3].
Qed.

Lemma calculate_records_the_throw :
  forall (fuel : nat) (random : nat -> num) (st : Calculator.state) (m m' : method)
         (r : Calculator.RuleResult),
    Calculator.calculate table fuel random st m = Some (r, m') ->
    match fst (integrate random m (Calculator.currentFunc st) (Calculator.lowerLimit st)
                 (Calculator.upperLimit st) (Calculator.intervals st)) with
    | Return v => Calculator.calculationError r = None /\ Calculator.value r = v
    | Throw e => Calculator.calculationError r = Some (message_of e)
    end.
Proof.
  intros fuel random st m m' r. unfold Calculator.calculate.
  destruct (integrate random m (Calculator.currentFunc st) (Calculator.lowerLimit st)
              (Calculator.upperLimit st) (Calculator.intervals st)) as [[v|e] m1]; cbn.
  - destruct (getErrorEstimate fuel m1 (Calculator.currentFunc st)
                (Calculator.lowerLimit st) (Calculator.upperLimit st)
                (Calculator.intervals st)); [|discriminate].
    intro E. injection E as <- <-. now split.
  - intro E. injection E as <- <-. reflexivity.
Qed.

Lemma calculate_error_figures :
  forall (fuel : nat) (random : nat -> num) (st : Calculator.state) (m m' : method)
         (r : Calculator.RuleResult),
    Calculator.calculate table fuel random st m = Some (r, m') ->
    (Calculator.error r = None <-> Calculator.relativeError r = None)
    /\ (Calculator.error r <> None ->
        Calculator.calculationError r = None
        /\ Calculator.customFunction st = ""
        /\ exists e,
             Constants.lookup table (Calculator.selectedFunction st) = Some e
             /\ ToBoolean (Constants.exact e (Calculator.lowerLimit st)
                             (Calculator.upperLimit st)) = true).
Proof.
  intros fuel random st m m' r. unfold Calculator.calculate.
  destruct (integrate random m (Calculator.currentFunc st) (Calculator.lowerLimit st)
              (Calculator.upperLimit st) (Calculator.intervals st)) as [[v|e] m1].
  - destruct (getErrorEstimate fuel m1 (Calculator.currentFunc st)
                (Calculator.lowerLimit st) (Calculator.upperLimit st)
                (Calculator.intervals st)); [|discriminate].
    intro E. injection E as <- <-. cbn. unfold Calculator.exactValue, Calculator.if_truthy.
    destruct (Constants.lookup table (Calculator.selectedFunction st)) as [en|];
      [|split; [tauto|congruence]].
    destruct (String.eqb_spec (Calculator.customFunction st) "") as [Hc|Hc];
      [|split; [tauto|congruence]].
    destruct (ToBoolean (Constants.exact en (Calculator.lowerLimit st)
                (Calculator.upperLimit st))) eqn:Ht; [|split; [tauto|congruence]].
    split; [split; discriminate|]. intros _. repeat split; [exact Hc|]. now exists en.
  - intro E. injection E as <- <-. cbn. split; [tauto|congruence].
Qed.

End CalculatorFacts.

(** X2.  A calculation that ends reports one record per registered method
    whose name is selected, in the order of the registry and whatever the order
    or the repetitions of the selection.  Each record is what that method's
    own [integrate] did: its value, or the message of what it threw, so a
    failing method does not disturb the records of the others.  Every record is
    well formed, and the registry keeps its names. *)
Theorem performCalculations_reports_each_selected_method :
  forall (N : Number) (table : list (string * Constants.entry)) (fuel : nat)
         (random : nat -> num) (st : Calculator.state)
         (registry registry' : list method) (results : list Calculator.RuleResult),
    Calculator.performCalculations table fuel random st registry
    = Some (Calculator.Results results, registry') ->
    map Calculator.method_name results
    = filter (Calculator.includes (Calculator.selectedMethods st)) (map name registry)
    /\ Forall2
         (fun m r =>
            match fst (integrate random m (Calculator.currentFunc st)
                         (Calculator.lowerLimit st) (Calculator.upperLimit st)
                         (Calculator.intervals st)) with
            | Return v => Calculator.calculationError r = None /\ Calculator.value r = v
            | Throw e => Calculator.calculationError r = Some (message_of e)
            end)
         (selected st registry) results
    /\ Forall well_formed results
    /\ map name registry' = map name registry.
Proof.
  intros N table fuel random st registry registry' results H.
  unfold Calculator.performCalculations in H.
  destruct (Calculator.selectedMethods st) as [|s0 sel] eqn:Hsel; [discriminate|].
  destruct (Calculator.calculate_all table fuel random st registry) as [[rs reg]|] eqn:Hall;
    [|discriminate].
  injection H as <- <-. rewrite <- Hsel.
  destruct (calculate_all_spec _ _ _ _ _ Hall) as [HF [Hn _]].
  repeat split; [| | |exact Hn].
  - clear Hall Hn Hsel. unfold selected in HF.
    induction registry as [|m rest IH] in rs, HF |- *; cbn in *.
    + now inversion HF.
    + destruct (Calculator.includes (Calculator.selectedMethods st) (name m)).
      * inversion HF as [|m0 r l l' [m' Hc] HF']; subst. cbn.
        destruct (calculate_keeps_identity _ _ _ _ _ Hc) as [_ [_ ->]]. f_equal.
        now apply IH.
      * now apply IH.
  - eapply Forall2_impl; [|exact HF]. intros m r [m' Hc]. cbn beta.
    now apply calculate_records_the_throw with (table := table) (fuel := fuel) (m' := m').
  - clear Hall Hn. induction HF as [|m r l l' [m' Hc] _ IH]; constructor; [|exact IH].
    now apply calculate_well_formed with (table := table) (fuel := fuel) (random := random)
                                          (st := st) (m := m) (m' := m').
Qed.

(** X2 in binary64, for the predefined [x^3] on [[0, 1]] with two intervals and
    the selection Simpson 3/8, Trapezoidal: the trapezoidal record comes
    first. *)
Lemma performCalculations_witness :
  exists results registry',
    Calculator.performCalculations (N := binary64) Constants.predefinedFunctions 1000
      (fun _ => of_Z 0)
      {| Calculator.selectedFunction := "x^3";
         Calculator.customFunction := "";
         Calculator.currentFunc := total (fun x => x * x * x)%num;
         Calculator.lowerLimit := of_Z 0;
         Calculator.upperLimit := of_Z 1;
         Calculator.intervals := 2;
         Calculator.selectedMethods := ["Simpson's 3/8"; "Trapezoidal Rule"] |}
      integrationMethods
    = Some (Calculator.Results results, registry')
    /\ map Calculator.method_name results = ["Trapezoidal Rule"; "Simpson's 3/8"].
Proof.
  eexists. eexists.
  match goal with
  | |- ?L = ?R /\ _ => assert (H : L = R) by (vm_compute; reflexivity)
  end.
  split; [exact H|].
  destruct (performCalculations_reports_each_selected_method _ _ _ _ _ H) as [Hn _].
  rewrite Hn. reflexivity.
Defined.

(** X3.  The absolute and the relative error of a record are present together,
    and only in a record without failure marker, when no custom function is in
    use and the selected predefined function has an exact value that is
    truthy (neither 0 nor [NaN]). *)
Theorem error_figures_need_a_known_exact_value :
  forall (N : Number) (table : list (string * Constants.entry)) (fuel : nat)
         (random : nat -> num) (st : Calculator.state)
         (registry registry' : list method) (results : list Calculator.RuleResult),
    Calculator.performCalculations table fuel random st registry
    = Some (Calculator.Results results, registry') ->
    Forall
      (fun r =>
         (Calculator.error r = None <-> Calculator.relativeError r = None)
         /\ (Calculator.error r <> None ->
             Calculator.calculationError r = None
             /\ Calculator.customFunction st = ""
             /\ exists e,
                  Constants.lookup table (Calculator.selectedFunction st) = Some e
                  /\ ToBoolean (Constants.exact e (Calculator.lowerLimit st)
                                  (Calculator.upperLimit st)) = true))
      results.
Proof.
  intros N table fuel random st registry registry' results H.
  unfold Calculator.performCalculations in H.
  destruct (Calculator.selectedMethods st) as [|s0 sel] eqn:Hsel; [discriminate|].
  destruct (Calculator.calculate_all table fuel random st registry) as [[rs reg]|] eqn:Hall;
    [|discriminate].
  injection H as <- <-.
  destruct (calculate_all_spec _ _ _ _ _ Hall) as [HF _]. clear Hall.
  induction HF as [|m r l l' [m' Hc] _ IH]; constructor; [|exact IH].
  exact (calculate_error_figures _ _ _ _ _ Hc).
Qed.

(** X3 in binary64, for the predefined [x^2] on [[0, 2]] with four intervals
    and the trapezoidal rule. *)
Lemma error_figures_witness :
  exists results registry',
    Calculator.performCalculations (N := binary64) Constants.predefinedFunctions 1000
      (fun _ => of_Z 0)
      {| Calculator.selectedFunction := "x^2";
         Calculator.customFunction := "";
         Calculator.currentFunc := total (fun x => x * x)%num;
         Calculator.lowerLimit := of_Z 0;
         Calculator.upperLimit := of_Z 2;
         Calculator.intervals := 4;
         Calculator.selectedMethods := ["Trapezoidal Rule"] |}
      integrationMethods
    = Some (Calculator.Results results, registry')
    /\ Forall (fun r => Calculator.error r = None <-> Calculator.relativeError r = None)
         results.
Proof.
  eexists. eexists.
  match goal with
  | |- ?L = ?R /\ _ => assert (H : L = R) by (vm_compute; reflexivity)
  end.
  split; [exact H|].
  eapply Forall_impl; [|exact (error_figures_need_a_known_exact_value _ _ _ _ _ H)].
  intros r [Hr _]. exact Hr.
Defined.

(** ** The selection of methods *)

Section SelectionFacts.

Lemma includes_In : forall (names : list string) (s : string),
  Calculator.includes names s = true <-> In s names.
Proof.
  intros names s. unfold Calculator.includes. rewrite existsb_exists. split.
  - intros [x [Hin Hx]]. apply String.eqb_eq in Hx. now subst.
  - intro H. exists s. split; [exact H|apply String.eqb_refl].
Qed.

Lemma includes_false : forall (names : list string) (s : string),
  Calculator.includes names s = false <-> ~ In s names.
Proof.
  intros names s. rewrite <- includes_In. destruct (Calculator.includes names s); split;
    congruence.
Qed.

Lemma In_toggleMethod : forall (prev : list string) (methodName s : string),
  In s (Component.toggleMethod prev methodName)
  <-> (if String.eqb s methodName then ~ In methodName prev else In s prev).
Proof.
  intros prev methodName s. unfold Component.toggleMethod.
  destruct (Calculator.includes prev methodName) eqn:Hin.
  - apply includes_In in Hin. rewrite filter_In.
    destruct (String.eqb_spec s methodName) as [->|Hne].
    + cbn. split; [intros [_ H]; discriminate|tauto].
    + cbn. tauto.
  - apply includes_false in Hin. rewrite in_app_iff. cbn.
    destruct (String.eqb_spec s methodName) as [->|Hne]; [tauto|].
    split; [intros [H|[H|[]]]; [exact H|congruence]|tauto].
Qed.

Lemma filter_absent : forall (prev : list string) (methodName : string),
  ~ In methodName prev ->
  filter (fun m => negb (String.eqb m methodName)) prev = prev.
Proof.
  induction prev as [|s prev IH]; intros methodName H; cbn.
  - reflexivity.
  - destruct (String.eqb_spec s methodName) as [->|Hne].
    + exfalso. apply H. now left.
    + cbn. f_equal. apply IH. intro Hin. apply H. now right.
Qed.

End SelectionFacts.

(** X4.  Toggling a name flips its membership in the selection and leaves the
    membership of every other name as it was; a selection without repetitions
    stays without repetitions. *)
Theorem toggleMethod_flips_one_name :
  forall (prev : list string) (methodName : string),
    (In methodName (Component.toggleMethod prev methodName) <-> ~ In methodName prev)
    /\ (forall s, s <> methodName ->
                  (In s (Component.toggleMethod prev methodName) <-> In s prev))
    /\ (NoDup prev -> NoDup (Component.toggleMethod prev methodName)).
Proof.
  intros prev methodName. split; [|split].
  - rewrite In_toggleMethod, String.eqb_refl. tauto.
  - intros s Hne. rewrite In_toggleMethod. apply String.eqb_neq in Hne.
    rewrite Hne. tauto.
  - intro Hnd. unfold Component.toggleMethod.
    destruct (Calculator.includes prev methodName) eqn:Hin.
    + now apply NoDup_filter.
    + apply includes_false in Hin. apply NoDup_app; [exact Hnd|repeat constructor; auto|].
      intros s Hs [<-|[]]. contradiction.
Qed.

(** X5.  Toggling twice a name that is not selected gives the selection back,
    in its order; toggling twice a name that is selected once moves it to the
    end. *)
Theorem toggleMethod_twice :
  forall (prev : list string) (methodName : string),
    (~ In methodName prev ->
     Component.toggleMethod (Component.toggleMethod prev methodName) methodName = prev)
    /\ (In methodName prev ->
        Component.toggleMethod (Component.toggleMethod prev methodName) methodName
        = (filter (fun m => negb (String.eqb m methodName)) prev ++ [methodName])%list).
Proof.
  intros prev methodName. split; intro H; unfold Component.toggleMethod at 2.
  - destruct (Calculator.includes prev methodName) eqn:Hin.
    + apply includes_In in Hin. contradiction.
    + unfold Component.toggleMethod.
      assert (Hin' : Calculator.includes (prev ++ [methodName]) methodName = true).
      { apply includes_In, in_or_app. right. now left. }
      rewrite Hin'. rewrite filter_app, (@filter_absent prev methodName H). cbn.
      rewrite String.eqb_refl. cbn. apply app_nil_r.
  - apply includes_In in H. rewrite H. unfold Component.toggleMethod.
    assert (Hout : Calculator.includes
                     (filter (fun m => negb (String.eqb m methodName)) prev) methodName
                   = false).
    { apply includes_false. rewrite filter_In. intros [_ Hn].
      rewrite String.eqb_refl in Hn. discriminate. }
    now rewrite Hout.
Qed.

(** X5 at the initial selection and a third name. *)
Lemma toggleMethod_twice_witness :
  Component.toggleMethod
    (Component.toggleMethod ["Trapezoidal Rule"] "Monte Carlo")
    "Monte Carlo"
  = ["Trapezoidal Rule"].
Proof.
  apply (proj1 (toggleMethod_twice ["Trapezoidal Rule"] "Monte Carlo")).
  intros [H|[]]; discriminate.
Defined.

(** ** The convergence sweep *)

Section ConvergenceFacts.
Context {N : Number}.

Lemma get_assign_same : forall (point : Component.object) (key : string) (v : num),
  Component.get (Component.assign point key v) key = Some v.
Proof.
  induction point as [|[k w] rest IH]; intros key v; cbn.
  - now rewrite String.eqb_refl.
  - destruct (String.eqb k key) eqn:E; cbn; rewrite E; [reflexivity|apply IH].
Qed.

Lemma get_assign_other : forall (point : Component.object) (key key' : string) (v : num),
  key' <> key ->
  Component.get (Component.assign point key v) key' = Component.get point key'.
Proof.
  induction point as [|[k w] rest IH]; intros key key' v Hne; cbn.
  - destruct (String.eqb_spec key key'); [congruence|reflexivity].
  - destruct (String.eqb_spec k key) as [->|Hk]; cbn.
    + destruct (String.eqb_spec key key'); [congruence|reflexivity].
    + destruct (String.eqb k key'); [reflexivity|now apply IH].
Qed.

Lemma integrate_value_by_class :
  forall (random : nat -> num) (m m' : method) (func : integrand) (a b : num) (n : Z),
    class_of m' = class_of m ->
    fst (integrate random m' func a b n) = fst (integrate random m func a b n).
Proof.
  intros random m m' func a b n H. unfold integrate. rewrite H.
  destruct (class_of m); try reflexivity.
  unfold MonteCarloIntegration.integrate.
  destruct (for_loop 0 n _ _) as [[sum samples]|e]; reflexivity.
Qed.

Lemma same_rules_refl : forall registry : list method, same_rules registry registry.
Proof.
  induction registry; constructor; auto.
Qed.

Lemma same_rules_names : forall registry registry' : list method,
  same_rules registry registry' -> map name registry' = map name registry.
Proof.
  induction 1 as [|m m' l l' [Hn _] _ IH]; cbn; [reflexivity|now rewrite Hn, IH].
Qed.

Lemma integrate_found_spec :
  forall (random : nat -> num) (registry0 registry : list method) (methodName : string)
         (func : integrand) (a b : num) (n : Z),
    same_rules registry0 registry ->
    let '(r, registry') := Component.integrate_found random registry methodName func a b n in
    same_rules registry0 registry'
    /\ r = option_map (fun m => fst (integrate random m func a b n))
             (find_method registry0 methodName).
Proof.
  intros random registry0 registry methodName func a b n H.
  induction H as [|m m' l l' [Hn Hc] HF IH]; cbn.
  - split; [constructor|reflexivity].
  - rewrite Hn. destruct (String.eqb (name m) methodName).
    + pose proof (integrate_keeps_identity random m' func a b n) as Hk.
      pose proof (integrate_value_by_class random m m' func a b n Hc) as Hv.
      destruct (integrate random m' func a b n) as [r m1]. cbn in Hk, Hv.
      destruct Hk as [Hk1 [Hk2 _]]. split.
      * constructor; [split; congruence|exact HF].
      * cbn. now rewrite Hv.
    + destruct (Component.integrate_found random l' methodName func a b n) as [r rest'].
      destruct IH as [IH1 IH2]. split; [constructor; [split; assumption|exact IH1]|exact IH2].
Qed.

Lemma find_method_name : forall (registry : list method) (methodName : string) (m : method),
  find_method registry methodName = Some m -> In methodName (map name registry).
Proof.
  intros registry methodName m H. unfold find_method in H.
  apply find_some in H. destruct H as [Hin Heq]. apply String.eqb_eq in Heq.
  rewrite <- Heq. now apply in_map.
Qed.

Lemma includes_app : forall (names : list string) (s key : string),
  Calculator.includes (names ++ [s]) key = Calculator.includes names key || String.eqb key s.
Proof.
  intros names s key. unfold Calculator.includes. rewrite existsb_app. cbn.
  now rewrite orb_false_r.
Qed.

(** The names of the selection that are still to come, after [done]. *)
Lemma sweep_fold :
  forall (random : string -> nat -> num) (st : Calculator.state) (n : Z)
         (registry0 : list method) (value : string -> option num),
    ~ In "intervals" (map name registry0) ->
    (forall key,
        value key
        = match find_method registry0 key with
          | Some m =>
              match fst (integrate (random key) m (Calculator.currentFunc st)
                           (Calculator.lowerLimit st) (Calculator.upperLimit st) n) with
              | Return v => Some v
              | Throw _ => None
              end
          | None => None
          end) ->
    forall (todo done : list string) (point : Component.object) (registry : list method),
      same_rules registry0 registry ->
      (forall key,
          Component.get point key
          = if String.eqb key "intervals" then Some (of_Z n)
            else if Calculator.includes done key then value key else None) ->
      let '(point', registry') :=
        fold_left (Component.sweep_method random st n) todo (point, registry) in
      same_rules registry0 registry'
      /\ forall key,
           Component.get point' key
           = if String.eqb key "intervals" then Some (of_Z n)
             else if Calculator.includes (done ++ todo) key then value key else None.
Proof.
  intros random st n registry0 value Hint Hvalue.
  induction todo as [|s todo IH]; intros done point registry Hreg Hpoint.
  - cbn. rewrite app_nil_r. now split.
  - cbn [fold_left]. unfold Component.sweep_method at 2.
    pose proof (integrate_found_spec (random s) s (Calculator.currentFunc st)
                  (Calculator.lowerLimit st) (Calculator.upperLimit st) n Hreg) as Hf.
    destruct (Component.integrate_found (random s) registry s (Calculator.currentFunc st)
                (Calculator.lowerLimit st) (Calculator.upperLimit st) n) as [r registry1].
    destruct Hf as [Hreg1 Hr].
    replace (done ++ s :: todo)%list with ((done ++ [s]) ++ todo)%list
      by (rewrite <- app_assoc; reflexivity).
    assert (Hs : value s = match r with Some (Return v) => Some v | _ => None end).
    { rewrite Hvalue, Hr. destruct (find_method registry0 s); reflexivity. }
    assert (Hkey : r <> None -> s <> "intervals").
    { intros Hsome ->. apply Hsome. rewrite Hr.
      destruct (find_method registry0 "intervals") as [m|] eqn:Hfind; [|reflexivity].
      exfalso. apply Hint. exact (find_method_name _ _ Hfind). }
    destruct r as [[v|e]|].
    + apply IH; [exact Hreg1|]. intro key. rewrite includes_app.
      destruct (String.eqb_spec key s) as [->|Hne].
      * rewrite get_assign_same, orb_true_r.
        destruct (String.eqb_spec s "intervals") as [E|_]; [|now rewrite Hs].
        exfalso. apply Hkey; [discriminate|exact E].
      * rewrite get_assign_other by exact Hne. rewrite orb_false_r. apply Hpoint.
    + apply IH; [exact Hreg1|]. intro key. rewrite includes_app, Hpoint.
      destruct (String.eqb key "intervals"); [reflexivity|].
      destruct (String.eqb_spec key s) as [->|Hne].
      * rewrite orb_true_r, Hs. now destruct (Calculator.includes done s).
      * now rewrite orb_false_r.
    + apply IH; [exact Hreg1|]. intro key. rewrite includes_app, Hpoint.
      destruct (String.eqb key "intervals"); [reflexivity|].
      destruct (String.eqb_spec key s) as [->|Hne].
      * rewrite orb_true_r, Hs. now destruct (Calculator.includes done s).
      * now rewrite orb_false_r.
Qed.

Lemma sweep_point_spec :
  forall (random : string -> nat -> num) (st : Calculator.state) (n : Z)
         (registry0 registry : list method),
    ~ In "intervals" (map name registry0) ->
    same_rules registry0 registry ->
    let '(point, registry') := Component.sweep_point random st n registry in
    same_rules registry0 registry'
    /\ Component.get point "intervals" = Some (of_Z n)
    /\ forall methodName,
         methodName <> "intervals" ->
         Component.get point methodName = plotted random st n registry0 methodName.
Proof.
  intros random st n registry0 registry Hint Hreg. unfold Component.sweep_point.
  pose proof (@sweep_fold random st n registry0
                (fun key =>
                   match find_method registry0 key with
                   | Some m =>
                       match fst (integrate (random key) m (Calculator.currentFunc st)
                                    (Calculator.lowerLimit st) (Calculator.upperLimit st) n)
                       with
                       | Return v => Some v
                       | Throw _ => None
                       end
                   | None => None
                   end)
                Hint (fun _ => eq_refl) (Calculator.selectedMethods st) []
                [("intervals", of_Z n)] registry Hreg) as H.
  match type of H with
  | ?P -> _ =>
      assert (Hp : P)
        by (intro key; cbn; rewrite String.eqb_sym;
            now destruct (String.eqb key "intervals"))
  end.
  specialize (H Hp). cbv beta iota in H. clear Hp. revert H.
  match goal with
  | |- (match ?X with _ => _ end) -> (match ?Y with _ => _ end) => change Y with X
  end.
  destruct (fold_left _ _ _) as [point registry']. intros [H1 H2].
  split; [exact H1|]. split.
  - rewrite H2. reflexivity.
  - intros methodName Hne. rewrite H2. apply String.eqb_neq in Hne. rewrite Hne.
    unfold plotted. cbn [app]. reflexivity.
Qed.

Lemma sweep_spec :
  forall (random : Z -> string -> nat -> num) (st : Calculator.state)
         (registry0 : list method) (k : nat) (n : Z) (registry : list method),
    ~ In "intervals" (map name registry0) ->
    same_rules registry0 registry ->
    let '(data, registry') := Component.sweep k random st n registry in
    same_rules registry0 registry'
    /\ Forall2
         (fun n point =>
            Component.get point "intervals" = Some (of_Z n)
            /\ forall methodName,
                 methodName <> "intervals" ->
                 Component.get point methodName
                 = plotted (random n) st n registry0 methodName)
         (map (fun i => n + 2 * Z.of_nat i) (seq 0 k)) data.
Proof.
  intros random st registry0 k. induction k as [|k IH]; intros n registry Hint Hreg.
  - cbn. split; [exact Hreg|constructor].
  - cbn [Component.sweep].
    pose proof (sweep_point_spec (random n) st n Hint Hreg) as Hp.
    destruct (Component.sweep_point (random n) st n registry) as [point registry1].
    destruct Hp as [Hreg1 Hp].
    specialize (IH (n + 2) registry1 Hint Hreg1).
    destruct (Component.sweep k random st (n + 2) registry1) as [data registry2].
    destruct IH as [Hreg2 IH]. split; [exact Hreg2|].
    cbn [seq map]. constructor.
    + replace (n + 2 * Z.of_nat 0) with n by lia. exact Hp.
    + rewrite <- seq_shift, map_map.
      erewrite map_ext; [exact IH|]. intro i. cbn beta. lia.
Qed.

End ConvergenceFacts.

(** X7.  Once a calculation has left results, the convergence sweep stores 25
    points, for the interval counts 2, 4, ..., 50.  When no registered method
    is called "intervals", the point of the count [n] holds [n] under that key;
    under any other key it holds the value that the registered method of that
    name returns for [n] intervals when the name is selected, and nothing when
    the name is not selected, not registered, or the method throws.  The
    registry keeps its names and classes.  (The draws of [Math.random] are
    given per interval count and name; the selection has no repetitions.) *)
Theorem convergence_data_has_a_point_per_even_count :
  forall (N : Number) (random : Z -> string -> nat -> num)
         (calculationResults : list Calculator.RuleResult) (st : Calculator.state)
         (registry : list method),
    calculationResults <> [] ->
    NoDup (Calculator.selectedMethods st) ->
    ~ In "intervals" (map name registry) ->
    exists data registry',
      Component.generateConvergenceData random calculationResults st registry
      = Some (data, registry')
      /\ same_rules registry registry'
      /\ Forall2
           (fun n point =>
              Component.get point "intervals" = Some (of_Z n)
              /\ forall methodName,
                   methodName <> "intervals" ->
                   Component.get point methodName
                   = plotted (random n) st n registry methodName)
           sweep_counts data.
Proof.
  intros N random calculationResults st registry Hres _ Hint.
  unfold Component.generateConvergenceData.
  destruct calculationResults as [|r rs]; [contradiction|].
  pose proof (@sweep_spec N random st registry 25 2 registry Hint (same_rules_refl registry))
    as H.
  destruct (Component.sweep 25 random st 2 registry) as [data registry'].
  destruct H as [H1 H2]. exists data, registry'. split; [reflexivity|]. split; [exact H1|].
  unfold sweep_counts. erewrite map_ext; [exact H2|]. intro i. cbn beta. lia.
Qed.

(** X7 in binary64 for the square on [[0, 2]], the trapezoidal rule and Simpson
    3/8 selected, and the registry of the source. *)
Lemma convergence_data_witness :
  exists data registry',
    Component.generateConvergenceData (N := binary64) (fun _ _ _ => of_Z 0)
      [ {| Calculator.method_name := "Trapezoidal Rule";
           Calculator.value := of_Z 3;
           Calculator.result_color := "#3b82f6";
           Calculator.error := None;
           Calculator.errorEstimate := None;
           Calculator.relativeError := None;
           Calculator.calculationError := None |} ]
      {| Calculator.selectedFunction := "x^2";
         Calculator.customFunction := "";
         Calculator.currentFunc := total (fun x => x * x)%num;
         Calculator.lowerLimit := of_Z 0;
         Calculator.upperLimit := of_Z 2;
         Calculator.intervals := 1;
         Calculator.selectedMethods := ["Trapezoidal Rule"; "Simpson's 3/8"] |}
      integrationMethods
    = Some (data, registry')
    /\ List.length data = 25%nat.
Proof.
  destruct (@convergence_data_has_a_point_per_even_count binary64 (fun _ _ _ => of_Z 0)
              [ {| Calculator.method_name := "Trapezoidal Rule";
                   Calculator.value := of_Z 3;
                   Calculator.result_color := "#3b82f6";
                   Calculator.error := None;
                   Calculator.errorEstimate := None;
                   Calculator.relativeError := None;
                   Calculator.calculationError := None |} ]
              {| Calculator.selectedFunction := "x^2";
                 Calculator.customFunction := "";
                 Calculator.currentFunc := total (fun x => x * x)%num;
                 Calculator.lowerLimit := of_Z 0;
                 Calculator.upperLimit := of_Z 2;
                 Calculator.intervals := 1;
                 Calculator.selectedMethods := ["Trapezoidal Rule"; "Simpson's 3/8"] |}
              integrationMethods)
    as [data [registry' [H1 [_ H3]]]].
  - discriminate.
  - apply NoDup_cons; [intros [H|[]]; discriminate|].
    apply NoDup_cons; [intros []|apply NoDup_nil].
  - intros [H|[H|[H|[H|[]]]]]; discriminate.
  - exists data, registry'. split; [exact H1|].
    apply Forall2_length in H3. rewrite <- H3. reflexivity.
Defined.

(** ** The rewriting of the compiler *)

Section RewritingFacts.
Import Text Utils.

Lemma every_append : forall (P : ascii -> bool) (s t : string),
  every P (s ++ t) = every P s && every P t.
Proof.
  intros P s t. induction s as [|c s IH]; cbn.
  - reflexivity.
  - now rewrite IH, andb_assoc.
Qed.

Lemma replace_from_every :
  forall (P : ascii -> bool) (m : matcher),
    inserts_only P m ->
    forall (s : string) (prev : option ascii) (skip : nat),
      every P s = true -> every P (replace_from m prev skip s) = true.
Proof.
  intros P m Hm. induction s as [|c s IH]; intros prev skip Hs.
  - reflexivity.
  - pose proof Hs as Hs'. cbn in Hs'. apply andb_true_iff in Hs' as [Hc Htail].
    cbn [replace_from]. destruct skip as [|k]; [|now apply IH].
    destruct (m prev (String c s)) as [[text len]|] eqn:E.
    + rewrite every_append. apply andb_true_iff. split; [|now apply IH].
      exact (Hm _ _ _ _ Hs E).
    + cbn. rewrite Hc. now apply IH.
Qed.

Lemma replace_all_every :
  forall (P : ascii -> bool) (m : matcher) (s : string),
    inserts_only P m -> every P s = true -> every P (replace_all m s) = true.
Proof.
  intros P m s Hm Hs. now apply replace_from_every.
Qed.

Lemma whole_word_inserts : forall (P : ascii -> bool) (w text : string),
  every P text = true -> inserts_only P (whole_word w text).
Proof.
  intros P w text H prev rest t len _. unfold whole_word.
  destruct (strip_prefix w rest); [|discriminate].
  destruct (not_word prev && not_word _); [|discriminate].
  intro E. injection E as <- _. exact H.
Qed.

Lemma literally_inserts : forall (P : ascii -> bool) (w text : string),
  every P text = true -> inserts_only P (literally w text).
Proof.
  intros P w text H prev rest t len _. unfold literally.
  destruct (strip_prefix w rest); [|discriminate].
  intro E. injection E as <- _. exact H.
Qed.

Lemma e_caret_text : forall prev rest text len,
  e_caret prev rest = Some (text, len) -> text = "Math.exp".
Proof.
  intros prev rest text len. unfold e_caret.
  destruct rest as [|c after]; [discriminate|].
  destruct (Ascii.eqb_spec c "e") as [->|Hne].
  - destruct (drop (leading_spaces after) after) as [|d rest']; [discriminate|].
    destruct (Ascii.eqb_spec d "^") as [->|Hd].
    + intro E. now injection E as <- _.
    + destruct d as [[] [] [] [] [] [] [] []]; try discriminate. contradiction.
  - destruct c as [[] [] [] [] [] [] [] []]; try discriminate. contradiction.
Qed.

Lemma e_caret_inserts : forall P : ascii -> bool,
  every P "Math.exp" = true -> inserts_only P e_caret.
Proof.
  intros P H prev rest text len _ E. apply e_caret_text in E. now subst.
Qed.

Lemma between_inserts : forall (P p q : ascii -> bool),
  P "*"%char = true -> inserts_only P (between p q).
Proof.
  intros P p q H prev rest text len Hrest. unfold between.
  destruct rest as [|c1 [|c2 rest]]; try discriminate.
  destruct (p c1 && q c2); [|discriminate].
  intro E. injection E as <- _. cbn in *.
  apply andb_true_iff in Hrest as [H1 Hrest]. apply andb_true_iff in Hrest as [H2 _].
  now rewrite H1, H, H2.
Qed.

(** Removing the white space. *)
Lemma replace_from_spaces : forall (s : string) (prev : option ascii) (k : nat),
  (k <= leading_spaces s)%nat -> replace_from spaces prev k s = squeeze s.
Proof.
  induction s as [|c s IH]; intros prev k Hk.
  - reflexivity.
  - cbn [replace_from squeeze]. cbn [leading_spaces] in Hk.
    destruct k as [|k].
    + unfold spaces at 1. cbn [leading_spaces].
      destruct (is_space c).
      * cbn [Nat.pred append]. apply IH. lia.
      * f_equal. apply IH. lia.
    + destruct (is_space c); [apply IH; lia|lia].
Qed.

Lemma replace_all_spaces : forall s : string, replace_all spaces s = squeeze s.
Proof.
  intro s. apply replace_from_spaces. lia.
Qed.

Lemma squeeze_every : forall s : string,
  every (fun c => negb (is_space c)) (squeeze s) = true.
Proof.
  induction s as [|c s IH]; cbn.
  - reflexivity.
  - destruct (is_space c) eqn:E; [exact IH|]. cbn. now rewrite E, IH.
Qed.

(** Replacing the carets. *)
Lemma replace_from_carets : forall (s : string) (prev : option ascii) (skip : nat),
  every (fun c => negb (is_char "^" c)) (replace_from (literally "^" "**") prev skip s) = true.
Proof.
  induction s as [|c s IH]; intros prev skip.
  - reflexivity.
  - cbn [replace_from]. destruct skip as [|k]; [|apply IH].
    unfold literally at 1. cbn [strip_prefix]. unfold is_char.
    destruct (Ascii.eqb "^" c) eqn:E.
    + cbn [String.length Nat.pred]. rewrite every_append. cbn [every]. rewrite IH.
      reflexivity.
    + cbn [every]. rewrite E. cbn. apply IH.
Qed.

Lemma lower_is_space : forall c : ascii, is_space (lower c) = is_space c.
Proof.
  intro c. destruct c as [[] [] [] [] [] [] [] []]; reflexivity.
Qed.

Lemma squeeze_blank : forall s : string, squeeze s = "" <-> blank s = true.
Proof.
  induction s as [|c s IH]; cbn.
  - tauto.
  - destruct (is_space c); cbn; [exact IH|]. split; discriminate.
Qed.

Lemma toLowerCase_blank : forall s : string, blank (toLowerCase s) = blank s.
Proof.
  induction s as [|c s IH]; cbn; [reflexivity|]. now rewrite lower_is_space, IH.
Qed.

Lemma replace_all_text : forall (m : matcher) (s : string),
  inserts_text m -> s <> "" -> replace_all m s <> "".
Proof.
  intros m s Hm Hs. destruct s as [|c s]; [contradiction|].
  unfold replace_all. cbn [replace_from].
  destruct (m None (String c s)) as [[text len]|] eqn:E; [|discriminate].
  apply Hm in E. destruct text; [contradiction|discriminate].
Qed.

Lemma whole_word_text : forall w text : string,
  text <> "" -> inserts_text (whole_word w text).
Proof.
  intros w text H prev rest t len. unfold whole_word.
  destruct (strip_prefix w rest); [|discriminate].
  destruct (not_word prev && not_word _); [|discriminate].
  intro E. injection E as <- _. exact H.
Qed.

Lemma literally_text : forall w text : string,
  text <> "" -> inserts_text (literally w text).
Proof.
  intros w text H prev rest t len. unfold literally.
  destruct (strip_prefix w rest); [|discriminate].
  intro E. injection E as <- _. exact H.
Qed.

Lemma e_caret_inserts_text : inserts_text e_caret.
Proof.
  intros prev rest text len E. apply e_caret_text in E. now subst.
Qed.

Lemma between_text : forall p q : ascii -> bool, inserts_text (between p q).
Proof.
  intros p q prev rest text len. unfold between.
  destruct rest as [|c1 [|c2 rest]]; try discriminate.
  destruct (p c1 && q c2); [|discriminate].
  intro E. now injection E as <- _.
Qed.

(** The reversal and the trimming keep a string blank or not blank. *)
Lemma blank_reverse_onto : forall s acc : string,
  blank (reverse_onto s acc) = blank s && blank acc.
Proof.
  induction s as [|c s IH]; intro acc; cbn.
  - reflexivity.
  - rewrite IH. cbn. now destruct (blank s), (is_space c), (blank acc).
Qed.

Lemma blank_reverse : forall s : string, blank (reverse s) = blank s.
Proof.
  intro s. unfold reverse. rewrite blank_reverse_onto. cbn. apply andb_true_r.
Qed.

Lemma blank_trimStart : forall s : string, blank (trimStart s) = blank s.
Proof.
  induction s as [|c s IH]; cbn; [reflexivity|].
  destruct (is_space c) eqn:E; cbn; [exact IH|now rewrite E].
Qed.

Lemma trim_empty_iff : forall s : string, trim s = "" <-> blank s = true.
Proof.
  intro s. split; [|apply trim_blank].
  intro H. assert (Hb : blank (trim s) = true) by now rewrite H.
  unfold trim in Hb.
  now rewrite blank_reverse, blank_trimStart, blank_reverse, blank_trimStart in Hb.
Qed.

Ltac matcher_text :=
  first [ apply whole_word_text; discriminate
        | apply literally_text; discriminate
        | apply e_caret_inserts_text
        | apply between_text ].

Lemma normalize_text : forall rawFunction : string,
  blank rawFunction = false -> normalize rawFunction <> "".
Proof.
  intros rawFunction H. unfold normalize. cbv zeta.
  do 29 (apply replace_all_text; [matcher_text|]).
  rewrite replace_all_spaces. intro E. apply squeeze_blank in E.
  rewrite toLowerCase_blank in E. congruence.
Qed.

(** The neighbours of a string after an implicit product was made explicit. *)
Lemma no_pair_cons : forall (R : ascii -> ascii -> bool) (c : ascii) (s : string),
  no_pair R (String c s)
  = match next_unit s with
    | Some d => negb (R c d)
    | None => true
    end && no_pair R s.
Proof.
  intros R c s. destruct s; reflexivity.
Qed.

Lemma between_head : forall (p q : ascii -> bool) (prev : option ascii) (s : string),
  next_unit (replace_from (between p q) prev 0 s) = next_unit s.
Proof.
  intros p q prev s. destruct s as [|c s]; [reflexivity|].
  cbn [replace_from]. unfold between at 1.
  destruct s as [|c2 s]; [reflexivity|].
  destruct (p c && q c2); reflexivity.
Qed.

Lemma between_no_pair :
  forall (p q : ascii -> bool) (R : ascii -> ascii -> bool),
    (forall c, p c && q c = false) ->
    (forall c, R c "*"%char = false) ->
    (forall c, R "*"%char c = false) ->
    forall (s : string) (prev : option ascii) (skip : nat),
      no_pair (fun c d => R c d && negb (p c && q d)) s = true ->
      no_pair R (replace_from (between p q) prev skip s) = true.
Proof.
  intros p q R Hpq Hr1 Hr2. induction s as [|c s IH]; intros prev skip Hs.
  - reflexivity.
  - rewrite no_pair_cons in Hs. apply andb_true_iff in Hs as [Hhead Htail].
    cbn [replace_from]. destruct skip as [|k]; [|now apply IH].
    unfold between at 1. destruct s as [|c2 s].
    + reflexivity.
    + cbn [next_unit] in Hhead. destruct (p c && q c2) eqn:Hm.
      * cbn [append Nat.pred]. rewrite !no_pair_cons. cbn [next_unit].
        rewrite Hr1, Hr2. cbn [negb andb].
        rewrite (IH (Some c) 1%nat Htail), andb_true_r.
        cbn [replace_from]. rewrite between_head.
        destruct s as [|c3 s]; [reflexivity|]. cbn [next_unit].
        rewrite no_pair_cons in Htail. cbn [next_unit] in Htail.
        apply andb_true_iff in Htail as [H23 _].
        apply andb_true_iff in Hm as [_ Hq2].
        assert (Hp2 : p c2 = false).
        { specialize (Hpq c2). rewrite Hq2, andb_true_r in Hpq. exact Hpq. }
        rewrite Hp2 in H23. cbn in H23. now rewrite andb_true_r in H23.
      * rewrite no_pair_cons, between_head. cbn [next_unit].
        rewrite andb_true_r in Hhead. rewrite Hhead. now apply IH.
Qed.

Lemma no_pair_weaken : forall (R R' : ascii -> ascii -> bool) (s : string),
  (forall c d, R' c d = true -> R c d = true) ->
  no_pair R s = true -> no_pair R' s = true.
Proof.
  intros R R' s H. induction s as [|c s IH]; [reflexivity|].
  rewrite !no_pair_cons. intro Hs. apply andb_true_iff in Hs as [H1 H2].
  rewrite (IH H2), andb_true_r. destruct (next_unit s) as [d|]; [|reflexivity].
  destruct (R' c d) eqn:E; [|reflexivity]. apply H in E. now rewrite E in H1.
Qed.

Lemma no_pair_never : forall (R : ascii -> ascii -> bool) (s : string),
  (forall c d, R c d = false) -> no_pair R s = true.
Proof.
  intros R s H. induction s as [|c s IH]; [reflexivity|].
  rewrite no_pair_cons, IH, andb_true_r. destruct (next_unit s); [|reflexivity].
  now rewrite H.
Qed.

(** The replacement of [(p)(q)] leaves no [p] next to a [q]. *)
Lemma between_removes : forall (p q : ascii -> bool) (s : string),
  (forall c, p c && q c = false) -> p "*"%char = false -> q "*"%char = false ->
  no_pair (joins p q) (replace_all (between p q) s) = true.
Proof.
  intros p q s Hpq Hp Hq. apply between_no_pair.
  - exact Hpq.
  - intro c. unfold joins. rewrite Hq. apply andb_false_r.
  - intro c. unfold joins. now rewrite Hp.
  - apply no_pair_never. intros c d. unfold joins. apply andb_negb_r.
Qed.

(** The replacement of [(p)(q)] brings no [p'] next to a [q'], when the
    asterisk is neither. *)
Lemma between_keeps : forall (p q p' q' : ascii -> bool) (s : string),
  (forall c, p c && q c = false) -> p' "*"%char = false -> q' "*"%char = false ->
  no_pair (joins p' q') s = true ->
  no_pair (joins p' q') (replace_all (between p q) s) = true.
Proof.
  intros p q p' q' s Hpq Hp Hq Hs. apply between_no_pair.
  - exact Hpq.
  - intro c. unfold joins. rewrite Hq. apply andb_false_r.
  - intro c. unfold joins. now rewrite Hp.
  - revert Hs. apply no_pair_weaken. intros c d H.
    apply andb_true_iff in H as [H _]. exact H.
Qed.

Lemma is_char_apart : forall (p : ascii -> bool) (k : ascii),
  p k = false -> forall c, p c && is_char k c = false.
Proof.
  intros p k H c. unfold is_char. destruct (Ascii.eqb_spec k c) as [<-|_].
  - now rewrite H.
  - apply andb_false_r.
Qed.

Lemma is_char_apart' : forall (q : ascii -> bool) (k : ascii),
  q k = false -> forall c, is_char k c && q c = false.
Proof.
  intros q k H c. rewrite andb_comm. now apply is_char_apart.
Qed.

End RewritingFacts.

Ltac inserts_matcher :=
  first [ apply whole_word_inserts; reflexivity
        | apply literally_inserts; reflexivity
        | apply e_caret_inserts; reflexivity
        | apply between_inserts; reflexivity ].

Ltac apart :=
  first [ apply is_char_apart; reflexivity | apply is_char_apart'; reflexivity ].

(** X8.  The normalized text holds no white space and no caret, whatever the
    input: the white space is removed first, every caret becomes [**], and no
    later replacement brings either back. *)
Theorem normalize_leaves_no_white_space_and_no_caret :
  forall rawFunction : string,
    every (fun c => negb (Text.is_space c)) (Utils.normalize rawFunction) = true
    /\ every (fun c => negb (Text.is_char "^" c)) (Utils.normalize rawFunction) = true.
Proof.
  intro rawFunction. unfold Utils.normalize. cbv zeta. split.
  - do 29 (apply replace_all_every; [inserts_matcher|]).
    rewrite replace_all_spaces. apply squeeze_every.
  - do 25 (apply replace_all_every; [inserts_matcher|]).
    apply replace_from_carets.
Qed.

(** X9.  The normalized text holds none of the five implicit products the
    compiler makes explicit: no digit before [x], no [x] before a digit or
    an opening parenthesis, and no closing parenthesis before [x] or an
    opening parenthesis. *)
Theorem normalize_makes_products_explicit :
  forall rawFunction : string,
    let text := Utils.normalize rawFunction in
    no_pair (joins Text.is_digit (Text.is_char "x")) text = true
    /\ no_pair (joins (Text.is_char "x") Text.is_digit) text = true
    /\ no_pair (joins (Text.is_char ")") (Text.is_char "x")) text = true
    /\ no_pair (joins (Text.is_char ")") (Text.is_char "(")) text = true
    /\ no_pair (joins (Text.is_char "x") (Text.is_char "(")) text = true.
Proof.
  intro rawFunction. unfold Utils.normalize. cbv zeta.
  repeat split.
  - do 4 (apply between_keeps; [apart|reflexivity|reflexivity|]).
    apply between_removes; [apart|reflexivity|reflexivity].
  - do 3 (apply between_keeps; [apart|reflexivity|reflexivity|]).
    apply between_removes; [apart|reflexivity|reflexivity].
  - do 2 (apply between_keeps; [apart|reflexivity|reflexivity|]).
    apply between_removes; [apart|reflexivity|reflexivity].
  - do 1 (apply between_keeps; [apart|reflexivity|reflexivity|]).
    apply between_removes; [apart|reflexivity|reflexivity].
  - apply between_removes; [apart|reflexivity|reflexivity].
Qed.

(** X10.  Two inputs that differ in case and white space only have the same
    normalized text. *)
Theorem normalize_ignores_case_and_white_space :
  forall s t : string,
    squeeze (Text.toLowerCase s) = squeeze (Text.toLowerCase t) ->
    Utils.normalize s = Utils.normalize t.
Proof.
  intros s t H. unfold Utils.normalize. cbv zeta.
  now rewrite !replace_all_spaces, H.
Qed.

(** X10 at two spellings of the sine. *)
Lemma normalize_ignores_witness :
  Utils.normalize " Sin( X )" = Utils.normalize "sin(x)".
Proof.
  apply (@normalize_ignores_case_and_white_space " Sin( X )" "sin(x)").
  reflexivity.
Defined.

(** X11.  What [handleProcessFunction] leaves in the state.  With a compiled
    text, the text is the normalized input and is not empty, there is no error
    message, the custom function is that text, and the test of [currentFunc]
    for a custom function passes.  Without, the custom function is cleared and
    the test fails, so the predefined function is in use; the error message is
    then empty only for a blank input. *)
Theorem handleProcessFunction_text_or_message :
  forall (N : Number)
         (new_Function : string -> string -> string + (num -> option Utils.js_value))
         (rawFunction : string),
    let fs := Component.handleProcessFunction new_Function rawFunction in
    match Component.processedFunction fs with
    | Some text =>
        text = Utils.normalize rawFunction
        /\ text <> ""
        /\ Component.functionError fs = ""
        /\ Component.customFunction fs = text
        /\ Component.uses_custom_function fs = true
    | None =>
        Component.customFunction fs = ""
        /\ Component.uses_custom_function fs = false
        /\ (Component.functionError fs = "" <-> blank rawFunction = true)
    end.
Proof.
  intros N new_Function rawFunction.
  unfold Component.handleProcessFunction, Component.uses_custom_function,
    Utils.processCustomFunction.
  cbn [Component.processedFunction Component.functionError Component.customFunction].
  destruct (String.eqb_spec (Text.trim rawFunction) "") as [Hb|Hb].
  - cbn. repeat split. intros _. now apply trim_empty_iff.
  - assert (Hn : blank rawFunction = false).
    { destruct (blank rawFunction) eqn:E; [|reflexivity].
      exfalso. apply Hb. now apply trim_empty_iff. }
    pose proof (normalize_text _ Hn) as Ht.
    assert (Hd : forall m, Utils.message_or_default m <> "").
    { intro m. unfold Utils.message_or_default.
      destruct (String.eqb_spec m ""); [discriminate|assumption]. }
    destruct (new_Function "x" (Utils.testFunc_body (Utils.normalize rawFunction)))
      as [syntax_error|testFunc].
    + cbn. repeat split; [intro E; now apply Hd in E|congruence].
    + destruct (Utils.hasValidPoints testFunc); cbn.
      * apply String.eqb_neq in Ht. rewrite Ht. cbn. rewrite Ht.
        apply String.eqb_neq in Ht. repeat split. exact Ht.
      * repeat split; [intro E; discriminate E|congruence].
Qed.

(** ** The samples of Monte Carlo *)

Section MonteCarloFacts.
Context {N : Number}.
Import MonteCarloIntegration.

Lemma monte_carlo_loop :
  forall (func : integrand) (random : nat -> num) (a b : num) (k : nat) (i : Z)
         (sum : num) (samples : list sample),
    let node := fun j => (a + random (Z.to_nat j) * (b - a))%num in
    match
      for_range k i
        (fun i '(sum, samples) =>
           let x := (a + random (Z.to_nat i) * (b - a))%num in
           bind (call func x)
             (fun y => Return ((sum + y)%num,
                               (samples ++ [{| sample_x := x; sample_y := y |}])%list)))
        (sum, samples)
    with
    | Return (sum', samples') =>
        exists new,
          samples' = (samples ++ new)%list
          /\ map sample_x new = map node (count_from k i)
          /\ Forall (fun s => func (sample_x s) = Yields (sample_y s)) new
          /\ sum' = fold_left (fun sum s => (sum + sample_y s)%num) new sum
    | Throw e =>
        exists j m, In j (count_from k i) /\ func (node j) = Raises m /\ e = Uncaught m
    end.
Proof.
  intros func random a b k. induction k as [|k IH]; intros i sum samples node.
  - cbn. exists []. rewrite app_nil_r. repeat split. constructor.
  - cbn [for_range]. cbv beta iota zeta. unfold call at 1.
    destruct (func (a + random (Z.to_nat i) * (b - a))%num) as [y|m] eqn:Hy; cbn [bind].
    + specialize (IH (i + 1) (sum + y)%num
                    (samples ++ [{| sample_x := (a + random (Z.to_nat i) * (b - a))%num;
                                    sample_y := y |}])%list).
      cbv zeta in IH.
      destruct (for_range k (i + 1) _ _) as [[sum' samples']|e].
      * destruct IH as [new [H1 [H2 [H3 H4]]]].
        exists ({| sample_x := (a + random (Z.to_nat i) * (b - a))%num; sample_y := y |}
                  :: new).
        repeat split.
        -- rewrite H1, <- app_assoc. reflexivity.
        -- cbn. now rewrite H2.
        -- constructor; [exact Hy|exact H3].
        -- exact H4.
      * destruct IH as [j [m [H1 [H2 H3]]]]. exists j, m. repeat split; auto.
        now right.
    + exists i, m. repeat split; auto. now left.
Qed.

End MonteCarloFacts.

(** X12.  A call of Monte Carlo's [integrate] that returns leaves in
    [lastSamples], and so in [getVisualizationData], exactly the samples of
    this call, whatever was there before: one per draw, at the points
    [a + random * (b - a)] in the order of the draws, each with the value of
    the integrand there; and the value returned is their mean, as
    [getErrorEstimate] computes it, times [b - a].  A call that throws has met
    a point where the integrand throws, and leaves [lastSamples] as it was. *)
Theorem monte_carlo_keeps_the_samples_of_the_last_success :
  forall (N : Number) (random : nat -> num) (this : MonteCarloIntegration.instance)
         (func : integrand) (a b : num) (n : Z),
    match MonteCarloIntegration.integrate random this func a b n with
    | (Return v, this') =>
        exists samples,
          this' = Some samples
          /\ MonteCarloIntegration.getVisualizationData this' = samples
          /\ map MonteCarloIntegration.sample_x samples = monte_carlo_nodes random a b n
          /\ Forall (fun s => func (MonteCarloIntegration.sample_x s)
                              = Yields (MonteCarloIntegration.sample_y s)) samples
          /\ v = (fold_left (fun sum s => sum + MonteCarloIntegration.sample_y s)
                    samples (of_Z 0) / of_Z n * (b - a))%num
    | (Throw e, this') =>
        this' = this
        /\ exists x m,
             In x (monte_carlo_nodes random a b n) /\ func x = Raises m /\ e = Uncaught m
    end.
Proof.
  intros N random this func a b n.
  unfold MonteCarloIntegration.integrate, for_loop, monte_carlo_nodes, range.
  pose proof (monte_carlo_loop func random a b (Z.to_nat (n - 0)) 0 (of_Z 0) []) as H.
  cbv zeta in H.
  destruct (for_range (Z.to_nat (n - 0)) 0 _ _) as [[sum samples]|e].
  - destruct H as [new [H1 [H2 [H3 H4]]]]. cbn [app] in H1. subst samples.
    exists new. repeat split; auto. now rewrite H4.
  - destruct H as [j [m [H1 [H2 H3]]]]. split; [reflexivity|].
    exists (a + random (Z.to_nat j) * (b - a))%num, m. repeat split; auto.
    apply in_map_iff. exists j. split; [reflexivity|exact H1].
Qed.

Section MonteCarloExact.
Import ExtendedReal MonteCarloIntegration.

Lemma count_from_length : forall (k : nat) (i : Z), List.length (count_from k i) = k.
Proof.
  induction k as [|k IH]; intro i; cbn; [reflexivity|now rewrite IH].
Qed.

Lemma constant_sum : forall (c : R) (samples : list (@sample exact)) (s0 : R),
  Forall (fun s => sample_y s = Fin c) samples ->
  fold_left (fun sum s => @nadd exact sum (sample_y s)) samples (Fin s0)
  = Fin (s0 + INR (List.length samples) * c).
Proof.
  intros c samples. induction samples as [|s samples IH]; intros s0 H.
  - cbn. f_equal. lra.
  - inversion H as [|s' l Hs Hl]; subst. cbn [fold_left]. rewrite Hs.
    change (@nadd exact (Fin s0) (Fin c)) with (Fin (s0 + c)).
    rewrite IH by exact Hl. f_equal. cbn [List.length]. rewrite S_INR. lra.
Qed.

Lemma constant_squares : forall (c m : R) (samples : list (@sample exact)) (s0 : R),
  Forall (fun s => sample_y s = Fin c) samples ->
  fold_left (fun sum s => @nadd exact sum (Math_pow (@nsub exact (sample_y s) (Fin m)) 2))
    samples (Fin s0)
  = Fin (s0 + INR (List.length samples) * ((c - m) * (c - m))).
Proof.
  intros c m samples. induction samples as [|s samples IH]; intros s0 H.
  - cbn. f_equal. lra.
  - inversion H as [|s' l Hs Hl]; subst. cbn [fold_left]. rewrite Hs.
    change (@nadd exact (Fin s0) (Math_pow (@nsub exact (Fin c) (Fin m)) 2))
      with (Fin (s0 + 1 * (c + - m) * (c + - m))).
    rewrite IH by exact Hl. f_equal. cbn [List.length]. rewrite S_INR. lra.
Qed.

End MonteCarloExact.

(** X13.  In exact arithmetic Monte Carlo integrates a constant [c] to exactly
    [c * (b - a)], whatever the draws and for every count [n >= 1] of samples.
    The error estimate that follows is 0, except with a single sample: it
    then divides zero by [n - 1 = 0] and is [NaN]. *)
Theorem monte_carlo_on_a_constant :
  forall (random : nat -> @num exact) (this : MonteCarloIntegration.instance)
         (c a b : R) (n : Z),
    1 <= n ->
    let func := total (fun _ => ExtendedReal.Fin c) in
    exists samples,
      MonteCarloIntegration.integrate random this func
        (ExtendedReal.Fin a) (ExtendedReal.Fin b) n
      = (Return (ExtendedReal.Fin (c * (b - a))), Some samples)
      /\ MonteCarloIntegration.getErrorEstimate (Some samples) func
           (ExtendedReal.Fin a) (ExtendedReal.Fin b) n
         = Some (if n =? 1 then NaN else ExtendedReal.Fin 0).
Proof.
  intros random this c a b n Hn func.
  unfold MonteCarloIntegration.integrate, for_loop.
  pose proof (@monte_carlo_loop exact func random (ExtendedReal.Fin a) (ExtendedReal.Fin b)
                (Z.to_nat (n - 0)) 0 (of_Z 0) []) as H.
  cbv zeta in H.
  destruct (for_range (Z.to_nat (n - 0)) 0 _ _) as [[sum samples]|e].
  - destruct H as [new [H1 [H2 [H3 H4]]]]. cbn [app] in H1. subst samples.
    assert (Hlen : INR (List.length new) = IZR n).
    { rewrite <- (length_map MonteCarloIntegration.sample_x), H2, length_map,
        count_from_length, INR_IZR_INZ.
      f_equal. lia. }
    assert (Hc : Forall (fun s => MonteCarloIntegration.sample_y s = ExtendedReal.Fin c) new).
    { eapply Forall_impl; [|exact H3]. intros s Hs. unfold func, total in Hs. congruence. }
    assert (Hnz : IZR n <> 0%R) by (apply not_0_IZR; lia).
    change (@of_Z exact 0) with (ExtendedReal.Fin 0) in H4.
    rewrite (@constant_sum c new 0 Hc) in H4. subst sum. exists new. split.
    + change (@of_Z exact n) with (ExtendedReal.Fin (IZR n)).
      rewrite exact_div by exact Hnz.
      change (@nsub exact (ExtendedReal.Fin b) (ExtendedReal.Fin a))
        with (ExtendedReal.Fin (b + - a)).
      change (@nmul exact (ExtendedReal.Fin ?x) (ExtendedReal.Fin ?y))
        with (ExtendedReal.Fin (x * y)).
      do 3 f_equal. rewrite Hlen. field. exact Hnz.
    + unfold MonteCarloIntegration.getErrorEstimate.
      change (@of_Z exact 0) with (ExtendedReal.Fin 0).
      change (@of_Z exact n) with (ExtendedReal.Fin (IZR n)).
      rewrite (@constant_sum c new 0 Hc), exact_div by exact Hnz.
      rewrite (@constant_squares c ((0 + INR (List.length new) * c) / IZR n) new 0 Hc).
      set (q := (0 + INR (List.length new)
                     * ((c - (0 + INR (List.length new) * c) / IZR n)
                        * (c - (0 + INR (List.length new) * c) / IZR n)))%R).
      assert (Hq : q = 0%R) by (unfold q; rewrite Hlen; field; exact Hnz).
      clearbody q. subst q. f_equal.
      change (@of_Z exact 1) with (ExtendedReal.Fin 1).
      change (@nsub exact (ExtendedReal.Fin (IZR n)) (ExtendedReal.Fin 1))
        with (ExtendedReal.Fin (IZR n + - 1)).
      destruct (Z.eqb_spec n 1) as [->|Hn1].
      * cbn. destruct (Req_dec_T (1 + - 1) 0) as [_|E]; [|exfalso; apply E; lra].
        unfold ExtendedReal.signed_inf.
        destruct (Rlt_dec 0 0) as [E|_]; [lra|].
        destruct (Req_dec_T 100 0) as [E|_]; [lra|]. reflexivity.
      * assert (Hm : (IZR n + - 1)%R <> 0%R).
        { intro E. apply Hn1. apply eq_IZR. rewrite <- (Rplus_0_r (IZR 1)), <- E. cbn. lra. }
        rewrite exact_div by exact Hm. rewrite exact_div by exact Hnz.
        cbn. destruct (Rlt_dec (0 / (IZR n + - 1) / IZR n) 0) as [E|_].
        { exfalso. unfold Rdiv in E. rewrite !Rmult_0_l in E. lra. }
        destruct (Req_dec_T 100 0) as [E|_]; [lra|].
        cbv [ExtendedReal.mul]. f_equal.
        replace (0 / (IZR n + -1) / IZR n)%R with 0%R by (unfold Rdiv; ring).
        rewrite sqrt_0. ring.
  - destruct H as [j [m [_ [H _]]]]. discriminate.
Qed.

(** X13 at the constant 3 on [[0, 2]] with four samples, every draw being
    1/2. *)
Lemma monte_carlo_constant_witness :
  exists samples,
    MonteCarloIntegration.integrate (N := exact) (fun _ => ExtendedReal.Fin (1 / 2)) None
      (total (fun _ => ExtendedReal.Fin 3)) (ExtendedReal.Fin 0) (ExtendedReal.Fin 2) 4
    = (Return (ExtendedReal.Fin (3 * (2 - 0))), Some samples)
    /\ MonteCarloIntegration.getErrorEstimate (Some samples)
         (total (fun _ => ExtendedReal.Fin 3)) (ExtendedReal.Fin 0) (ExtendedReal.Fin 2) 4
       = Some (ExtendedReal.Fin 0).
Proof.
  destruct (@monte_carlo_on_a_constant (fun _ => ExtendedReal.Fin (1 / 2)) None
              3%R 0%R 2%R 4) as [samples H]; [lia|].
  exists samples. exact H.
Defined.

(** ** The derivative scans *)

Section ScanFacts.
Import ExtendedReal.

(** A scan whose step leaves [x] where it is never ends. *)
Lemma derivative_scan_stalls :
  forall (N : Number) (term : num -> completion num) (x bound h : num),
    (x + h)%num = x -> (x <? bound)%num = true ->
    forall (fuel : nat) (maxDeriv : num),
      derivative_scan fuel term x bound h maxDeriv = None.
Proof.
  intros N term x bound h Hx Hb. induction fuel as [|fuel IH]; intro maxDeriv.
  - reflexivity.
  - cbn [derivative_scan]. rewrite Hb, Hx. apply IH.
Qed.

Lemma derivative_scan_stops :
  forall (N : Number) (term : num -> completion num) (x bound h maxDeriv : num)
         (fuel : nat),
    (x <? bound)%num = false ->
    derivative_scan (S fuel) term x bound h maxDeriv = Some maxDeriv.
Proof.
  intros N term x bound h maxDeriv fuel H. cbn [derivative_scan]. now rewrite H.
Qed.

(** In exact arithmetic a scan with a positive step runs its [k] iterations
    and returns the largest of the starting bound and the finite terms. *)
Lemma derivative_scan_exact :
  forall (term : @num exact -> completion (@num exact)) (h : R),
    (0 < h)%R ->
    forall (k fuel : nat) (x bound M0 : R),
      (k < fuel)%nat ->
      (forall j, (j < k)%nat -> (x + INR j * h < bound)%R) ->
      ~ (x + INR k * h < bound)%R ->
      exists M : R,
        derivative_scan fuel term (Fin x) (Fin bound) (Fin h) (Fin M0) = Some (Fin M)
        /\ (M0 <= M)%R
        /\ (forall j d, (j < k)%nat ->
                        term (Fin (x + INR j * h)) = Return (Fin d) -> (d <= M)%R)
        /\ (M = M0
            \/ exists j, (j < k)%nat /\ term (Fin (x + INR j * h)) = Return (Fin M)).
Proof.
  intros term h Hh. induction k as [|k IH]; intros fuel x bound M0 Hfuel Hlt Hstop.
  - destruct fuel as [|fuel]; [lia|]. exists M0. split.
    + apply derivative_scan_stops. cbn. cbn in Hstop.
      destruct (Rlt_dec x bound) as [E|_]; [|reflexivity].
      exfalso. apply Hstop. lra.
    + split; [lra|]. split; [intros j d Hj; lia|now left].
  - destruct fuel as [|fuel]; [lia|]. cbn [derivative_scan].
    assert (H0 : (x < bound)%R).
    { specialize (Hlt 0%nat ltac:(lia)). cbn in Hlt. lra. }
    assert (Hcheck : @nlt exact (Fin x) (Fin bound) = true).
    { cbn. destruct (Rlt_dec x bound); [reflexivity|contradiction]. }
    rewrite Hcheck. change (@nadd exact (Fin x) (Fin h)) with (Fin (x + h)).
    assert (Hnext : exists M1 : R,
               match term (Fin x) with
               | Return d => if isFinite d then Math_max (Fin M0) d else Fin M0
               | Throw _ => Fin M0
               end = Fin M1
               /\ (M0 <= M1)%R
               /\ (forall d, term (Fin x) = Return (Fin d) -> (d <= M1)%R)
               /\ (M1 = M0 \/ term (Fin x) = Return (Fin M1))).
    { destruct (term (Fin x)) as [[d| | |]|e].
      - cbn. destruct (Rlt_dec M0 d) as [E|E].
        + exists d. repeat split; [lra| |now right]. intros d' Hd. injection Hd as ->. lra.
        + exists M0. repeat split; [lra| |now left]. intros d' Hd. injection Hd as ->. lra.
      - exists M0. cbn. repeat split; [lra|discriminate|now left].
      - exists M0. cbn. repeat split; [lra|discriminate|now left].
      - exists M0. cbn. repeat split; [lra|discriminate|now left].
      - exists M0. repeat split; [lra|discriminate|now left]. }
    destruct Hnext as [M1 [-> [H01 [Hd1 Hat1]]]].
    assert (Hshift : forall j, (x + h + INR j * h)%R = (x + INR (S j) * h)%R).
    { intro j. rewrite S_INR. ring. }
    destruct (IH fuel (x + h)%R bound M1) as [M [Hscan [H1M [Hall Hat]]]].
    + lia.
    + intros j Hj. rewrite Hshift. apply Hlt. lia.
    + rewrite Hshift. exact Hstop.
    + exists M. split; [exact Hscan|]. split; [lra|]. split.
      * intros j d Hj Hterm. destruct j as [|j].
        -- replace (x + INR 0 * h)%R with x in Hterm by (cbn; ring).
           apply Hd1 in Hterm. lra.
        -- rewrite <- Hshift in Hterm. apply (Hall j d); [lia|exact Hterm].
      * destruct Hat as [->|[j [Hj Hterm]]].
        -- destruct Hat1 as [->|Hterm]; [now left|]. right. exists 0%nat. split; [lia|].
           replace (x + INR 0 * h)%R with x by (cbn; ring). exact Hterm.
        -- right. exists (S j). split; [lia|]. rewrite <- Hshift. exact Hterm.
Qed.

End ScanFacts.

Section EstimateFacts.
Import ExtendedReal.

Ltac decide_reals :=
  repeat match goal with
         | |- context [Rlt_dec ?x ?y] => destruct (Rlt_dec x y); try lra
         | |- context [Req_dec_T ?x ?y] => destruct (Req_dec_T x y); try lra
         end;
  try reflexivity.

(** The grid of [estimateSecondDerivative]: the points [a + j * h] for
    [j = 1, ..., steps - 2]. *)
Lemma second_derivative_scan :
  forall (steps : Z) (fuel : nat) (func : @integrand exact) (a b : R),
    2 <= steps -> steps - 1 <= Z.of_nat fuel -> (a < b)%R ->
    let h := ((b - a) / IZR steps)%R in
    let difference := fun j : Z => second_difference func (Fin h) (Fin (a + IZR j * h)) in
    exists M : R,
      estimateSecondDerivative_with steps fuel func (Fin a) (Fin b) = Some (Fin M)
      /\ (0 <= M)%R
      /\ (forall j d, 1 <= j <= steps - 2 -> difference j = Return (Fin d) -> (d <= M)%R)
      /\ (M = 0%R \/ exists j, 1 <= j <= steps - 2 /\ difference j = Return (Fin M)).
Proof.
  intros steps fuel func a b Hsteps Hfuel Hab h difference.
  assert (Hs : (2 <= IZR steps)%R) by (apply IZR_le in Hsteps; exact Hsteps).
  assert (Hh : @ndiv exact (@nsub exact (Fin b) (Fin a)) (of_Z steps) = Fin h).
  { apply exact_div. lra. }
  assert (Hpos : (0 < h)%R).
  { unfold h. apply Rdiv_lt_0_compat; lra. }
  assert (Hstep : (IZR steps * h = b - a)%R) by (unfold h; field; lra).
  unfold estimateSecondDerivative_with. rewrite Hh.
  change (@nadd exact (Fin a) (Fin h)) with (Fin (a + h)).
  change (@nsub exact (Fin b) (Fin h)) with (Fin (b + - h)).
  change (@of_Z exact 0) with (Fin 0).
  assert (Hk : INR (Z.to_nat (steps - 2)) = (IZR steps - 2)%R).
  { rewrite INR_IZR_INZ, Z2Nat.id by lia. rewrite minus_IZR. reflexivity. }
  destruct (@derivative_scan_exact (second_difference func (Fin h)) h Hpos
              (Z.to_nat (steps - 2)) fuel (a + h)%R (b + - h)%R 0%R)
    as [M [Hscan [H0 [Hall Hat]]]].
  - lia.
  - intros j Hj. apply lt_INR in Hj. rewrite Hk in Hj. nra.
  - rewrite Hk. nra.
  - assert (Hgrid : forall j : nat,
               (a + h + INR j * h)%R = (a + IZR (Z.of_nat j + 1) * h)%R).
    { intro j. rewrite plus_IZR, <- INR_IZR_INZ. ring. }
    exists M. split; [exact Hscan|]. split; [exact H0|]. split.
    + intros j d Hj Hd. unfold difference in Hd.
      apply (Hall (Z.to_nat (j - 1)) d); [lia|].
      rewrite Hgrid. replace (Z.of_nat (Z.to_nat (j - 1)) + 1) with j by lia. exact Hd.
    + destruct Hat as [->|[j [Hj Hd]]]; [now left|]. right.
      exists (Z.of_nat j + 1). split; [lia|]. unfold difference.
      rewrite <- Hgrid. exact Hd.
Qed.

(** Outside of [a < b] finite, the first test of the loop fails. *)
Lemma second_derivative_scan_empty :
  forall (steps : Z) (fuel : nat) (func : @integrand exact) (a b : @num exact),
    2 <= steps ->
    (forall ra rb, a = Fin ra -> b = Fin rb -> (rb <= ra)%R) ->
    estimateSecondDerivative_with steps (S fuel) func a b = Some (Fin 0).
Proof.
  intros steps fuel func a b Hsteps Hab.
  assert (Hs : (2 <= IZR steps)%R) by (apply IZR_le in Hsteps; exact Hsteps).
  unfold estimateSecondDerivative_with. apply derivative_scan_stops.
  destruct a as [ra| | |], b as [rb| | |]; cbn; decide_reals; cbn; decide_reals.
  exfalso. specialize (Hab ra rb eq_refl eq_refl).
  assert (Hq : ((rb + - ra) / IZR steps <= 0)%R).
  { assert (0 < / IZR steps)%R by (apply Rinv_0_lt_compat; lra). unfold Rdiv. nra. }
  assert (Hm : (IZR steps * ((rb + - ra) / IZR steps) = rb + - ra)%R) by (field; lra).
  nra.
Qed.

Lemma second_derivative_ends :
  forall (steps : Z) (fuel : nat) (func : @integrand exact) (a b : @num exact),
    2 <= steps -> steps - 1 <= Z.of_nat fuel ->
    exists M : R,
      estimateSecondDerivative_with steps fuel func a b = Some (Fin M) /\ (0 <= M)%R.
Proof.
  intros steps fuel func a b Hsteps Hfuel.
  destruct fuel as [|fuel]; [lia|].
  assert (Hcase : (exists ra rb, a = Fin ra /\ b = Fin rb /\ (ra < rb)%R)
                  \/ (forall ra rb, a = Fin ra -> b = Fin rb -> (rb <= ra)%R)).
  { destruct a as [ra| | |], b as [rb| | |]; try (right; intros; discriminate).
    destruct (Rlt_dec ra rb) as [E|E].
    - left. now exists ra, rb.
    - right. intros ra' rb' Ea Eb. injection Ea as <-. injection Eb as <-. lra. }
  destruct Hcase as [[ra [rb [-> [-> Hab]]]]|Hab].
  - destruct (@second_derivative_scan steps (S fuel) func ra rb Hsteps Hfuel Hab)
      as [M [H1 [H2 _]]].
    now exists M.
  - exists 0%R. split; [now apply second_derivative_scan_empty|lra].
Qed.

Lemma fourth_derivative_ends :
  forall (fuel : nat) (func : @integrand exact) (a b : @num exact),
    (997 <= fuel)%nat ->
    exists M : R,
      SimpsonsRule1By3.estimateFourthDerivative fuel func a b = Some (Fin M) /\ (0 <= M)%R.
Proof.
  intros fuel func a b Hfuel. unfold SimpsonsRule1By3.estimateFourthDerivative.
  destruct fuel as [|fuel]; [lia|].
  assert (Hcase : (exists ra rb, a = Fin ra /\ b = Fin rb /\ (ra < rb)%R)
                  \/ (forall ra rb, a = Fin ra -> b = Fin rb -> (rb <= ra)%R)).
  { destruct a as [ra| | |], b as [rb| | |]; try (right; intros; discriminate).
    destruct (Rlt_dec ra rb) as [E|E].
    - left. now exists ra, rb.
    - right. intros ra' rb' Ea Eb. injection Ea as <-. injection Eb as <-. lra. }
  destruct Hcase as [[ra [rb [-> [-> Hab]]]]|Hab].
  - set (h := ((rb - ra) / 1000)%R).
    assert (Hh : @ndiv exact (@nsub exact (Fin rb) (Fin ra)) (of_Z 1000) = Fin h).
    { apply exact_div. lra. }
    assert (Hpos : (0 < h)%R) by (unfold h; lra).
    rewrite Hh.
    change (@of_Z exact 2) with (Fin 2). change (@of_Z exact 0) with (Fin 0).
    change (@nmul exact (Fin 2) (Fin h)) with (Fin (2 * h)).
    change (@nadd exact (Fin ra) (Fin (2 * h))) with (Fin (ra + 2 * h)).
    change (@nsub exact (Fin rb) (Fin (2 * h))) with (Fin (rb + - (2 * h))).
    destruct (@derivative_scan_exact (SimpsonsRule1By3.fourth_difference func (Fin h)) h Hpos
                996%nat (S fuel) (ra + 2 * h)%R (rb + - (2 * h))%R 0%R)
      as [M [Hscan [H0 _]]].
    + lia.
    + intros j Hj. apply lt_INR in Hj.
      replace (INR 996) with 996%R in Hj by (rewrite INR_IZR_INZ; reflexivity).
      assert (Hstep : (1000 * h = rb - ra)%R) by (unfold h; field).
      nra.
    + replace (INR 996) with 996%R by (rewrite INR_IZR_INZ; reflexivity).
      unfold h. lra.
    + now exists M.
  - exists 0%R. split; [|lra]. apply derivative_scan_stops.
    destruct a as [ra| | |], b as [rb| | |];
      do 3 (cbn; unfold signed_inf; decide_reals).
    exfalso. specialize (Hab ra rb eq_refl eq_refl). lra.
Qed.

Lemma getErrorEstimate_ends :
  forall (fuel : nat) (m : method) (func : @integrand exact) (a b : @num exact) (n : Z),
    (999 <= fuel)%nat ->
    exists estimate, getErrorEstimate fuel m func a b n = Some estimate.
Proof.
  intros fuel m func a b n Hfuel. unfold getErrorEstimate.
  destruct (class_of m).
  - unfold TrapezoidalRule.getErrorEstimate, TrapezoidalRule.estimateSecondDerivative.
    destruct (@second_derivative_ends 1000 fuel func a b) as [M [-> _]]; [lia|lia|].
    eexists. reflexivity.
  - unfold SimpsonsRule1By3.getErrorEstimate, SimpsonsRule1By3.estimateSecondDerivative.
    destruct (Z.rem n 2 =? 0).
    + destruct (@fourth_derivative_ends fuel func a b) as [M [-> _]]; [lia|].
      eexists. reflexivity.
    + destruct (@fourth_derivative_ends fuel func a (b - (b - a) / of_Z n)%num)
        as [M [-> _]]; [lia|].
      destruct (@second_derivative_ends 100 fuel func (b - (b - a) / of_Z n)%num b)
        as [M' [-> _]]; [lia|lia|].
      eexists. reflexivity.
  - eexists. reflexivity.
  - unfold MidpointRule.getErrorEstimate, MidpointRule.estimateSecondDerivative.
    destruct (@second_derivative_ends 1000 fuel func a b) as [M [-> _]]; [lia|lia|].
    eexists. reflexivity.
  - eexists. reflexivity.
Qed.

Lemma calculate_all_ends :
  forall (table : list (string * Constants.entry)) (fuel : nat) (random : nat -> @num exact)
         (st : Calculator.state) (registry : list method),
    (999 <= fuel)%nat ->
    exists results registry',
      Calculator.calculate_all table fuel random st registry = Some (results, registry').
Proof.
  intros table fuel random st registry Hfuel.
  induction registry as [|m rest [rs [rest' IH]]]; cbn.
  - now exists [], [].
  - rewrite IH.
    destruct (Calculator.includes (Calculator.selectedMethods st) (name m));
      [|eexists; eexists; reflexivity].
    unfold Calculator.calculate.
    destruct (integrate random m (Calculator.currentFunc st) (Calculator.lowerLimit st)
                (Calculator.upperLimit st) (Calculator.intervals st)) as [[v|e] m'].
    + destruct (@getErrorEstimate_ends fuel m' (Calculator.currentFunc st)
                  (Calculator.lowerLimit st) (Calculator.upperLimit st)
                  (Calculator.intervals st) Hfuel) as [estimate ->].
      eexists. eexists. reflexivity.
    + eexists. eexists. reflexivity.
Qed.

End EstimateFacts.

(** X14.  In exact arithmetic, on [a < b], the second-derivative bound of a rule
    (1000 steps for the trapezoidal and the midpoint rule, 100 for Simpson 1/3)
    is returned after [steps - 2] iterations.  It is the largest finite
    second difference [|f(x + h) - 2 f(x) + f(x - h)| / h^2] over the grid
    [x = a + j * h], [j = 1, ..., steps - 2], with [h = (b - a) / steps]: it
    bounds each of them, and it is 0 or one of them.  Points where the
    integrand throws or the difference is not finite are skipped. *)
Theorem second_derivative_bound_is_the_largest_difference :
  forall (steps : Z) (fuel : nat) (func : @integrand exact) (a b : R),
    2 <= steps -> steps - 1 <= Z.of_nat fuel -> (a < b)%R ->
    let h := ((b - a) / IZR steps)%R in
    let difference := fun j : Z =>
      second_difference func (ExtendedReal.Fin h) (ExtendedReal.Fin (a + IZR j * h)) in
    exists M : R,
      estimateSecondDerivative_with steps fuel func (ExtendedReal.Fin a) (ExtendedReal.Fin b)
      = Some (ExtendedReal.Fin M)
      /\ (0 <= M)%R
      /\ (forall j d, 1 <= j <= steps - 2 ->
                      difference j = Return (ExtendedReal.Fin d) -> (d <= M)%R)
      /\ (M = 0%R
          \/ exists j, 1 <= j <= steps - 2 /\ difference j = Return (ExtendedReal.Fin M)).
Proof.
  exact second_derivative_scan.
Qed.

(** X14 for the trapezoidal rule on the square over [[0, 2]]. *)
Lemma second_derivative_bound_witness :
  exists M : R,
    TrapezoidalRule.estimateSecondDerivative 999 (total (real_function (fun x => x * x)%R))
      (ExtendedReal.Fin 0) (ExtendedReal.Fin 2)
    = Some (ExtendedReal.Fin M)
    /\ (0 <= M)%R.
Proof.
  destruct (@second_derivative_bound_is_the_largest_difference 1000 999
              (total (real_function (fun x => x * x)%R)) 0%R 2%R)
    as [M [H1 [H2 _]]]; [lia|lia|lra|].
  exists M. split; [exact H1|exact H2].
Defined.

(** X15.  In exact arithmetic a calculation always ends, for every state and
    every registry: 999 iterations of fuel see each derivative scan return. *)
Theorem calculation_ends_in_exact_arithmetic :
  forall (table : list (string * Constants.entry)) (fuel : nat) (random : nat -> @num exact)
         (st : Calculator.state) (registry : list method),
    (999 <= fuel)%nat ->
    exists outcome registry',
      Calculator.performCalculations table fuel random st registry
      = Some (outcome, registry').
Proof.
  intros table fuel random st registry Hfuel. unfold Calculator.performCalculations.
  destruct (Calculator.selectedMethods st); [eexists; eexists; reflexivity|].
  destruct (@calculate_all_ends table fuel random st registry Hfuel) as [rs [reg ->]].
  eexists. eexists. reflexivity.
Qed.

(** X15 for the square on [[0, 2]] with every registered method selected. *)
Lemma calculation_ends_witness :
  exists outcome registry',
    Calculator.performCalculations (N := exact) Constants.predefinedFunctions 999
      (fun _ => ExtendedReal.Fin (1 / 2))
      {| Calculator.selectedFunction := "x^2";
         Calculator.customFunction := "";
         Calculator.currentFunc := total (fun x => x * x)%num;
         Calculator.lowerLimit := ExtendedReal.Fin 0;
         Calculator.upperLimit := ExtendedReal.Fin 2;
         Calculator.intervals := 10;
         Calculator.selectedMethods :=
           ["Trapezoidal Rule"; "Simpson's 1/3"; "Simpson's 3/8"; "Monte Carlo"] |}
      integrationMethods
    = Some (outcome, registry').
Proof.
  apply (@calculation_ends_in_exact_arithmetic Constants.predefinedFunctions 999
           (fun _ => ExtendedReal.Fin (1 / 2))).
  lia.
Defined.

(** X16.  When the step [h = (b - a) / 1000] is absorbed by the first grid
    point ([(a + h) + h] is [a + h] again) and that point is below [b - h],
    the scan behind the trapezoidal error estimate never ends: no amount of
    fuel sees [getErrorEstimate] return.  This happens in binary64 for limits
    that are large next to their distance. *)
Theorem absorbed_step_never_ends :
  forall (N : Number) (func : integrand) (a b : num) (n : Z),
    let h := ((b - a) / of_Z 1000)%num in
    ((a + h) + h)%num = (a + h)%num ->
    ((a + h) <? (b - h))%num = true ->
    forall fuel : nat, TrapezoidalRule.getErrorEstimate fuel func a b n = None.
Proof.
  intros N func a b n h Hx Hb fuel.
  unfold TrapezoidalRule.getErrorEstimate, TrapezoidalRule.estimateSecondDerivative,
    estimateSecondDerivative_with.
  fold h. now rewrite (derivative_scan_stalls _ _ _ _ Hx Hb).
Qed.

(** X16 in binary64 on [[1e17, 1e17 + 2000]]: the step is 2 and the doubles
    near 1e17 are 16 apart; with fuel for 5000 iterations. *)
Lemma absorbed_step_witness :
  TrapezoidalRule.getErrorEstimate (N := binary64) 5000 (total (fun x => x * x)%num)
    (of_Z 100000000000000000) (of_Z 100000000000002000) 10
  = None.
Proof.
  apply (@absorbed_step_never_ends binary64 (total (fun x => x * x)%num)
           (of_Z 100000000000000000) (of_Z 100000000000002000) 10);
    vm_compute; reflexivity.
Defined.

(** ** The rules on polynomials, in exact arithmetic *)

Section PolynomialFacts.
Import ExtendedReal.

Lemma rem_multiple : forall q m : Z, 0 < q -> Z.rem (q * m) q = 0.
Proof.
  intros q m Hq. rewrite Z.mul_comm. apply Z.rem_mul. lia.
Qed.

Lemma rem_offset : forall q m r : Z, 0 <= m -> 0 <= r < q -> Z.rem (q * m + r) q = r.
Proof.
  intros q m r Hm Hr. rewrite Z.rem_mod_nonneg by nia.
  rewrite Z.add_comm, Z.mul_comm, Z.mod_add by lia. apply Z.mod_small. lia.
Qed.

(** The weighted sum of Simpson 1/3 over the inner nodes [1], ..., [2k + 1]
    of a quartic. *)
Lemma simpson13_quartic_sum : forall (c0 c1 c2 c3 c4 a h : R) (k : nat),
  let g := quartic c0 c1 c2 c3 c4 in
  let n := (2 * (INR k + 1))%R in
  (h * Rsum (fun j => simpson_weight j * g (a + IZR j * h)) (count_from (2 * k + 1) 1)
   = 3 * (quartic_integral c0 c1 c2 c3 c4 a (a + n * h) + 2 * c4 * (n * h) * h ^ 4 / 15)
     - h * (g a + g (a + n * h)))%R.
Proof.
  intros c0 c1 c2 c3 c4 a h k g. induction k as [|k IH]; intro n.
  - unfold n, g, quartic, quartic_integral. cbn. unfold simpson_weight. cbn. field.
  - replace (2 * S k + 1)%nat with ((2 * k + 1) + 2)%nat by lia.
    rewrite count_from_app, Rsum_app, Rmult_plus_distr_l, IH.
    cbn [count_from Rsum fold_right].
    replace (1 + Z.of_nat (2 * k + 1)) with (2 * (Z.of_nat k + 1)) by lia.
    unfold simpson_weight.
    rewrite rem_multiple by lia. rewrite rem_offset by lia.
    change (0 =? 0) with true. change (1 =? 0) with false. cbv iota.
    rewrite !plus_IZR, !mult_IZR, !plus_IZR, <- !INR_IZR_INZ.
    unfold n. rewrite S_INR. unfold g, quartic, quartic_integral. field.
Qed.

(** The sum of the trapezoidal rule over the inner nodes [1], ..., [k] of a
    quadratic. *)
Lemma trapezoidal_quadratic_sum : forall (c0 c1 c2 a h : R) (k : nat),
  let g := quartic c0 c1 c2 0 0 in
  let n := (INR k + 1)%R in
  (h * Rsum (fun j => g (a + IZR j * h)) (count_from k 1)
   = quartic_integral c0 c1 c2 0 0 a (a + n * h) + c2 * (n * h) * h ^ 2 / 6
     - h * (g a + g (a + n * h)) / 2)%R.
Proof.
  intros c0 c1 c2 a h k g. induction k as [|k IH]; intro n.
  - unfold n, g, quartic, quartic_integral. cbn. field.
  - replace (S k) with (k + 1)%nat by lia.
    rewrite count_from_app, Rsum_app, Rmult_plus_distr_l, IH.
    cbn [count_from Rsum fold_right].
    rewrite !plus_IZR, <- !INR_IZR_INZ.
    unfold n. rewrite S_INR. unfold g, quartic, quartic_integral. field.
Qed.

(** The sum of the midpoint rule over the panels [0], ..., [k - 1] of a
    quadratic. *)
Lemma midpoint_quadratic_sum : forall (c0 c1 c2 a h : R) (k : nat),
  let g := quartic c0 c1 c2 0 0 in
  (h * Rsum (fun j => g (a + (IZR j + 5 / 10) * h)) (count_from k 0)
   = quartic_integral c0 c1 c2 0 0 a (a + INR k * h) - c2 * (INR k * h) * h ^ 2 / 12)%R.
Proof.
  intros c0 c1 c2 a h k g. induction k as [|k IH].
  - unfold g, quartic, quartic_integral. cbn. field.
  - rewrite S_INR. replace (S k) with (k + 1)%nat by lia.
    rewrite count_from_app, Rsum_app, Rmult_plus_distr_l, IH.
    cbn [count_from Rsum fold_right].
    rewrite !plus_IZR, <- !INR_IZR_INZ.
    unfold g, quartic, quartic_integral. field.
Qed.

(** The weighted sum of Simpson 3/8 over the inner nodes [1], ..., [3k + 2]
    of a quartic. *)
Lemma simpson38_quartic_sum : forall (c0 c1 c2 c3 c4 a h : R) (k : nat),
  let g := quartic c0 c1 c2 c3 c4 in
  let n := (3 * (INR k + 1))%R in
  (h * Rsum (fun j => simpson38_weight j * g (a + IZR j * h)) (count_from (3 * k + 2) 1)
   = 8 / 3 * (quartic_integral c0 c1 c2 c3 c4 a (a + n * h)
              + 3 * c4 * (n * h) * h ^ 4 / 10)
     - h * (g a + g (a + n * h)))%R.
Proof.
  intros c0 c1 c2 c3 c4 a h k g. induction k as [|k IH]; intro n.
  - unfold n, g, quartic, quartic_integral. cbn. unfold simpson38_weight. cbn. field.
  - replace (3 * S k + 2)%nat with ((3 * k + 2) + 3)%nat by lia.
    rewrite count_from_app, Rsum_app, Rmult_plus_distr_l, IH.
    cbn [count_from Rsum fold_right].
    replace (1 + Z.of_nat (3 * k + 2)) with (3 * (Z.of_nat k + 1)) by lia.
    replace (3 * (Z.of_nat k + 1) + 1 + 1) with (3 * (Z.of_nat k + 1) + 2) by lia.
    unfold simpson38_weight.
    rewrite rem_multiple by lia. rewrite !rem_offset by lia.
    change (0 =? 0) with true. change (1 =? 0) with false. change (2 =? 0) with false.
    cbv iota.
    rewrite !plus_IZR, !mult_IZR, !plus_IZR, <- !INR_IZR_INZ.
    unfold n. rewrite S_INR. unfold g, quartic, quartic_integral. field.
Qed.

Lemma trapezoidal_exact :
  forall (func : @integrand exact) (g : R -> R) (a b : R) (n : Z),
    real_valued func g -> n <> 0 ->
    let h := ((b - a) / IZR n)%R in
    TrapezoidalRule.integrate func (Fin a) (Fin b) n
    = Return (Fin (((g a + g b) / 2
                    + Rsum (fun j => g (a + IZR j * h))%R (range 1 n)) * h)).
Proof.
  intros func g a b n Hg Hn h. unfold TrapezoidalRule.integrate.
  assert (Hh : @ndiv exact (@nsub exact (Fin b) (Fin a)) (of_Z n) = Fin h).
  { apply exact_div. intro E. apply Hn. now apply eq_IZR. }
  rewrite Hh. unfold call at 1 2. rewrite !Hg. cbn [bind].
  unfold for_loop. change (@nadd exact (Fin (g a)) (Fin (g b))) with (Fin (g a + g b)).
  change (@of_Z exact 2) with (Fin 2). rewrite exact_div by lra.
  rewrite for_range_exact with (term := (fun j => g (a + IZR j * h))%R).
  - reflexivity.
  - intros j s' _. unfold call. cbn. rewrite Hg. reflexivity.
Qed.

Lemma midpoint_exact :
  forall (func : @integrand exact) (g : R -> R) (a b : R) (n : Z),
    real_valued func g -> n <> 0 ->
    let h := ((b - a) / IZR n)%R in
    MidpointRule.integrate func (Fin a) (Fin b) n
    = Return (Fin ((0 + Rsum (fun j => g (a + (IZR j + 5 / 10) * h))%R (range 0 n)) * h)).
Proof.
  intros func g a b n Hg Hn h. unfold MidpointRule.integrate.
  assert (Hh : @ndiv exact (@nsub exact (Fin b) (Fin a)) (of_Z n) = Fin h).
  { apply exact_div. intro E. apply Hn. now apply eq_IZR. }
  rewrite Hh. unfold for_loop. change (@of_Z exact 0) with (Fin 0).
  assert (Hl : @literal exact 5 10 = Fin (5 / 10)).
  { unfold literal. apply exact_div. lra. }
  rewrite Hl.
  rewrite for_range_exact with (term := (fun j => g (a + (IZR j + 5 / 10) * h))%R).
  - reflexivity.
  - intros j s' _. unfold call. cbn. rewrite Hg. reflexivity.
Qed.

Lemma simpson38_exact :
  forall (func : @integrand exact) (g : R -> R) (a b : R) (n : Z),
    real_valued func g -> 3 <= n -> Z.rem n 3 = 0 ->
    let h := ((b - a) / IZR n)%R in
    SimpsonsRule3By8.integrate func (Fin a) (Fin b) n
    = Return (Fin (0 + 3 * h / 8
                       * (g a + g (a + IZR n * h)
                          + Rsum (fun j => simpson38_weight j * g (a + IZR j * h))
                              (range 1 n)))%R).
Proof.
  intros func g a b n Hg Hn Hrem h. unfold SimpsonsRule3By8.integrate.
  assert (Hh : @ndiv exact (@nsub exact (Fin b) (Fin a)) (of_Z n) = Fin h).
  { apply exact_div. apply not_0_IZR. lia. }
  destruct (Z.ltb_spec n 3) as [E|_]; [lia|].
  rewrite Hrem, Z.sub_0_r, Hh.
  destruct (Z.geb_spec n 3) as [_|E]; [|lia].
  change (0 >? 0) with false. cbv iota.
  change (@nadd exact (Fin a) (@nmul exact (of_Z n) (Fin h))) with (Fin (a + IZR n * h)%R).
  unfold call at 1 2. rewrite !Hg. cbn [bind]. unfold for_loop.
  change (@nadd exact (Fin (g a)) (Fin (g (a + IZR n * h)%R)))
    with (Fin (g a + g (a + IZR n * h))%R).
  rewrite for_range_exact
    with (term := (fun j => simpson38_weight j * g (a + IZR j * h))%R).
  - cbn [bind]. change (@of_Z exact 0) with (Fin 0). change (@of_Z exact 3) with (Fin 3).
    change (@of_Z exact 8) with (Fin 8).
    change (@nmul exact (Fin 3) (Fin h)) with (Fin (3 * h)%R).
    rewrite exact_div by lra. reflexivity.
  - intros j s' _. unfold simpson38_weight.
    destruct (Z.rem j 3 =? 0); unfold call; cbn; rewrite Hg; reflexivity.
Qed.

Lemma even_half : forall n : Z,
  2 <= n -> Z.even n = true -> exists k : nat, n = 2 * (Z.of_nat k + 1).
Proof.
  intros n Hn Heven. exists (Z.to_nat (n / 2 - 1)).
  rewrite Zeven_rem in Heven. apply Z.eqb_eq in Heven.
  pose proof (Z.rem_mod_nonneg n 2 ltac:(lia) ltac:(lia)) as Hm. rewrite Heven in Hm.
  pose proof (Z.div_mod n 2 ltac:(lia)).
  assert (1 <= n / 2) by (apply Z.div_le_lower_bound; lia). lia.
Qed.

Lemma third : forall n : Z,
  3 <= n -> Z.rem n 3 = 0 -> exists k : nat, n = 3 * (Z.of_nat k + 1).
Proof.
  intros n Hn Hrem. exists (Z.to_nat (n / 3 - 1)).
  pose proof (Z.rem_mod_nonneg n 3 ltac:(lia) ltac:(lia)) as Hm. rewrite Hrem in Hm.
  pose proof (Z.div_mod n 3 ltac:(lia)).
  assert (1 <= n / 3) by (apply Z.div_le_lower_bound; lia). lia.
Qed.

(** The values of the rules on polynomials. *)
Lemma simpson13_quartic_value :
  forall (func : @integrand exact) (c0 c1 c2 c3 c4 a b : R) (n : Z),
    real_valued func (quartic c0 c1 c2 c3 c4) -> 2 <= n -> Z.even n = true ->
    SimpsonsRule1By3.integrate func (Fin a) (Fin b) n
    = Return (Fin (quartic_integral c0 c1 c2 c3 c4 a b
                   + 2 * c4 * (b - a) ^ 5 / (15 * IZR n ^ 4))).
Proof.
  intros func c0 c1 c2 c3 c4 a b n Hg Hn Heven. unfold SimpsonsRule1By3.integrate.
  rewrite <- Zeven_rem, Heven.
  rewrite (simpsonRule_exact a b Hg) by lia. do 2 f_equal.
  destruct (even_half Hn Heven) as [k ->]. unfold range.
  replace (Z.to_nat (2 * (Z.of_nat k + 1) - 1)) with (2 * k + 1)%nat by lia.
  set (h := ((b - a) / IZR (2 * (Z.of_nat k + 1)))%R).
  pose proof (simpson13_quartic_sum c0 c1 c2 c3 c4 a h k) as Hsum. cbv zeta in Hsum.
  set (S := Rsum _ _) in *.
  assert (Hn' : IZR (2 * (Z.of_nat k + 1)) = (2 * (INR k + 1))%R).
  { rewrite mult_IZR, plus_IZR, <- INR_IZR_INZ. reflexivity. }
  assert (Hpos : (0 < INR k + 1)%R) by (pose proof (pos_INR k); lra).
  assert (Hb : (a + 2 * (INR k + 1) * h = b)%R).
  { unfold h. rewrite Hn'. field. lra. }
  rewrite Hb in Hsum.
  replace ((quartic c0 c1 c2 c3 c4 a + quartic c0 c1 c2 c3 c4 b + S) * h / 3)%R
    with ((h * (quartic c0 c1 c2 c3 c4 a + quartic c0 c1 c2 c3 c4 b) + h * S) / 3)%R
    by field.
  rewrite Hsum, Hn'. unfold h. rewrite Hn'. field. lra.
Qed.

Lemma trapezoidal_quadratic_value :
  forall (func : @integrand exact) (c0 c1 c2 a b : R) (n : Z),
    real_valued func (quartic c0 c1 c2 0 0) -> 1 <= n ->
    TrapezoidalRule.integrate func (Fin a) (Fin b) n
    = Return (Fin (quartic_integral c0 c1 c2 0 0 a b
                   + c2 * (b - a) ^ 3 / (6 * IZR n ^ 2))).
Proof.
  intros func c0 c1 c2 a b n Hg Hn.
  rewrite (trapezoidal_exact a b Hg) by lia. do 2 f_equal. unfold range.
  set (h := ((b - a) / IZR n)%R).
  pose proof (trapezoidal_quadratic_sum c0 c1 c2 a h (Z.to_nat (n - 1))) as Hsum.
  cbv zeta in Hsum. set (S := Rsum _ _) in *.
  assert (Hn' : (INR (Z.to_nat (n - 1)) + 1)%R = IZR n).
  { rewrite INR_IZR_INZ, Z2Nat.id, minus_IZR by lia. ring. }
  assert (Hpos : (1 <= IZR n)%R) by (apply IZR_le in Hn; exact Hn).
  rewrite Hn' in Hsum.
  assert (Hb : (a + IZR n * h = b)%R) by (unfold h; field; lra).
  rewrite Hb in Hsum.
  replace (((quartic c0 c1 c2 0 0 a + quartic c0 c1 c2 0 0 b) / 2 + S) * h)%R
    with (h * (quartic c0 c1 c2 0 0 a + quartic c0 c1 c2 0 0 b) / 2 + h * S)%R by field.
  rewrite Hsum. unfold h. field. lra.
Qed.

Lemma midpoint_quadratic_value :
  forall (func : @integrand exact) (c0 c1 c2 a b : R) (n : Z),
    real_valued func (quartic c0 c1 c2 0 0) -> 1 <= n ->
    MidpointRule.integrate func (Fin a) (Fin b) n
    = Return (Fin (quartic_integral c0 c1 c2 0 0 a b
                   - c2 * (b - a) ^ 3 / (12 * IZR n ^ 2))).
Proof.
  intros func c0 c1 c2 a b n Hg Hn.
  rewrite (midpoint_exact a b Hg) by lia. do 2 f_equal. unfold range.
  set (h := ((b - a) / IZR n)%R).
  pose proof (midpoint_quadratic_sum c0 c1 c2 a h (Z.to_nat (n - 0))) as Hsum.
  cbv zeta in Hsum. set (S := Rsum _ _) in *.
  assert (Hn' : INR (Z.to_nat (n - 0)) = IZR n).
  { rewrite INR_IZR_INZ, Z2Nat.id by lia. f_equal. lia. }
  assert (Hpos : (1 <= IZR n)%R) by (apply IZR_le in Hn; exact Hn).
  rewrite Hn' in Hsum.
  assert (Hb : (a + IZR n * h = b)%R) by (unfold h; field; lra).
  rewrite Hb in Hsum.
  replace ((0 + S) * h)%R with (h * S)%R by ring.
  rewrite Hsum. unfold h. field. lra.
Qed.

(** The differences behind the derivative bounds. *)
Lemma second_difference_exact :
  forall (func : @integrand exact) (g : R -> R) (h x : R),
    real_valued func g -> h <> 0%R ->
    second_difference func (Fin h) (Fin x)
    = Return (Fin (Rabs ((g (x + h) + - (2 * g x) + g (x + - h)) / (h * h)))%R).
Proof.
  intros func g h x Hg Hh. unfold second_difference, call.
  change (@nadd exact (Fin x) (Fin h)) with (Fin (x + h)%R).
  change (@nsub exact (Fin x) (Fin h)) with (Fin (x + - h)%R).
  rewrite !Hg. cbn [bind]. change (@of_Z exact 2) with (Fin 2).
  change (@nmul exact (Fin h) (Fin h)) with (Fin (h * h)%R).
  change (@nadd exact
            (@nsub exact (Fin (g (x + h)%R)) (@nmul exact (Fin 2) (Fin (g x))))
            (Fin (g (x + - h)%R)))
    with (Fin (g (x + h) + - (2 * g x) + g (x + - h))%R).
  rewrite exact_div; [reflexivity|]. apply Rmult_integral_contrapositive_currified; exact Hh.
Qed.

Lemma fourth_difference_exact :
  forall (func : @integrand exact) (g : R -> R) (h x : R),
    real_valued func g -> h <> 0%R ->
    SimpsonsRule1By3.fourth_difference func (Fin h) (Fin x)
    = Return (Fin (Rabs ((g (x + 2 * h) + - (4 * g (x + h)) + 6 * g x
                          + - (4 * g (x + - h)) + g (x + - (2 * h)))
                         / (1 * h * h * h * h)))%R).
Proof.
  intros func g h x Hg Hh. unfold SimpsonsRule1By3.fourth_difference, call.
  change (@of_Z exact 2) with (Fin 2). change (@of_Z exact 4) with (Fin 4).
  change (@of_Z exact 6) with (Fin 6).
  change (@nmul exact (Fin 2) (Fin h)) with (Fin (2 * h)%R).
  change (@nadd exact (Fin x) (Fin (2 * h)%R)) with (Fin (x + 2 * h)%R).
  change (@nadd exact (Fin x) (Fin h)) with (Fin (x + h)%R).
  change (@nsub exact (Fin x) (Fin h)) with (Fin (x + - h)%R).
  change (@nsub exact (Fin x) (Fin (2 * h)%R)) with (Fin (x + - (2 * h))%R).
  rewrite !Hg. cbn [bind].
  change (@Math_pow exact (Fin h) 4) with (Fin (1 * h * h * h * h)%R).
  match goal with
  | |- Return (@Math_abs exact (@ndiv exact ?num _)) = _ =>
      change num
        with (Fin (g (x + 2 * h) + - (4 * g (x + h)) + 6 * g x
                   + - (4 * g (x + - h)) + g (x + - (2 * h)))%R)
  end.
  rewrite exact_div; [reflexivity|].
  repeat apply Rmult_integral_contrapositive_currified; try exact Hh. lra.
Qed.

Lemma quadratic_second_derivative :
  forall (steps : Z) (fuel : nat) (func : @integrand exact) (c0 c1 c2 a b : R),
    real_valued func (quartic c0 c1 c2 0 0) ->
    3 <= steps -> steps - 1 <= Z.of_nat fuel -> (a < b)%R ->
    estimateSecondDerivative_with steps fuel func (Fin a) (Fin b)
    = Some (Fin (Rabs (2 * c2))).
Proof.
  intros steps fuel func c0 c1 c2 a b Hg Hsteps Hfuel Hab.
  destruct (@second_derivative_scan steps fuel func a b ltac:(lia) Hfuel Hab)
    as [M [Hscan [H0 [Hall Hat]]]].
  rewrite Hscan. do 2 f_equal.
  set (h := ((b - a) / IZR steps)%R) in *.
  assert (Hs : (3 <= IZR steps)%R) by (apply IZR_le in Hsteps; exact Hsteps).
  assert (Hh : h <> 0%R).
  { unfold h. apply Rgt_not_eq. apply Rdiv_lt_0_compat; lra. }
  assert (Hd : forall j : Z,
             second_difference func (Fin h) (Fin (a + IZR j * h)%R)
             = Return (Fin (Rabs (2 * c2)))).
  { intro j. rewrite (@second_difference_exact func _ h (a + IZR j * h)%R Hg Hh).
    do 3 f_equal. unfold quartic. field. exact Hh. }
  assert (Hle : (Rabs (2 * c2) <= M)%R) by (apply (Hall 1); [lia|apply Hd]).
  destruct Hat as [->|[j [_ Hj]]].
  - pose proof (Rabs_pos (2 * c2)). lra.
  - rewrite Hd in Hj. now injection Hj as ->.
Qed.

Lemma fourth_derivative_scan :
  forall (fuel : nat) (func : @integrand exact) (a b : R),
    (997 <= fuel)%nat -> (a < b)%R ->
    let h := ((b - a) / 1000)%R in
    let difference := fun j : Z =>
      SimpsonsRule1By3.fourth_difference func (Fin h) (Fin (a + IZR j * h)%R) in
    exists M : R,
      SimpsonsRule1By3.estimateFourthDerivative fuel func (Fin a) (Fin b) = Some (Fin M)
      /\ (0 <= M)%R
      /\ (forall j d, 2 <= j <= 997 -> difference j = Return (Fin d) -> (d <= M)%R)
      /\ (M = 0%R \/ exists j, 2 <= j <= 997 /\ difference j = Return (Fin M)).
Proof.
  intros fuel func a b Hfuel Hab h difference.
  unfold SimpsonsRule1By3.estimateFourthDerivative.
  assert (Hh : @ndiv exact (@nsub exact (Fin b) (Fin a)) (of_Z 1000) = Fin h).
  { apply exact_div. lra. }
  assert (Hpos : (0 < h)%R) by (unfold h; lra).
  assert (Hstep : (1000 * h = b - a)%R) by (unfold h; field).
  rewrite Hh.
  change (@of_Z exact 2) with (Fin 2). change (@of_Z exact 0) with (Fin 0).
  change (@nmul exact (Fin 2) (Fin h)) with (Fin (2 * h)%R).
  change (@nadd exact (Fin a) (Fin (2 * h)%R)) with (Fin (a + 2 * h)%R).
  change (@nsub exact (Fin b) (Fin (2 * h)%R)) with (Fin (b + - (2 * h))%R).
  assert (Hk : INR 996 = 996%R) by (rewrite INR_IZR_INZ; reflexivity).
  destruct (@derivative_scan_exact (SimpsonsRule1By3.fourth_difference func (Fin h)) h Hpos
              996%nat fuel (a + 2 * h)%R (b + - (2 * h))%R 0%R)
    as [M [Hscan [H0 [Hall Hat]]]].
  - lia.
  - intros j Hj. apply lt_INR in Hj. rewrite Hk in Hj. nra.
  - rewrite Hk. nra.
  - assert (Hgrid : forall j : nat,
               (a + 2 * h + INR j * h)%R = (a + IZR (Z.of_nat j + 2) * h)%R).
    { intro j. rewrite plus_IZR, <- INR_IZR_INZ. ring. }
    exists M. split; [exact Hscan|]. split; [exact H0|]. split.
    + intros j d Hj Hd. unfold difference in Hd.
      apply (Hall (Z.to_nat (j - 2)) d); [lia|].
      rewrite Hgrid. replace (Z.of_nat (Z.to_nat (j - 2)) + 2) with j by lia. exact Hd.
    + destruct Hat as [->|[j [Hj Hd]]]; [now left|]. right.
      exists (Z.of_nat j + 2). split; [lia|]. unfold difference.
      rewrite <- Hgrid. exact Hd.
Qed.

Lemma quartic_fourth_derivative :
  forall (fuel : nat) (func : @integrand exact) (c0 c1 c2 c3 c4 a b : R),
    real_valued func (quartic c0 c1 c2 c3 c4) ->
    (997 <= fuel)%nat -> (a < b)%R ->
    SimpsonsRule1By3.estimateFourthDerivative fuel func (Fin a) (Fin b)
    = Some (Fin (Rabs (24 * c4))).
Proof.
  intros fuel func c0 c1 c2 c3 c4 a b Hg Hfuel Hab.
  destruct (@fourth_derivative_scan fuel func a b Hfuel Hab)
    as [M [Hscan [H0 [Hall Hat]]]].
  rewrite Hscan. do 2 f_equal.
  set (h := ((b - a) / 1000)%R) in *.
  assert (Hh : h <> 0%R) by (unfold h; lra).
  assert (Hd : forall j : Z,
             SimpsonsRule1By3.fourth_difference func (Fin h) (Fin (a + IZR j * h)%R)
             = Return (Fin (Rabs (24 * c4)))).
  { intro j. rewrite (@fourth_difference_exact func _ h (a + IZR j * h)%R Hg Hh).
    do 3 f_equal. unfold quartic. field. exact Hh. }
  assert (Hle : (Rabs (24 * c4) <= M)%R) by (apply (Hall 2); [lia|apply Hd]).
  destruct Hat as [->|[j [_ Hj]]].
  - pose proof (Rabs_pos (24 * c4)). lra.
  - rewrite Hd in Hj. now injection Hj as ->.
Qed.

Lemma Rabs_scale : forall x y : R, (0 <= x)%R -> Rabs (x * Rabs y) = Rabs (y * x).
Proof.
  intros x y Hx. rewrite !Rabs_mult, Rabs_Rabsolu, (Rabs_right x) by lra. ring.
Qed.

End PolynomialFacts.

(** X17.  In exact arithmetic, on the quadratic [c0 + c1 x + c2 x^2] and with
    [n >= 1] intervals, the trapezoidal rule returns the integral plus
    [c2 (b - a)^3 / (6 n^2)]; and on [a < b] its error estimate is exactly the
    size of that excess. *)
Theorem trapezoidal_rule_on_quadratics :
  forall (func : @integrand exact) (c0 c1 c2 a b : R) (n : Z) (fuel : nat),
    real_valued func (quartic c0 c1 c2 0 0) -> 1 <= n ->
    let excess := (c2 * (b - a) ^ 3 / (6 * IZR n ^ 2))%R in
    TrapezoidalRule.integrate func (ExtendedReal.Fin a) (ExtendedReal.Fin b) n
    = Return (ExtendedReal.Fin (quartic_integral c0 c1 c2 0 0 a b + excess))
    /\ ((a < b)%R -> (999 <= fuel)%nat ->
        TrapezoidalRule.getErrorEstimate fuel func (ExtendedReal.Fin a) (ExtendedReal.Fin b) n
        = Some (Some (ExtendedReal.Fin (Rabs excess)))).
Proof.
  intros func c0 c1 c2 a b n fuel Hg Hn excess. split.
  - now apply trapezoidal_quadratic_value.
  - intros Hab Hfuel.
    unfold TrapezoidalRule.getErrorEstimate, TrapezoidalRule.estimateSecondDerivative.
    rewrite (@quadratic_second_derivative 1000 fuel func c0 c1 c2 a b Hg) by (lia || lra).
    assert (Hpos : (1 <= IZR n)%R) by (apply IZR_le in Hn; exact Hn).
    change (@Math_pow exact (@nsub exact (ExtendedReal.Fin b) (ExtendedReal.Fin a)) 3)
      with (ExtendedReal.Fin (1 * (b + - a) * (b + - a) * (b + - a))).
    change (@nmul exact (@nmul exact (of_Z 12) (of_Z n)) (of_Z n))
      with (ExtendedReal.Fin (12 * IZR n * IZR n)).
    change (@nmul exact (ExtendedReal.Fin ?x) (ExtendedReal.Fin ?y))
      with (ExtendedReal.Fin (x * y)).
    rewrite exact_div by nra.
    change (@Math_abs exact (ExtendedReal.Fin ?x)) with (ExtendedReal.Fin (Rabs x)).
    do 3 f_equal.
    replace (1 * (b + - a) * (b + - a) * (b + - a) * Rabs (2 * c2) / (12 * IZR n * IZR n))%R
      with ((b - a) ^ 3 / (12 * IZR n ^ 2) * Rabs (2 * c2))%R by (field; lra).
    rewrite Rabs_scale.
    + f_equal. unfold excess. field. lra.
    + apply Rlt_le. apply Rdiv_lt_0_compat; [apply pow_lt; lra|nra].
Qed.

(** X17 at the square on [[0, 2]] with four intervals: 8/3 + 1/4. *)
Lemma trapezoidal_quadratic_witness :
  TrapezoidalRule.integrate (total (real_function (quartic 0 0 1 0 0)))
    (ExtendedReal.Fin 0) (ExtendedReal.Fin 2) 4
  = Return (ExtendedReal.Fin (quartic_integral 0 0 1 0 0 0 2
                              + 1 * (2 - 0) ^ 3 / (6 * IZR 4 ^ 2)))
  /\ TrapezoidalRule.getErrorEstimate 999 (total (real_function (quartic 0 0 1 0 0)))
       (ExtendedReal.Fin 0) (ExtendedReal.Fin 2) 4
     = Some (Some (ExtendedReal.Fin (Rabs (1 * (2 - 0) ^ 3 / (6 * IZR 4 ^ 2))))).
Proof.
  destruct (@trapezoidal_rule_on_quadratics (total (real_function (quartic 0 0 1 0 0)))
              0%R 0%R 1%R 0%R 2%R 4 999%nat) as [H1 H2].
  - intro r. reflexivity.
  - lia.
  - split; [exact H1|]. apply H2; [lra|lia].
Defined.

(** X18.  In exact arithmetic, on the quadratic [c0 + c1 x + c2 x^2] and with
    [n >= 1] intervals, the midpoint rule returns the integral minus
    [c2 (b - a)^3 / (12 n^2)]; and on [a < b] its error estimate is exactly the
    size of that deficit. *)
Theorem midpoint_rule_on_quadratics :
  forall (func : @integrand exact) (c0 c1 c2 a b : R) (n : Z) (fuel : nat),
    real_valued func (quartic c0 c1 c2 0 0) -> 1 <= n ->
    let deficit := (c2 * (b - a) ^ 3 / (12 * IZR n ^ 2))%R in
    MidpointRule.integrate func (ExtendedReal.Fin a) (ExtendedReal.Fin b) n
    = Return (ExtendedReal.Fin (quartic_integral c0 c1 c2 0 0 a b - deficit))
    /\ ((a < b)%R -> (999 <= fuel)%nat ->
        MidpointRule.getErrorEstimate fuel func (ExtendedReal.Fin a) (ExtendedReal.Fin b) n
        = Some (Some (ExtendedReal.Fin (Rabs deficit)))).
Proof.
  intros func c0 c1 c2 a b n fuel Hg Hn deficit. split.
  - now apply midpoint_quadratic_value.
  - intros Hab Hfuel.
    unfold MidpointRule.getErrorEstimate, MidpointRule.estimateSecondDerivative.
    rewrite (@quadratic_second_derivative 1000 fuel func c0 c1 c2 a b Hg) by (lia || lra).
    assert (Hpos : (1 <= IZR n)%R) by (apply IZR_le in Hn; exact Hn).
    change (@Math_pow exact (@nsub exact (ExtendedReal.Fin b) (ExtendedReal.Fin a)) 3)
      with (ExtendedReal.Fin (1 * (b + - a) * (b + - a) * (b + - a))).
    change (@nmul exact (@nmul exact (of_Z 24) (of_Z n)) (of_Z n))
      with (ExtendedReal.Fin (24 * IZR n * IZR n)).
    change (@nmul exact (ExtendedReal.Fin ?x) (ExtendedReal.Fin ?y))
      with (ExtendedReal.Fin (x * y)).
    rewrite exact_div by nra.
    change (@Math_abs exact (ExtendedReal.Fin ?x)) with (ExtendedReal.Fin (Rabs x)).
    do 3 f_equal.
    replace (1 * (b + - a) * (b + - a) * (b + - a) * Rabs (2 * c2) / (24 * IZR n * IZR n))%R
      with ((b - a) ^ 3 / (24 * IZR n ^ 2) * Rabs (2 * c2))%R by (field; lra).
    rewrite Rabs_scale.
    + f_equal. unfold deficit. field. lra.
    + apply Rlt_le. apply Rdiv_lt_0_compat; [apply pow_lt; lra|nra].
Qed.

(** X18 at the square on [[0, 2]] with four intervals: 8/3 - 1/8. *)
Lemma midpoint_quadratic_witness :
  MidpointRule.integrate (total (real_function (quartic 0 0 1 0 0)))
    (ExtendedReal.Fin 0) (ExtendedReal.Fin 2) 4
  = Return (ExtendedReal.Fin (quartic_integral 0 0 1 0 0 0 2
                              - 1 * (2 - 0) ^ 3 / (12 * IZR 4 ^ 2)))
  /\ MidpointRule.getErrorEstimate 999 (total (real_function (quartic 0 0 1 0 0)))
       (ExtendedReal.Fin 0) (ExtendedReal.Fin 2) 4
     = Some (Some (ExtendedReal.Fin (Rabs (1 * (2 - 0) ^ 3 / (12 * IZR 4 ^ 2))))).
Proof.
  destruct (@midpoint_rule_on_quadratics (total (real_function (quartic 0 0 1 0 0)))
              0%R 0%R 1%R 0%R 2%R 4 999%nat) as [H1 H2].
  - intro r. reflexivity.
  - lia.
  - split; [exact H1|]. apply H2; [lra|lia].
Defined.

(** X19.  In exact arithmetic, on the quartic
    [c0 + c1 x + c2 x^2 + c3 x^3 + c4 x^4] and with an even number [n >= 2] of
    intervals, Simpson 1/3 returns the integral plus
    [2 c4 (b - a)^5 / (15 n^4)]: it is exact on cubics.  On [a < b] its error
    estimate is exactly the size of that excess. *)
Theorem simpson13_rule_on_quartics :
  forall (func : @integrand exact) (c0 c1 c2 c3 c4 a b : R) (n : Z) (fuel : nat),
    real_valued func (quartic c0 c1 c2 c3 c4) -> 2 <= n -> Z.even n = true ->
    let excess := (2 * c4 * (b - a) ^ 5 / (15 * IZR n ^ 4))%R in
    SimpsonsRule1By3.integrate func (ExtendedReal.Fin a) (ExtendedReal.Fin b) n
    = Return (ExtendedReal.Fin (quartic_integral c0 c1 c2 c3 c4 a b + excess))
    /\ ((a < b)%R -> (997 <= fuel)%nat ->
        SimpsonsRule1By3.getErrorEstimate fuel func
          (ExtendedReal.Fin a) (ExtendedReal.Fin b) n
        = Some (Some (ExtendedReal.Fin (Rabs excess)))).
Proof.
  intros func c0 c1 c2 c3 c4 a b n fuel Hg Hn Heven excess. split.
  - now apply simpson13_quartic_value.
  - intros Hab Hfuel. unfold SimpsonsRule1By3.getErrorEstimate.
    rewrite <- Zeven_rem, Heven.
    rewrite (@quartic_fourth_derivative fuel func c0 c1 c2 c3 c4 a b Hg) by (lia || lra).
    assert (Hpos : (2 <= IZR n)%R) by (apply IZR_le in Hn; exact Hn).
    change (@Math_pow exact (@nsub exact (ExtendedReal.Fin b) (ExtendedReal.Fin a)) 5)
      with (ExtendedReal.Fin
              (1 * (b + - a) * (b + - a) * (b + - a) * (b + - a) * (b + - a))).
    change (@nmul exact (of_Z 180) (@Math_pow exact (of_Z n) 4))
      with (ExtendedReal.Fin (180 * (1 * IZR n * IZR n * IZR n * IZR n))).
    change (@nmul exact (ExtendedReal.Fin ?x) (ExtendedReal.Fin ?y))
      with (ExtendedReal.Fin (x * y)).
    assert (Hden : (180 * (1 * IZR n * IZR n * IZR n * IZR n))%R <> 0%R).
    { assert (0 < IZR n * IZR n)%R by nra. nra. }
    rewrite exact_div by exact Hden.
    change (@Math_abs exact (ExtendedReal.Fin ?x)) with (ExtendedReal.Fin (Rabs x)).
    do 3 f_equal.
    replace (1 * (b + - a) * (b + - a) * (b + - a) * (b + - a) * (b + - a)
             * Rabs (24 * c4) / (180 * (1 * IZR n * IZR n * IZR n * IZR n)))%R
      with ((b - a) ^ 5 / (180 * IZR n ^ 4) * Rabs (24 * c4))%R by (field; lra).
    rewrite Rabs_scale.
    + f_equal. unfold excess. field. lra.
    + apply Rlt_le. apply Rdiv_lt_0_compat; [apply pow_lt; lra|].
      assert (0 < IZR n ^ 4)%R by (apply pow_lt; lra). lra.
Qed.

(** X19 at the fourth power on [[0, 2]] with two intervals: 32/5 + 4/15. *)
Lemma simpson13_quartic_witness :
  SimpsonsRule1By3.integrate (total (real_function (quartic 0 0 0 0 1)))
    (ExtendedReal.Fin 0) (ExtendedReal.Fin 2) 2
  = Return (ExtendedReal.Fin (quartic_integral 0 0 0 0 1 0 2
                              + 2 * 1 * (2 - 0) ^ 5 / (15 * IZR 2 ^ 4)))
  /\ SimpsonsRule1By3.getErrorEstimate 997 (total (real_function (quartic 0 0 0 0 1)))
       (ExtendedReal.Fin 0) (ExtendedReal.Fin 2) 2
     = Some (Some (ExtendedReal.Fin (Rabs (2 * 1 * (2 - 0) ^ 5 / (15 * IZR 2 ^ 4))))).
Proof.
  destruct (@simpson13_rule_on_quartics (total (real_function (quartic 0 0 0 0 1)))
              0%R 0%R 0%R 0%R 1%R 0%R 2%R 2 997%nat) as [H1 H2].
  - intro r. reflexivity.
  - lia.
  - reflexivity.
  - split; [exact H1|]. apply H2; [lra|lia].
Defined.

(** X20.  In exact arithmetic, on the quartic
    [c0 + c1 x + c2 x^2 + c3 x^3 + c4 x^4] and with a number [n >= 3] of
    intervals that is a multiple of 3, Simpson 3/8 returns the integral plus
    [3 c4 (b - a)^5 / (10 n^4)]: it is exact on cubics. *)
Theorem simpson38_rule_on_quartics :
  forall (func : @integrand exact) (c0 c1 c2 c3 c4 a b : R) (n : Z),
    real_valued func (quartic c0 c1 c2 c3 c4) -> 3 <= n -> Z.rem n 3 = 0 ->
    SimpsonsRule3By8.integrate func (ExtendedReal.Fin a) (ExtendedReal.Fin b) n
    = Return (ExtendedReal.Fin (quartic_integral c0 c1 c2 c3 c4 a b
                                + 3 * c4 * (b - a) ^ 5 / (10 * IZR n ^ 4))).
Proof.
  intros func c0 c1 c2 c3 c4 a b n Hg Hn Hrem.
  rewrite (simpson38_exact a b Hg Hn Hrem). do 2 f_equal.
  destruct (third Hn Hrem) as [k ->]. unfold range.
  replace (Z.to_nat (3 * (Z.of_nat k + 1) - 1)) with (3 * k + 2)%nat by lia.
  set (h := ((b - a) / IZR (3 * (Z.of_nat k + 1)))%R).
  pose proof (simpson38_quartic_sum c0 c1 c2 c3 c4 a h k) as Hsum. cbv zeta in Hsum.
  set (S := Rsum _ _) in *.
  assert (Hn' : IZR (3 * (Z.of_nat k + 1)) = (3 * (INR k + 1))%R).
  { rewrite mult_IZR, plus_IZR, <- INR_IZR_INZ. reflexivity. }
  assert (Hpos : (0 < INR k + 1)%R) by (pose proof (pos_INR k); lra).
  assert (Hb : (a + 3 * (INR k + 1) * h = b)%R).
  { unfold h. rewrite Hn'. field. lra. }
  rewrite Hn', Hb. rewrite Hb in Hsum.
  replace (0 + 3 * h / 8
               * (quartic c0 c1 c2 c3 c4 a + quartic c0 c1 c2 c3 c4 b + S))%R
    with (3 / 8 * (h * (quartic c0 c1 c2 c3 c4 a + quartic c0 c1 c2 c3 c4 b) + h * S))%R
    by field.
  rewrite Hsum. unfold h. rewrite Hn'. field. lra.
Qed.

(** X20 at the cube on [[0, 1]] with six intervals: exactly 1/4. *)
Lemma simpson38_quartic_witness :
  SimpsonsRule3By8.integrate (total (real_function (quartic 0 0 0 1 0)))
    (ExtendedReal.Fin 0) (ExtendedReal.Fin 1) 6
  = Return (ExtendedReal.Fin (quartic_integral 0 0 0 1 0 0 1
                              + 3 * 0 * (1 - 0) ^ 5 / (10 * IZR 6 ^ 4))).
Proof.
  apply (@simpson38_rule_on_quartics (total (real_function (quartic 0 0 0 1 0)))
           0%R 0%R 0%R 1%R 0%R 0%R 1%R 6).
  - intro r. reflexivity.
  - lia.
  - reflexivity.
Defined.

(** ** The points a rule reads *)

Section IntervalFacts.
Import ExtendedReal.




Variables (func func' : @integrand exact) (a b : R).
Hypothesis Hab : (a <= b)%R.
Hypothesis Hagree : forall r, (a <= r <= b)%R -> func (Fin r) = func' (Fin r).










End IntervalFacts.



(** ** The hybrid branches on quadratics *)

Section HybridFacts.
Import ExtendedReal.

Lemma simpsonRule_quartic_value :
  forall (func : @integrand exact) (c0 c1 c2 c3 c4 a b : R) (n : Z),
    real_valued func (quartic c0 c1 c2 c3 c4) -> 2 <= n -> Z.even n = true ->
    SimpsonsRule1By3.simpsonRule func (Fin a) (Fin b) n
    = Return (Fin (quartic_integral c0 c1 c2 c3 c4 a b
                   + 2 * c4 * (b - a) ^ 5 / (15 * IZR n ^ 4))).
Proof.
  intros func c0 c1 c2 c3 c4 a b n Hg Hn Heven.
  rewrite <- (simpson13_quartic_value a b Hg Hn Heven).
  unfold SimpsonsRule1By3.integrate. now rewrite <- Zeven_rem, Heven.
Qed.

(** Simpson 3/8 for any [n >= 3]: the main block over the first
    [n - n rem 3] intervals and the trapezoidal remainder. *)
Lemma simpson38_exact_hybrid :
  forall (func : @integrand exact) (g : R -> R) (a b : R) (n : Z),
    real_valued func g -> 3 <= n ->
    let h := ((b - a) / IZR n)%R in
    let remainder := Z.rem n 3 in
    let mainN := n - remainder in
    let main :=
      (0 + 3 * h / 8
           * (g a + g (a + IZR mainN * h)
              + Rsum (fun j => simpson38_weight j * g (a + IZR j * h)) (range 1 mainN)))%R in
    SimpsonsRule3By8.integrate func (Fin a) (Fin b) n
    = Return (Fin (if remainder >? 0
                   then main
                        + ((g (a + IZR mainN * h) + g b) / 2
                           + Rsum (fun j => g (a + IZR mainN * h + IZR j * h))
                               (range 1 remainder)) * h
                   else main)%R).
Proof.
  intros func g a b n Hg Hn h remainder mainN main.
  unfold SimpsonsRule3By8.integrate.
  assert (Hh : @ndiv exact (@nsub exact (Fin b) (Fin a)) (of_Z n) = Fin h).
  { apply exact_div. apply not_0_IZR. lia. }
  destruct (Z.ltb_spec n 3) as [E|_]; [lia|].
  fold remainder. fold mainN. rewrite Hh.
  assert (Hrem : 0 <= remainder < 3) by (apply Z.rem_bound_pos; lia).
  assert (Hmain : 3 <= mainN).
  { unfold mainN, remainder.
    pose proof (Z.rem_mod_nonneg n 3 ltac:(lia) ltac:(lia)) as Hm.
    pose proof (Z.div_mod n 3 ltac:(lia)) as Hd.
    assert (1 <= n / 3) by (apply Z.div_le_lower_bound; lia). lia. }
  destruct (Z.geb_spec mainN 3) as [_|E]; [|lia].
  change (@nadd exact (Fin a) (@nmul exact (of_Z mainN) (Fin h)))
    with (Fin (a + IZR mainN * h)%R).
  unfold call at 1 2. rewrite !Hg. cbn [bind]. unfold for_loop at 1.
  change (@nadd exact (Fin (g a)) (Fin (g (a + IZR mainN * h)%R)))
    with (Fin (g a + g (a + IZR mainN * h))%R).
  rewrite for_range_exact
    with (term := (fun j => simpson38_weight j * g (a + IZR j * h))%R).
  2:{ intros j s' _. unfold simpson38_weight.
      destruct (Z.rem j 3 =? 0); unfold call; cbn; rewrite Hg; reflexivity. }
  cbn [bind]. change (@of_Z exact 0) with (Fin 0). change (@of_Z exact 3) with (Fin 3).
  change (@of_Z exact 8) with (Fin 8).
  change (@nmul exact (Fin 3) (Fin h)) with (Fin (3 * h)%R).
  rewrite exact_div by lra.
  change (@nmul exact (Fin ?x) (Fin ?y)) with (Fin (x * y)%R).
  change (@nadd exact (Fin ?x) (Fin ?y)) with (Fin (x + y)%R).
  fold (range 1 mainN). fold main.
  destruct (remainder >? 0); [|reflexivity].
  unfold call at 1 2. rewrite !Hg. cbn [bind]. unfold for_loop.
  change (@nadd exact (Fin (g (a + IZR mainN * h)%R)) (Fin (g b)))
    with (Fin (g (a + IZR mainN * h) + g b)%R).
  change (@of_Z exact 2) with (Fin 2). rewrite exact_div by lra.
  rewrite for_range_exact
    with (term := (fun j => g (a + IZR mainN * h + IZR j * h))%R).
  2:{ intros j s' _. unfold call. cbn. rewrite Hg. reflexivity. }
  cbn [bind]. reflexivity.
Qed.

End HybridFacts.

(** X22.  In exact arithmetic, on the quadratic [c0 + c1 x + c2 x^2] and with an
    odd number [n >= 3] of intervals, Simpson 1/3 returns the integral plus
    [c2 h^3 / 6] with [h = (b - a) / n]: the trapezoidal panel on the last
    interval costs the rule its exactness on quadratics.  On [a < b] its error
    estimate is [|c2| h^2 / 6], the size of that excess divided by [h]: the
    panel's term of the estimate multiplies the second derivative by
    [h^2 / 12], not by [h^3 / 12]. *)
Theorem simpson13_odd_on_quadratics :
  forall (func : @integrand exact) (c0 c1 c2 a b : R) (n : Z) (fuel : nat),
    real_valued func (quartic c0 c1 c2 0 0) -> 3 <= n -> Z.odd n = true ->
    let h := ((b - a) / IZR n)%R in
    SimpsonsRule1By3.integrate func (ExtendedReal.Fin a) (ExtendedReal.Fin b) n
    = Return (ExtendedReal.Fin (quartic_integral c0 c1 c2 0 0 a b + c2 * h ^ 3 / 6))
    /\ ((a < b)%R -> (997 <= fuel)%nat ->
        SimpsonsRule1By3.getErrorEstimate fuel func
          (ExtendedReal.Fin a) (ExtendedReal.Fin b) n
        = Some (Some (ExtendedReal.Fin (Rabs c2 * h ^ 2 / 6)))).
Proof.
  intros func c0 c1 c2 a b n fuel Hg Hn Hodd h0. split.
  - unfold h0. clear h0.
    rewrite simpson13_odd_branch by exact Hodd.
    assert (Hpos : (3 <= IZR n)%R) by (apply IZR_le in Hn; exact Hn).
    assert (Hh : @ndiv exact (@nsub exact (ExtendedReal.Fin b) (ExtendedReal.Fin a)) (of_Z n)
                 = ExtendedReal.Fin ((b - a) / IZR n)).
    { apply exact_div. lra. }
    rewrite Hh. set (h := ((b - a) / IZR n)%R).
    change (@nsub exact (ExtendedReal.Fin b) (ExtendedReal.Fin h)) with (ExtendedReal.Fin (b + - h)).
    assert (Heven : Z.even (n - 1) = true).
    { rewrite Z.even_sub. rewrite <- Z.negb_odd, Hodd. reflexivity. }
    rewrite (@simpsonRule_quartic_value func c0 c1 c2 0 0 a (b + - h) (n - 1) Hg ltac:(lia)
               Heven).
    cbn [bind]. unfold call. rewrite !Hg. cbn [bind].
    change (@of_Z exact 2) with (ExtendedReal.Fin 2). rewrite exact_div by lra.
    change (@nadd exact (ExtendedReal.Fin ?x) (ExtendedReal.Fin ?y)) with (ExtendedReal.Fin (x + y)).
    change (@nmul exact (ExtendedReal.Fin ?x) (ExtendedReal.Fin ?y)) with (ExtendedReal.Fin (x * y)).
    change (@nadd exact (ExtendedReal.Fin ?x) (ExtendedReal.Fin ?y)) with (ExtendedReal.Fin (x + y)).
    do 2 f_equal.
    assert (Hm : (2 <= IZR (n - 1))%R) by (apply IZR_le; lia).
    unfold quartic_integral, quartic, h. field. lra.
  - intros Hab Hfuel. unfold h0. clear h0.
    unfold SimpsonsRule1By3.getErrorEstimate, SimpsonsRule1By3.estimateSecondDerivative.
    rewrite Zodd_rem in Hodd. apply negb_true_iff in Hodd. rewrite Hodd.
    assert (Hpos : (3 <= IZR n)%R) by (apply IZR_le in Hn; exact Hn).
    assert (Hh : @ndiv exact (@nsub exact (ExtendedReal.Fin b) (ExtendedReal.Fin a)) (of_Z n)
                 = ExtendedReal.Fin ((b - a) / IZR n)).
    { apply exact_div. lra. }
    rewrite Hh. set (h := ((b - a) / IZR n)%R).
    assert (Hh0 : (0 < h)%R) by (unfold h; apply Rdiv_lt_0_compat; lra).
    assert (Hstep : (IZR n * h = b - a)%R) by (unfold h; field; lra).
    change (@nsub exact (ExtendedReal.Fin b) (ExtendedReal.Fin h)) with (ExtendedReal.Fin (b + - h)).
    rewrite (@quartic_fourth_derivative fuel func c0 c1 c2 0 0 a (b + - h) Hg Hfuel)
      by nra.
    rewrite (@quadratic_second_derivative 100 fuel func c0 c1 c2 (b + - h) b Hg)
      by (lia || lra).
    change (@of_Z exact 180) with (ExtendedReal.Fin 180). change (@of_Z exact 12) with (ExtendedReal.Fin 12).
    change (@of_Z exact 1) with (ExtendedReal.Fin 1). change (@of_Z exact n) with (ExtendedReal.Fin (IZR n)).
    change (@nsub exact (ExtendedReal.Fin (b + - h)) (ExtendedReal.Fin a)) with (ExtendedReal.Fin (b + - h + - a)).
    change (@nsub exact (ExtendedReal.Fin (IZR n)) (ExtendedReal.Fin 1)) with (ExtendedReal.Fin (IZR n + - 1)).
    change (@Math_pow exact (ExtendedReal.Fin ?x) 5) with (ExtendedReal.Fin (1 * x * x * x * x * x)).
    change (@Math_pow exact (ExtendedReal.Fin ?x) 4) with (ExtendedReal.Fin (1 * x * x * x * x)).
    change (@Math_pow exact (ExtendedReal.Fin ?x) 2) with (ExtendedReal.Fin (1 * x * x)).
    change (@nmul exact (ExtendedReal.Fin ?x) (ExtendedReal.Fin ?y)) with (ExtendedReal.Fin (x * y)).
    assert (Hden : (180 * (1 * (IZR n + - 1) * (IZR n + - 1) * (IZR n + - 1) * (IZR n + - 1))
                    <> 0)%R).
    { assert (0 < (IZR n + - 1) * (IZR n + - 1))%R by nra. nra. }
    rewrite !exact_div by (exact Hden || lra).
    change (@Math_abs exact (ExtendedReal.Fin ?x)) with (ExtendedReal.Fin (Rabs x)).
    change (@nadd exact (ExtendedReal.Fin ?x) (ExtendedReal.Fin ?y)) with (ExtendedReal.Fin (x + y)).
    do 3 f_equal.
    replace (24 * 0)%R with 0%R by ring. rewrite Rabs_R0.
    unfold Rdiv at 1. rewrite !Rmult_0_l, Rabs_R0, Rplus_0_l.
    rewrite (Rabs_mult 2 c2), (Rabs_right 2) by lra.
    rewrite Rabs_right.
    + field.
    + apply Rle_ge. pose proof (Rabs_pos c2).
      apply Rmult_le_pos; [|lra]. apply Rmult_le_pos; [nra|nra].
Qed.

(** X22 at the square on [[0, 3]] with three intervals: the value is 9 + 1/6
    and the estimate is 1/6 (here [h = 1]). *)
Lemma simpson13_odd_quadratic_witness :
  SimpsonsRule1By3.integrate (total (real_function (quartic 0 0 1 0 0)))
    (ExtendedReal.Fin 0) (ExtendedReal.Fin 3) 3
  = Return (ExtendedReal.Fin (quartic_integral 0 0 1 0 0 0 3
                              + 1 * ((3 - 0) / IZR 3) ^ 3 / 6))
  /\ SimpsonsRule1By3.getErrorEstimate 997 (total (real_function (quartic 0 0 1 0 0)))
       (ExtendedReal.Fin 0) (ExtendedReal.Fin 3) 3
     = Some (Some (ExtendedReal.Fin (Rabs 1 * ((3 - 0) / IZR 3) ^ 2 / 6))).
Proof.
  destruct (@simpson13_odd_on_quadratics (total (real_function (quartic 0 0 1 0 0)))
              0%R 0%R 1%R 0%R 3%R 3 997%nat) as [H1 H2].
  - intro r. reflexivity.
  - lia.
  - reflexivity.
  - split; [exact H1|]. apply H2; [lra|lia].
Defined.

(** X23.  In exact arithmetic, on the quadratic [c0 + c1 x + c2 x^2] and with
    [n >= 3] intervals, Simpson 3/8 returns the integral plus
    [c2 (n rem 3) (b - a)^3 / (6 n^3)]: it is exact on quadratics only when [n]
    is a multiple of 3, each of the one or two intervals of the trapezoidal
    remainder adding [c2 h^3 / 6]. *)
Theorem simpson38_on_quadratics :
  forall (func : @integrand exact) (c0 c1 c2 a b : R) (n : Z),
    real_valued func (quartic c0 c1 c2 0 0) -> 3 <= n ->
    SimpsonsRule3By8.integrate func (ExtendedReal.Fin a) (ExtendedReal.Fin b) n
    = Return (ExtendedReal.Fin (quartic_integral c0 c1 c2 0 0 a b
                                + c2 * IZR (Z.rem n 3) * (b - a) ^ 3 / (6 * IZR n ^ 3))).
Proof.
  intros func c0 c1 c2 a b n Hg Hn.
  rewrite (simpson38_exact_hybrid a b Hg Hn). cbv zeta. do 2 f_equal.
  set (h := ((b - a) / IZR n)%R).
  assert (Hrem : 0 <= Z.rem n 3 < 3) by (apply Z.rem_bound_pos; lia).
  pose proof (Z.rem_mod_nonneg n 3 ltac:(lia) ltac:(lia)) as Hmod.
  pose proof (Z.div_mod n 3 ltac:(lia)) as Hdiv.
  assert (Hq : 1 <= n / 3) by (apply Z.div_le_lower_bound; lia).
  set (r := Z.rem n 3) in *.
  assert (Hk : n - r = 3 * (Z.of_nat (Z.to_nat (n / 3 - 1)) + 1)) by lia.
  set (k := Z.to_nat (n / 3 - 1)) in *.
  rewrite Hk. unfold range.
  replace (Z.to_nat (3 * (Z.of_nat k + 1) - 1)) with (3 * k + 2)%nat by lia.
  pose proof (simpson38_quartic_sum c0 c1 c2 0 0 a h k) as Hmain. cbv zeta in Hmain.
  set (S := Rsum _ (count_from (3 * k + 2) 1)) in *.
  assert (Hn' : IZR (3 * (Z.of_nat k + 1)) = (3 * (INR k + 1))%R).
  { rewrite mult_IZR, plus_IZR, <- INR_IZR_INZ. reflexivity. }
  rewrite Hn'.
  assert (Hpos : (3 <= IZR n)%R) by (apply IZR_le in Hn; exact Hn).
  assert (HnR : IZR n = (3 * (INR k + 1) + IZR r)%R).
  { rewrite <- Hn', <- plus_IZR. f_equal. lia. }
  set (m := (3 * (INR k + 1))%R) in *.
  assert (HS : (3 * h / 8 * S
                = quartic_integral c0 c1 c2 0 0 a (a + m * h)
                  - 3 * h / 8 * (quartic c0 c1 c2 0 0 a + quartic c0 c1 c2 0 0 (a + m * h)))%R).
  { replace (3 * h / 8 * S)%R with (3 / 8 * (h * S))%R by field.
    rewrite Hmain. field. }
  destruct (Z.gtb_spec r 0) as [Hr|Hr].
  - pose proof (trapezoidal_quadratic_sum c0 c1 c2 (a + m * h) h (Z.to_nat (r - 1)))
      as Hrest.
    cbv zeta in Hrest. set (T := Rsum _ (count_from (Z.to_nat (r - 1)) 1)) in *.
    assert (Hr' : (INR (Z.to_nat (r - 1)) + 1)%R = IZR r).
    { rewrite INR_IZR_INZ, Z2Nat.id, minus_IZR by lia. ring. }
    rewrite Hr' in Hrest.
    assert (Hb : (a + m * h + IZR r * h = b)%R).
    { unfold h. rewrite HnR. field. lra. }
    rewrite Hb in Hrest.
    replace (0 + 3 * h / 8
                 * (quartic c0 c1 c2 0 0 a + quartic c0 c1 c2 0 0 (a + m * h) + S)
             + ((quartic c0 c1 c2 0 0 (a + m * h) + quartic c0 c1 c2 0 0 b) / 2 + T) * h)%R
      with (3 * h / 8 * (quartic c0 c1 c2 0 0 a + quartic c0 c1 c2 0 0 (a + m * h))
            + 3 * h / 8 * S
            + h * (quartic c0 c1 c2 0 0 (a + m * h) + quartic c0 c1 c2 0 0 b) / 2
            + h * T)%R by field.
    rewrite HS, Hrest.
    assert (Hbh : (b - a = IZR n * h)%R) by (unfold h; field; lra).
    replace ((b - a) ^ 3)%R with ((IZR n * h) ^ 3)%R by (rewrite Hbh; reflexivity).
    rewrite <- Hb. unfold quartic_integral. field. lra.
  - assert (Hr0 : r = 0) by lia. rewrite Hr0 in *.
    assert (Hb : (a + m * h = b)%R).
    { unfold h. rewrite HnR. field. cbn in HnR. lra. }
    rewrite Hb in *.
    replace (0 + 3 * h / 8 * (quartic c0 c1 c2 0 0 a + quartic c0 c1 c2 0 0 b + S))%R
      with (3 * h / 8 * (quartic c0 c1 c2 0 0 a + quartic c0 c1 c2 0 0 b)
            + 3 * h / 8 * S)%R by field.
    rewrite HS. field. lra.
Qed.

(** X23 at the square on [[0, 4]] with four intervals: 64/3 + 1/6. *)
Lemma simpson38_quadratic_witness :
  SimpsonsRule3By8.integrate (total (real_function (quartic 0 0 1 0 0)))
    (ExtendedReal.Fin 0) (ExtendedReal.Fin 4) 4
  = Return (ExtendedReal.Fin (quartic_integral 0 0 1 0 0 0 4
                              + 1 * IZR (Z.rem 4 3) * (4 - 0) ^ 3 / (6 * IZR 4 ^ 3))).
Proof.
  apply (@simpson38_on_quadratics (total (real_function (quartic 0 0 1 0 0)))
           0%R 0%R 1%R 0%R 4%R 4).
  - intro r. reflexivity.
  - lia.
Defined.

(** ** The table of predefined functions *)

(** X24.  In exact arithmetic, each of the three polynomial entries of the
    table ([x^2], [x^3] and [x^4 - 2x^2 + 3]) has for [exact] the integral of
    its [func], on every interval. *)
Theorem predefined_exact_values_are_the_integrals :
  forall (key : string) (e : @Constants.entry exact),
    Constants.lookup Constants.predefinedFunctions key = Some e ->
    exists c0 c1 c2 c3 c4 : R,
      real_valued (Constants.func e) (quartic c0 c1 c2 c3 c4)
      /\ forall a b : R,
           Constants.exact e (ExtendedReal.Fin a) (ExtendedReal.Fin b)
           = ExtendedReal.Fin (quartic_integral c0 c1 c2 c3 c4 a b).
Proof.
  intros key e H. unfold Constants.predefinedFunctions in H. cbn [Constants.lookup] in H.
  destruct (String.eqb "x^2" key).
  { injection H as <-. exists 0%R, 0%R, 1%R, 0%R, 0%R. split.
    - intro r. cbn. do 2 f_equal. unfold quartic. ring.
    - intros a b. cbn. destruct (Req_dec_T 3 0) as [E|_]; [lra|].
      f_equal. unfold quartic_integral. field. }
  destruct (String.eqb "x^3" key).
  { injection H as <-. exists 0%R, 0%R, 0%R, 1%R, 0%R. split.
    - intro r. cbn. do 2 f_equal. unfold quartic. ring.
    - intros a b. cbn. destruct (Req_dec_T 4 0) as [E|_]; [lra|].
      f_equal. unfold quartic_integral. field. }
  destruct (String.eqb "x^4 - 2x^2 + 3" key); [|discriminate].
  injection H as <-. exists 3%R, 0%R, (-2)%R, 0%R, 1%R. split.
  - intro r. cbn. do 2 f_equal. unfold quartic. ring.
  - intros a b. cbn. destruct (Req_dec_T 5 0) as [E|_]; [lra|].
    destruct (Req_dec_T 3 0) as [E|_]; [lra|].
    cbn. f_equal. unfold quartic_integral. field.
Qed.

(** X24 at the key of the square. *)
Lemma predefined_exact_values_witness :
  exists (e : @Constants.entry exact) (c0 c1 c2 c3 c4 : R),
    Constants.lookup Constants.predefinedFunctions "x^2" = Some e
    /\ forall a b : R,
         Constants.exact e (ExtendedReal.Fin a) (ExtendedReal.Fin b)
         = ExtendedReal.Fin (quartic_integral c0 c1 c2 c3 c4 a b).
Proof.
  eexists.
  destruct (@predefined_exact_values_are_the_integrals "x^2" _ eq_refl)
    as [c0 [c1 [c2 [c3 [c4 [_ H]]]]]].
  exists c0, c1, c2, c3, c4. split; [reflexivity|exact H].
Defined.

(** ** The rules as weighted means *)

Section MeanFacts.
Import ExtendedReal.

Lemma Rsum_cons : forall (t : Z -> R) (j : Z) (l : list Z),
  Rsum t (j :: l) = (t j + Rsum t l)%R.
Proof.
  reflexivity.
Qed.

Lemma count_from_In : forall (k : nat) (i j : Z),
  In j (count_from k i) -> i <= j < i + Z.of_nat k.
Proof.
  induction k as [|k IH]; intros i j Hj; cbn in Hj.
  - contradiction.
  - destruct Hj as [<-|Hj]; [lia|]. apply IH in Hj. lia.
Qed.







Variables (func : @integrand exact) (g : R -> R) (lo hi a b : R).
Hypothesis Hg : real_valued func g.
Hypothesis Hab : (a <= b)%R.
Hypothesis Hbound : forall r, (a <= r <= b)%R -> (lo <= g r <= hi)%R.









End MeanFacts.



(** ** Exchanging the limits *)

Section ReversalFacts.
Import ExtendedReal.

Lemma Rsum_ext : forall (t t' : Z -> R) (l : list Z),
  (forall j, In j l -> t j = t' j) -> Rsum t l = Rsum t' l.
Proof.
  intros t t' l. induction l as [|j l IH]; intro H.
  - reflexivity.
  - rewrite !Rsum_cons, (H j (or_introl eq_refl)), IH; [reflexivity|].
    intros i Hi. apply H. now right.
Qed.

Lemma Rsum_shift : forall (t : Z -> R) (k : nat) (i : Z),
  Rsum t (count_from k (i + 1)) = Rsum (fun j => t (j + 1)) (count_from k i).
Proof.
  intros t k. induction k as [|k IH]; intro i.
  - reflexivity.
  - cbn [count_from]. rewrite !Rsum_cons, IH. reflexivity.
Qed.

Lemma count_from_snoc : forall (k : nat) (i : Z),
  count_from (S k) i = (count_from k i ++ [i + Z.of_nat k])%list.
Proof.
  intros k i. replace (S k) with (k + 1)%nat by lia. now rewrite count_from_app.
Qed.

Lemma Rsum_reverse : forall (t : Z -> R) (k : nat) (i : Z),
  Rsum t (count_from k i)
  = Rsum (fun j => t (2 * i + Z.of_nat k - 1 - j)) (count_from k i).
Proof.
  intros t k. revert t. induction k as [|k IH]; intros t i.
  - reflexivity.
  - set (t' := fun j => t (2 * i + Z.of_nat (S k) - 1 - j)).
    assert (H1 : Rsum t (count_from (S k) i) = (t i + Rsum t (count_from k (i + 1)))%R)
      by reflexivity.
    assert (H2 : Rsum t' (count_from (S k) i)
                 = (Rsum t' (count_from k i) + t' (i + Z.of_nat k)%Z)%R).
    { rewrite count_from_snoc, Rsum_app. cbn. ring. }
    rewrite H1, H2, Rsum_shift, (IH (fun j => t (j + 1)) i).
    unfold t'. replace (2 * i + Z.of_nat (S k) - 1 - (i + Z.of_nat k)) with i by lia.
    rewrite (@Rsum_ext (fun j => t (2 * i + Z.of_nat k - 1 - j + 1))
               (fun j => t (2 * i + Z.of_nat (S k) - 1 - j))).
    + ring.
    + intros j _. f_equal. lia.
Qed.

Variables (func : @integrand exact) (g : R -> R) (a b : R).
Hypothesis Hg : real_valued func g.

Lemma trapezoidal_flips : forall n : Z,
  1 <= n -> flips (fun x y => TrapezoidalRule.integrate func x y n) a b.
Proof.
  intros n Hn. unfold flips. cbv beta.
  rewrite (trapezoidal_exact a b Hg), (trapezoidal_exact b a Hg) by lia.
  eexists. split; [reflexivity|]. do 2 f_equal.
  assert (Hpos : (1 <= IZR n)%R) by (apply IZR_le in Hn; exact Hn).
  unfold range. rewrite (Rsum_reverse _ (Z.to_nat (n - 1)) 1).
  rewrite (@Rsum_ext
             (fun j => g (b + IZR (2 * 1 + Z.of_nat (Z.to_nat (n - 1)) - 1 - j)
                              * ((a - b) / IZR n)))%R
             (fun j => g (a + IZR j * ((b - a) / IZR n)))%R).
  - field; lra.
  - intros j _. f_equal.
    replace (2 * 1 + Z.of_nat (Z.to_nat (n - 1)) - 1 - j) with (n - j) by lia.
    rewrite minus_IZR. field. lra.
Qed.

Lemma midpoint_flips : forall n : Z,
  1 <= n -> flips (fun x y => MidpointRule.integrate func x y n) a b.
Proof.
  intros n Hn. unfold flips. cbv beta.
  rewrite (midpoint_exact a b Hg), (midpoint_exact b a Hg) by lia.
  eexists. split; [reflexivity|]. do 2 f_equal.
  assert (Hpos : (1 <= IZR n)%R) by (apply IZR_le in Hn; exact Hn).
  unfold range. rewrite (Rsum_reverse _ (Z.to_nat (n - 0)) 0).
  rewrite (@Rsum_ext
             (fun j => g (b + (IZR (2 * 0 + Z.of_nat (Z.to_nat (n - 0)) - 1 - j) + 5 / 10)
                              * ((a - b) / IZR n)))%R
             (fun j => g (a + (IZR j + 5 / 10) * ((b - a) / IZR n)))%R).
  - field; lra.
  - intros j _. f_equal.
    replace (2 * 0 + Z.of_nat (Z.to_nat (n - 0)) - 1 - j) with (n - 1 - j) by lia.
    rewrite !minus_IZR. field. lra.
Qed.

Lemma simpson13_flips : forall n : Z,
  2 <= n -> Z.even n = true ->
  flips (fun x y => SimpsonsRule1By3.integrate func x y n) a b.
Proof.
  intros n Hn Heven. unfold flips, SimpsonsRule1By3.integrate. cbv beta.
  rewrite <- Zeven_rem, Heven.
  rewrite (simpsonRule_exact a b Hg), (simpsonRule_exact b a Hg) by lia.
  eexists. split; [reflexivity|]. do 2 f_equal.
  assert (Hpos : (2 <= IZR n)%R) by (apply IZR_le in Hn; exact Hn).
  unfold range. rewrite (Rsum_reverse _ (Z.to_nat (n - 1)) 1).
  rewrite (@Rsum_ext
             (fun j => simpson_weight (2 * 1 + Z.of_nat (Z.to_nat (n - 1)) - 1 - j)
                       * g (b + IZR (2 * 1 + Z.of_nat (Z.to_nat (n - 1)) - 1 - j)
                                * ((a - b) / IZR n)))%R
             (fun j => simpson_weight j * g (a + IZR j * ((b - a) / IZR n)))%R).
  - field; lra.
  - intros j Hj. apply count_from_In in Hj.
    replace (2 * 1 + Z.of_nat (Z.to_nat (n - 1)) - 1 - j) with (n - j) by lia.
    f_equal.
    + unfold simpson_weight. rewrite <- !Zeven_rem, Z.even_sub, Heven.
      now destruct (Z.even j).
    + f_equal. rewrite minus_IZR. field. lra.
Qed.

Lemma simpson38_flips : forall n : Z,
  3 <= n -> Z.rem n 3 = 0 ->
  flips (fun x y => SimpsonsRule3By8.integrate func x y n) a b.
Proof.
  intros n Hn Hrem. unfold flips. cbv beta.
  rewrite (simpson38_exact a b Hg Hn Hrem), (simpson38_exact b a Hg Hn Hrem).
  eexists. split; [reflexivity|]. do 2 f_equal.
  assert (Hpos : (3 <= IZR n)%R) by (apply IZR_le in Hn; exact Hn).
  unfold range. rewrite (Rsum_reverse _ (Z.to_nat (n - 1)) 1).
  rewrite (@Rsum_ext
             (fun j => simpson38_weight (2 * 1 + Z.of_nat (Z.to_nat (n - 1)) - 1 - j)
                       * g (b + IZR (2 * 1 + Z.of_nat (Z.to_nat (n - 1)) - 1 - j)
                                * ((a - b) / IZR n)))%R
             (fun j => simpson38_weight j * g (a + IZR j * ((b - a) / IZR n)))%R).
  - replace (b + IZR n * ((a - b) / IZR n))%R with a by (field; lra).
    replace (a + IZR n * ((b - a) / IZR n))%R with b by (field; lra).
    field; lra.
  - intros j Hj. apply count_from_In in Hj.
    replace (2 * 1 + Z.of_nat (Z.to_nat (n - 1)) - 1 - j) with (n - j) by lia.
    f_equal.
    + unfold simpson38_weight.
      rewrite !Z.rem_mod_nonneg by lia.
      pose proof (Z.rem_mod_nonneg n 3 ltac:(lia) ltac:(lia)) as Hm. rewrite Hrem in Hm.
      assert (Hiff : (n - j) mod 3 = 0 <-> j mod 3 = 0).
      { pose proof (Z.div_mod n 3 ltac:(lia)) as Hd.
        pose proof (Z.div_mod j 3 ltac:(lia)) as Hdj.
        pose proof (Z.div_mod (n - j) 3 ltac:(lia)) as Hdn.
        pose proof (Z.mod_pos_bound j 3 ltac:(lia)).
        pose proof (Z.mod_pos_bound (n - j) 3 ltac:(lia)).
        lia. }
      destruct (Z.eqb_spec ((n - j) mod 3) 0) as [E|E], (Z.eqb_spec (j mod 3) 0) as [E'|E'];
        try reflexivity; exfalso; tauto.
    + f_equal. rewrite minus_IZR. field. lra.
Qed.

End ReversalFacts.

(** X26.  In exact arithmetic, exchanging the limits changes the sign of the
    result and nothing else, for the rules without a hybrid part: the
    trapezoidal and the midpoint rule, Simpson 1/3 with an even number of
    intervals, and Simpson 3/8 with a multiple of 3. *)
Theorem exchanging_the_limits_changes_the_sign :
  forall (func : @integrand exact) (g : R -> R) (a b : R) (n : Z),
    real_valued func g ->
    (1 <= n -> flips (fun x y => TrapezoidalRule.integrate func x y n) a b)
    /\ (1 <= n -> flips (fun x y => MidpointRule.integrate func x y n) a b)
    /\ (2 <= n -> Z.even n = true ->
        flips (fun x y => SimpsonsRule1By3.integrate func x y n) a b)
    /\ (3 <= n -> Z.rem n 3 = 0 ->
        flips (fun x y => SimpsonsRule3By8.integrate func x y n) a b).
Proof.
  intros func g a b n Hg. repeat split.
  - intro Hn. now apply trapezoidal_flips with (g := g).
  - intro Hn. now apply midpoint_flips with (g := g).
  - intros Hn Heven. now apply simpson13_flips with (g := g).
  - intros Hn Hrem. now apply simpson38_flips with (g := g).
Qed.

(** X26 for the cube on [[0, 2]] under Simpson 1/3 with four intervals. *)
Lemma exchanging_the_limits_witness :
  flips (fun x y => SimpsonsRule1By3.integrate
                      (total (real_function (fun x => x * x * x)%R)) x y 4) 0 2.
Proof.
  destruct (@exchanging_the_limits_changes_the_sign
              (total (real_function (fun x => x * x * x)%R)) (fun x => x * x * x)%R
              0%R 2%R 4) as [_ [_ [H _]]].
  - intro r. reflexivity.
  - apply H; [lia|reflexivity].
Defined.
